(** * foamgraph: the mouse-event dispatcher and the transform caches

    A shallow embedding of the core of [foamgraph.pyqtgraph_be]:

    - [LRU]: the class [LRUCache] of [graphicsItems/GraphicsItem.py];
    - [Geometry]: [GraphicsItem.deviceTransform], [pixelVectors] and
      [pixelLength], with the per-item and the shared cache;
    - [Scene]: the dispatch layer of [GraphicsScene/GraphicsScene.py]
      (hover, click and drag events, context menus).

    Python floats are read as real numbers ([R]); the only operations the
    code applies to them are arithmetic, square roots and comparisons.
    Z values of items are rationals ([Q]): they are only added and
    compared.  Python objects that are mutated in place (the cache, the
    scene, an event) become explicit state; a call that can raise returns
    the state reached together with the outcome. *)

From Stdlib Require Import List Bool Arith ZArith Lia.
From Stdlib Require Import QArith Reals Lra.
From Stdlib Require Import Permutation.
Import ListNotations.

Close Scope Q_scope.
Close Scope R_scope.

Set Implicit Arguments.
Set Warnings "-register-all".

(** ** Outcomes of Python calls *)

(** The exceptions that the modelled code can raise. *)
Inductive exn : Type :=
| KeyError
| IndexError
| ValueError
| AssertionError
| AttributeError
| TypeError
| HandlerError          (* anything raised by an item's event handler *)
| PyException.          (* [raise Exception(...)] in the modelled code *)

Inductive result (A : Type) : Type :=
| Return (a : A)
| Raise (e : exn).

Arguments Return {A} a.
Arguments Raise {A} e.

Definition is_raise {A} (r : result A) : bool :=
  match r with Raise _ => true | Return _ => false end.

(** ** Python list helpers *)

(** [l[:n]] for a Python int [n]: a negative bound counts from the end. *)
Definition py_slice_to {A} (n : Z) (l : list A) : list A :=
  if (0 <=? n)%Z then firstn (Z.to_nat n) l
  else firstn (length l - Z.to_nat (- n)) l.

(** * LRUCache *)

Module LRU.

Section Cache.

Variables K V : Type.
Variable K_eq_dec : forall a b : K, {a = b} + {a <> b}.

(** An entry of [_dict] is the three-element list [[key, value, time]]. *)
Record Item : Type := mkItem {
  item_key : K;
  item_value : V;
  item_time : nat
}.

(** [_dict] maps a key to its item and keeps insertion order; the item
    stored under [key] always has [item[0] == key], so the dictionary is
    the list of its items.  [_nextTime] is the state of
    [itertools.count(0)].  [passes] is a ghost counter of the calls of
    [_resizeTo]. *)
Record LRUCache : Type := mkCache {
  maxSize : Z;
  resizeTo : Z;
  _counter : Z;
  _dict : list Item;
  _nextTime : nat;
  passes : nat
}.

Definition has_key (k : K) (it : Item) : bool :=
  if K_eq_dec k (item_key it) then true else false.

Definition dict_get (k : K) (d : list Item) : option Item :=
  find (has_key k) d.

Definition dict_del (k : K) (d : list Item) : list Item :=
  filter (fun it => negb (has_key k it)) d.

(** [item[1] = value; item[2] = t] on the item stored under [k]. *)
Definition dict_update (k : K) (v : V) (t : nat) (d : list Item) : list Item :=
  map (fun it => if has_key k it then mkItem k v t else it) d.

(** [item[2] = t] on the item stored under [k]. *)
Definition dict_touch (k : K) (t : nat) (d : list Item) : list Item :=
  map (fun it => if has_key k it
                 then mkItem (item_key it) (item_value it) t else it) d.

(** [LRUCache.__init__] *)
Definition __init__ (maxSize0 resizeTo0 : Z) : result LRUCache :=
  if (resizeTo0 <? maxSize0)%Z
  then Return (mkCache maxSize0 resizeTo0 0 [] 0 0)
  else Raise AssertionError.

(** [LRUCache.__len__] *)
Definition __len__ (c : LRUCache) : Z := Z.of_nat (length (_dict c)).

(** [LRUCache.__getitem__] *)
Definition __getitem__ (c : LRUCache) (key : K) : LRUCache * result V :=
  match dict_get key (_dict c) with
  | None => (c, Raise KeyError)
  | Some item =>
      (mkCache (maxSize c) (resizeTo c) (_counter c)
         (dict_touch key (_nextTime c) (_dict c))
         (S (_nextTime c)) (passes c),
       Return (item_value item))
  end.

(** [LRUCache.get] *)
Definition get (c : LRUCache) (key : K) (default : option V)
  : LRUCache * option V :=
  match __getitem__ c key with
  | (c', Return v) => (c', Some v)
  | (c', Raise _) => (c', default)
  end.

(** [sorted(..., key=operator.itemgetter(2))]: Python's sort is stable,
    so it agrees with a stable insertion sort. *)
Fixpoint insert_by_time (it : Item) (l : list Item) : list Item :=
  match l with
  | [] => [it]
  | x :: r =>
      if item_time it <=? item_time x then it :: l
      else x :: insert_by_time it r
  end.

Definition sorted_by_time (l : list Item) : list Item :=
  fold_right insert_by_time [] l.

(** [LRUCache._resizeTo] *)
Definition _resizeTo (c : LRUCache) : LRUCache :=
  let ordered := py_slice_to (resizeTo c) (sorted_by_time (_dict c)) in
  mkCache (maxSize c) (resizeTo c) (_counter c)
    (fold_left (fun d i => dict_del (item_key i) d) ordered (_dict c))
    (_nextTime c) (S (passes c)).

(** [LRUCache.__setitem__] *)
Definition __setitem__ (c : LRUCache) (key : K) (value : V) : LRUCache :=
  match dict_get key (_dict c) with
  | None =>
      let c1 := if (__len__ c + 1 >? maxSize c)%Z then _resizeTo c else c in
      mkCache (maxSize c1) (resizeTo c1) (_counter c1)
        (_dict c1 ++ [mkItem key value (_nextTime c1)])
        (S (_nextTime c1)) (passes c1)
  | Some _ =>
      mkCache (maxSize c) (resizeTo c) (_counter c)
        (dict_update key value (_nextTime c) (_dict c))
        (S (_nextTime c)) (passes c)
  end.

(** [LRUCache.keys] *)
Definition keys (c : LRUCache) : list K := map item_key (_dict c).

(** [LRUCache.values] *)
Definition values (c : LRUCache) : list V := map item_value (_dict c).

(** [for k, v in kvs: cache[k] = v] *)
Definition set_all (c : LRUCache) (kvs : list (K * V)) : LRUCache :=
  fold_left (fun c kv => __setitem__ c (fst kv) (snd kv)) kvs c.

(** [LRUCache.__delitem__] *)
Definition __delitem__ (c : LRUCache) (key : K) : LRUCache * result unit :=
  match dict_get key (_dict c) with
  | None => (c, Raise KeyError)
  | Some _ =>
      (mkCache (maxSize c) (resizeTo c) (_counter c)
         (dict_del key (_dict c)) (_nextTime c) (passes c),
       Return tt)
  end.

(** [LRUCache.clear] *)
Definition clear (c : LRUCache) : LRUCache :=
  mkCache (maxSize c) (resizeTo c) (_counter c) [] (_nextTime c) (passes c).

(** What [items] yields beside the key: the value, or the whole entry
    [[key, value, time]]. *)
Inductive Yielded : Type :=
| YieldValue (v : V)
| YieldEntry (it : Item).

(** [LRUCache.items]: the generator, as the list of the pairs it yields.
    With [accessTime] it goes through the entries, [self._dict.values()],
    sorted by their time, and [x[0], x[1]] is the key and the value.
    Without, it goes through [self._dict.items()], whose elements are the
    pairs of a key and its entry, so that [x[0], x[1]] is the key and the
    entry. *)
Definition items (c : LRUCache) (accessTime : bool) : list (K * Yielded) :=
  if accessTime
  then map (fun x => (item_key x, YieldValue (item_value x)))
         (sorted_by_time (_dict c))
  else map (fun x => (item_key x, YieldEntry x)) (_dict c).

(** *** Sequences of operations *)

(** A write [cache[k] = v], a read [cache.get(k)] or a removal
    [del cache[k]] (a removal of a missing key raises and changes
    nothing). *)
Inductive op : Type :=
| Write (k : K) (v : V)
| Read (k : K)
| Delete (k : K).

Definition step (c : LRUCache) (o : op) : LRUCache :=
  match o with
  | Write k v => __setitem__ c k v
  | Read k => fst (get c k None)
  | Delete k => fst (__delitem__ c k)
  end.

Definition run (c : LRUCache) (ops : list op) : LRUCache :=
  fold_left step ops c.

(** The value of the last write under [k] among the operations, if there
    is one. *)
Fixpoint last_write (k : K) (ops : list op) : option V :=
  match ops with
  | [] => None
  | o :: rest =>
      match last_write k rest with
      | Some v => Some v
      | None =>
          match o with
          | Write k' v => if K_eq_dec k k' then Some v else None
          | _ => None
          end
      end
  end.

(** *** Predicates used to state the properties of the cache *)

(** The keys of a dictionary are pairwise distinct. *)
Definition wf (c : LRUCache) : Prop := NoDup (map item_key (_dict c)).

(** Every stored time has been handed out by [_nextTime] already. *)
Definition timely (c : LRUCache) : Prop :=
  forall it, In it (_dict c) -> item_time it < _nextTime c.

(** Sortedness: every element is no younger than those after it. *)
Fixpoint ascending (l : list Item) : Prop :=
  match l with
  | [] => True
  | a :: r => (forall b, In b r -> item_time a <= item_time b) /\ ascending r
  end.

(** Every stored value is related to its key by [P]. *)
Definition stored (P : K -> V -> Prop) (c : LRUCache) : Prop :=
  forall it, In it (_dict c) -> P (item_key it) (item_value it).

(** The items that the loop of [_resizeTo] deletes when it runs over
    [ordered]. *)
Definition evicted (ordered : list Item) (it : Item) : bool :=
  existsb (fun i => has_key (item_key i) it) ordered.

End Cache.

End LRU.

(** * GraphicsItem: device transform and pixel vectors *)

Module Geometry.

Local Open Scope R_scope.

(** ** The Qt value classes used by the code

    [QPointF] (and pyqtgraph's [Point], a subclass of it), [QLineF] and
    [QTransform] belong to the Qt backend.  They are given here with the
    arithmetic that Qt documents for them. *)

Record QPointF : Type := mkPoint { x : R; y : R }.

Record QLineF : Type := mkLine { p1 : QPointF; p2 : QPointF }.

Record QTransform : Type := mkTransform {
  m11 : R; m12 : R; m13 : R;
  m21 : R; m22 : R; m23 : R;
  m31 : R; m32 : R; m33 : R
}.

(** [QPointF.manhattanLength] *)
Definition manhattanLength (p : QPointF) : R := Rabs (x p) + Rabs (y p).

(** [Point.length] *)
Definition point_length (p : QPointF) : R := sqrt (x p * x p + y p * y p).

Definition dx (l : QLineF) : R := x (p2 l) - x (p1 l).
Definition dy (l : QLineF) : R := y (p2 l) - y (p1 l).

(** [QLineF.length] *)
Definition line_length (l : QLineF) : R := sqrt (dx l * dx l + dy l * dy l).

(** [QLineF.unitVector] *)
Definition unitVector (l : QLineF) : QLineF :=
  mkLine (p1 l)
    (mkPoint (x (p1 l) + dx l / line_length l)
             (y (p1 l) + dy l / line_length l)).

(** [QLineF.normalVector] *)
Definition normalVector (l : QLineF) : QLineF :=
  mkLine (p1 l) (mkPoint (x (p1 l) + dy l) (y (p1 l) - dx l)).

(** [QTransform.determinant] *)
Definition determinant (t : QTransform) : R :=
  m11 t * (m33 t * m22 t - m32 t * m23 t)
  - m21 t * (m33 t * m12 t - m32 t * m13 t)
  + m31 t * (m23 t * m12 t - m22 t * m13 t).

(** [QTransform.__mul__] *)
Definition mul (a b : QTransform) : QTransform :=
  mkTransform
    (m11 a * m11 b + m12 a * m21 b + m13 a * m31 b)
    (m11 a * m12 b + m12 a * m22 b + m13 a * m32 b)
    (m11 a * m13 b + m12 a * m23 b + m13 a * m33 b)
    (m21 a * m11 b + m22 a * m21 b + m23 a * m31 b)
    (m21 a * m12 b + m22 a * m22 b + m23 a * m32 b)
    (m21 a * m13 b + m22 a * m23 b + m23 a * m33 b)
    (m31 a * m11 b + m32 a * m21 b + m33 a * m31 b)
    (m31 a * m12 b + m32 a * m22 b + m33 a * m32 b)
    (m31 a * m13 b + m32 a * m23 b + m33 a * m33 b).

(** [QTransform(m11, m12, m21, m22, dx, dy)] *)
Definition affine (a b c d tx ty : R) : QTransform :=
  mkTransform a b 0 c d 0 tx ty 1.

(** [QTransform.map(QPointF)]; for an affine transform the divisor is 1. *)
Definition map_point (t : QTransform) (p : QPointF) : QPointF :=
  let w := m13 t * x p + m23 t * y p + m33 t in
  mkPoint ((m11 t * x p + m21 t * y p + m31 t) / w)
          ((m12 t * x p + m22 t * y p + m32 t) / w).

(** [QTransform.map(QLineF)] *)
Definition map_line (t : QTransform) (l : QLineF) : QLineF :=
  mkLine (map_point t (p1 l)) (map_point t (p2 l)).

(** Modelled from the spec: [functions.invertQTransform] is not among the
    sources.  The spec describes it as the inverse of the transform; it is
    the matrix inverse (adjugate over determinant) and raises when the
    matrix has none. *)
Definition invertQTransform (t : QTransform) : result QTransform :=
  let d := determinant t in
  if Req_dec_T d 0 then Raise PyException
  else Return (mkTransform
    ((m22 t * m33 t - m23 t * m32 t) / d)
    ((m13 t * m32 t - m12 t * m33 t) / d)
    ((m12 t * m23 t - m13 t * m22 t) / d)
    ((m23 t * m31 t - m21 t * m33 t) / d)
    ((m11 t * m33 t - m13 t * m31 t) / d)
    ((m13 t * m21 t - m11 t * m23 t) / d)
    ((m21 t * m32 t - m22 t * m31 t) / d)
    ((m12 t * m31 t - m11 t * m32 t) / d)
    ((m11 t * m22 t - m12 t * m21 t) / d)).

(** ** The item *)

(** A view widget as [getViewWidget] sees it: the target of the weak
    reference may be gone ([referent_gone]) or deleted by Qt
    ([isQObjectAlive] false). *)
Record View : Type := mkView {
  referent_gone : bool;
  isQObjectAlive : bool;
  viewportTransform : QTransform
}.

(** [_exportOpts] when it is a dict. *)
Record ExportOpts : Type := mkExportOpts {
  has_painter : bool;                 (* 'painter' in self._exportOpts *)
  resolutionScale : option R          (* self._exportOpts.get('resolutionScale') *)
}.

(** The key of the pixel-vector caches:
    [(dt.m11(), dt.m21(), dt.m12(), dt.m22(), direction.x(), direction.y())] *)
Definition Key : Type := (R * R * R * R * R * R)%type.

(** A pair of pixel vectors. *)
Definition PV : Type := (QPointF * QPointF)%type.

(** What slot 0 of [_pixelVectorCache] can hold. *)
Inductive Slot0 : Type :=
| SlotNone
| SlotKey (k : Key)
| SlotTransform (t : QTransform).

Record GraphicsItem : Type := mkGraphicsItem {
  _exportOpts : option ExportOpts;         (* None is [False] *)
  _viewWidget : option View;               (* the cached weak reference *)
  scene_views : option (list View);        (* None: [self.scene()] is None *)
  transform : QTransform;                  (* [self.transform()] *)
  base_sceneTransform : QTransform;        (* [_qtBaseClass.sceneTransform(self)] *)
  _pixelVectorCache : Slot0 * option PV
}.

Definition set_viewWidget (it : GraphicsItem) (v : option View) : GraphicsItem :=
  mkGraphicsItem (_exportOpts it) v (scene_views it) (transform it)
    (base_sceneTransform it) (_pixelVectorCache it).

Definition set_pixelVectorCache (it : GraphicsItem) (c : Slot0 * option PV)
  : GraphicsItem :=
  mkGraphicsItem (_exportOpts it) (_viewWidget it) (scene_views it)
    (transform it) (base_sceneTransform it) c.

(** [GraphicsItem.setExportMode] *)
Definition setExportMode (it : GraphicsItem) (export : bool)
    (opts : option ExportOpts) : GraphicsItem :=
  let opts := match opts with
              | None => mkExportOpts false None
              | Some o => o
              end in
  mkGraphicsItem (if export then Some opts else None) (_viewWidget it)
    (scene_views it) (transform it) (base_sceneTransform it)
    (_pixelVectorCache it).

(** The value of a weak reference to a view, and the liveness test. *)
Definition deref_view (v : View) : option View :=
  if referent_gone v then None
  else if isQObjectAlive v then Some v else None.

(** [GraphicsItem.getViewWidget] *)
Definition getViewWidget (it : GraphicsItem) : GraphicsItem * option View :=
  match _viewWidget it with
  | Some v => (it, deref_view v)
  | None =>
      match scene_views it with
      | None => (it, None)
      | Some [] => (it, None)
      | Some (v :: _) => (set_viewWidget it (Some v), deref_view v)
      end
  end.

(** [GraphicsItem.sceneTransform] *)
Definition sceneTransform (it : GraphicsItem) : QTransform :=
  match scene_views it with
  | None => transform it
  | Some _ => base_sceneTransform it
  end.

(** [_qtBaseClass.deviceTransform(self, viewportTransform)]: Qt composes
    the item's scene transform with the viewport transform. *)
Definition base_deviceTransform (it : GraphicsItem) (vt : QTransform)
  : QTransform :=
  mul (base_sceneTransform it) vt.

(** [self._exportOpts is not False and 'painter' in self._exportOpts]: the
    export options when that holds. *)
Definition painter_opts (it : GraphicsItem) : option ExportOpts :=
  match _exportOpts it with
  | Some o => if has_painter o then Some o else None
  | None => None
  end.

(** [GraphicsItem.deviceTransform] *)
Definition deviceTransform (it : GraphicsItem) (viewportTransform0 : option QTransform)
  : GraphicsItem * option QTransform :=
  match painter_opts it with
  | Some o =>
      let scaler := match resolutionScale o with Some r => r | None => 1 end in
      (it, Some (mul (sceneTransform it) (affine scaler 0 0 scaler 1 1)))
  | None =>
      let '(it1, vt) :=
        match viewportTransform0 with
        | Some vt => (it, Some vt)
        | None =>
            match getViewWidget it with
            | (it1, None) => (it1, None)
            | (it1, Some view) => (it1, Some (viewportTransform view))
            end
        end in
      match vt with
      | None => (it1, None)
      | Some vt =>
          let dt := base_deviceTransform it1 vt in
          if Req_dec_T (determinant dt) 0 then (it1, None) else (it1, Some dt)
      end
  end.

(** [dt.setMatrix(dt.m11(), dt.m12(), 0, dt.m21(), dt.m22(), 0, 0, 0, 1)] *)
Definition strip_translation (dt : QTransform) : QTransform :=
  mkTransform (m11 dt) (m12 dt) 0 (m21 dt) (m22 dt) 0 0 0 1.

Definition make_key (dt : QTransform) (direction : QPointF) : Key :=
  (m11 dt, m21 dt, m12 dt, m22 dt, x direction, y direction).

Definition Key_eq_dec : forall a b : Key, {a = b} + {a <> b}.
Proof.
  intros a b. repeat decide equality; apply Req_dec_T.
Defined.

(** [key == self._pixelVectorCache[0]]: a tuple equals neither [None] nor
    a [QTransform]. *)
Definition key_matches (key : Key) (s : Slot0) : bool :=
  match s with
  | SlotKey k => if Key_eq_dec key k then true else false
  | SlotNone | SlotTransform _ => false
  end.

(** The state that [pixelVectors] reads and writes: the item and the
    class attribute [_pixelVectorGlobalCache]. *)
Definition GlobalCache : Type := LRU.LRUCache Key PV.

(** Which path of [pixelVectors] produced the result (ghost). *)
Inductive Served : Type :=
| NoTransform        (* deviceTransform() is None *)
| BadDirection       (* the zero-length direction, raised *)
| LocalHit
| GlobalHit
| ZeroLength         (* the mapped direction has length 0 *)
| Computed
| Failed.            (* another exception *)

Definition PVResult : Type := result (option QPointF * option QPointF).

Definition some_pair (pv : PV) : PVResult :=
  Return (Some (fst pv), Some (snd pv)).

(** [GraphicsItem.pixelVectors], with the path taken. *)
Definition pixelVectors_traced (it : GraphicsItem) (g : GlobalCache)
    (direction : option QPointF)
  : GraphicsItem * GlobalCache * PVResult * Served :=
  match deviceTransform it None with
  | (it1, None) => (it1, g, Return (None, None), NoTransform)
  | (it1, Some dt) =>
      let dt := strip_translation dt in
      let bad := match direction with
                 | None => false
                 | Some d => if Req_dec_T (manhattanLength d) 0 then true else false
                 end in
      if bad then (it1, g, Raise PyException, BadDirection)
      else
        let direction := match direction with
                         | None => mkPoint 1 0
                         | Some d => d
                         end in
        let key := make_key dt direction in
        if key_matches key (fst (_pixelVectorCache it1)) then
          match snd (_pixelVectorCache it1) with
          | Some pv => (it1, g, some_pair pv, LocalHit)
          | None => (it1, g, Raise TypeError, Failed)
          end
        else
          match LRU.get Key_eq_dec g key None with
          | (g1, Some pv) =>
              (set_pixelVectorCache it1 (SlotKey key, Some pv), g1,
               some_pair pv, GlobalHit)
          | (g1, None) =>
              let directionr := direction in
              let dirLine := mkLine (mkPoint 0 0) directionr in
              let viewDir := map_line dt dirLine in
              if Req_dec_T (line_length viewDir) 0
              then (it1, g1, Return (None, None), ZeroLength)
              else
                let normView := unitVector viewDir in
                let normOrtho := normalVector normView in
                match invertQTransform dt with
                | Raise e => (it1, g1, Raise e, Failed)
                | Return dti =>
                    let pv := (p2 (map_line dti normView),
                               p2 (map_line dti normOrtho)) in
                    (set_pixelVectorCache it1 (SlotTransform dt, Some pv),
                     LRU.__setitem__ Key_eq_dec g1 key pv,
                     some_pair pv, Computed)
                end
          end
  end.

(** [GraphicsItem.pixelVectors] *)
Definition pixelVectors (it : GraphicsItem) (g : GlobalCache)
    (direction : option QPointF) : GraphicsItem * GlobalCache * PVResult :=
  fst (pixelVectors_traced it g direction).

(** An affine transform: the last column is (0, 0, 1). *)
Definition is_affine (t : QTransform) : Prop :=
  m13 t = 0 /\ m23 t = 0 /\ m33 t = 1.

(** The item's scene transform and the viewport transform of its view are
    affine. *)
Definition affine_setting (it : GraphicsItem) : Prop :=
  is_affine (base_sceneTransform it)
  /\ forall v, snd (getViewWidget it) = Some v -> is_affine (viewportTransform v).

(** When slot 0 of the per-item cache holds a key, slot 1 holds a value. *)
Definition cache_ok (it : GraphicsItem) : Prop :=
  forall k, fst (_pixelVectorCache it) = SlotKey k ->
            snd (_pixelVectorCache it) <> None.

(** [GraphicsItem.pixelLength] *)
Definition pixelLength (it : GraphicsItem) (g : GlobalCache)
    (direction : option QPointF) (ortho : bool)
  : GraphicsItem * GlobalCache * result (option R) :=
  match pixelVectors it g direction with
  | (it1, g1, Raise e) => (it1, g1, Raise e)
  | (it1, g1, Return (Some normV, Some orthoV)) =>
      (it1, g1, Return (Some (if ortho then point_length orthoV
                              else point_length normV)))
  | (it1, g1, Return _) => (it1, g1, Return None)
  end.

(** [GraphicsItem.mapToDevice], for a point. *)
Definition mapToDevice (it : GraphicsItem) (obj : QPointF)
  : GraphicsItem * option QPointF :=
  match deviceTransform it None with
  | (it1, None) => (it1, None)
  | (it1, Some vt) => (it1, Some (map_point vt obj))
  end.

(** [GraphicsItem.mapFromDevice], for a point. *)
Definition mapFromDevice (it : GraphicsItem) (obj : QPointF)
  : GraphicsItem * result (option QPointF) :=
  match deviceTransform it None with
  | (it1, None) => (it1, Return None)
  | (it1, Some vt) =>
      match invertQTransform vt with
      | Raise e => (it1, Raise e)
      | Return vti => (it1, Return (Some (map_point vti obj)))
      end
  end.

(** The key of [_mapRectFromViewGlobalCache]: the nine entries of the
    view transform. *)
Definition RectKey : Type := (R * R * R * R * R * R * R * R * R)%type.

Definition rect_key (vt : QTransform) : RectKey :=
  (m11 vt, m12 vt, m13 vt, m21 vt, m22 vt, m23 vt, m31 vt, m32 vt, m33 vt).

Definition RectKey_eq_dec : forall a b : RectKey, {a = b} + {a <> b}.
Proof.
  intros a b. repeat decide equality; apply Req_dec_T.
Defined.

Definition RectCache : Type := LRU.LRUCache RectKey QTransform.

(** [GraphicsItem.mapRectFromView].  [vt] is what [self.viewTransform()]
    returns and [mapRect] is [QTransform.mapRect]; the state is the class
    attribute [_mapRectFromViewGlobalCache]. *)
Definition mapRectFromView (Rect : Type) (mapRect : QTransform -> Rect -> Rect)
    (vt : option QTransform) (cache : RectCache) (obj : Rect)
  : RectCache * result (option Rect) :=
  match vt with
  | None => (cache, Return None)
  | Some vt =>
      let k := rect_key vt in
      match LRU.__getitem__ RectKey_eq_dec cache k with
      | (cache1, Return inv_vt) => (cache1, Return (Some (mapRect inv_vt obj)))
      | (cache1, Raise KeyError) =>
          match invertQTransform vt with
          | Raise e => (cache1, Raise e)
          | Return inv_vt =>
              (LRU.__setitem__ RectKey_eq_dec cache1 k inv_vt,
               Return (Some (mapRect inv_vt obj)))
          end
      | (cache1, Raise e) => (cache1, Raise e)
      end
  end.

End Geometry.

(** * GraphicsScene: the mouse-event dispatcher *)

Module Scene.

Import Geometry.

(** ** A state monad whose state survives an exception

    A Python method mutates [self] and may raise; what it changed before
    raising stays changed. *)

Section Monad.

Variable St : Type.

Definition M (A : Type) : Type := St -> St * result A.

Definition ret {A} (a : A) : M A := fun s => (s, Return a).

Definition bind {A B} (c : M A) (k : A -> M B) : M B :=
  fun s =>
    match c s with
    | (s1, Return a) => k a s1
    | (s1, Raise e) => (s1, Raise e)
    end.

Definition raise {A} (e : exn) : M A := fun s => (s, Raise e).

Definition gets {A} (f : St -> A) : M A := fun s => (s, Return (f s)).

Definition modify (f : St -> St) : M unit := fun s => (f s, Return tt).

(** [try: c except: h] with a bare [except]. *)
Definition try_except {A} (c : M A) (h : M A) : M A :=
  fun s =>
    match c s with
    | (s1, Return a) => (s1, Return a)
    | (s1, Raise _) => h s1
    end.

End Monad.

Arguments ret {St A} a.
Arguments raise {St A} e.

Declare Scope scene_scope.
Delimit Scope scene_scope with scene.

Notation "x <- c ;; k" := (bind c (fun x => k))
  (at level 100, c at next level, right associativity) : scene_scope.
Notation "c ;;; k" := (bind c (fun _ => k))
  (at level 100, right associativity) : scene_scope.

(** ** Qt events and the event classes of [mouseEvents] *)

Inductive MouseButton : Type :=
| NoButton | LeftButton | RightButton | MiddleButton | BackButton | ForwardButton.

Definition MouseButton_eq_dec : forall a b : MouseButton, {a = b} + {a <> b}.
Proof. decide equality. Defined.

Definition button_eqb (a b : MouseButton) : bool :=
  if MouseButton_eq_dec a b then true else false.

Definition button_in (b : MouseButton) (l : list MouseButton) : bool :=
  existsb (button_eqb b) l.

Inductive EventType : Type :=
| GraphicsSceneMousePress
| GraphicsSceneMouseMove
| GraphicsSceneMouseRelease
| GraphicsSceneMouseDoubleClick
| Leave.

(** The event that Qt hands to the scene.  [ev_buttons] is the set of
    buttons held, [ev_grabbed] tells whether [mouseGrabberItem()] is not
    [None] once [QGraphicsScene] has dispatched the event itself. *)
Record QEvent : Type := mkQEvent {
  ev_type : EventType;
  ev_scenePos : QPointF;
  ev_button : MouseButton;
  ev_buttons : list MouseButton;
  ev_buttonDownScenePos : MouseButton -> QPointF;
  ev_grabbed : bool
}.

(** What a handler reads of the event it is given. *)
Record HoverInfo : Type := mkHoverInfo {
  hi_enter : bool;
  hi_exit : bool;
  hi_acceptable : bool;
  hi_scenePos : option QPointF;
  hi_clickClaimed : MouseButton -> bool;
  hi_dragClaimed : MouseButton -> bool
}.

Record ClickInfo : Type := mkClickInfo {
  ci_button : MouseButton;
  ci_scenePos : QPointF;
  ci_time : R;
  ci_double : bool;
  ci_accepted : bool
}.

Record DragInfo : Type := mkDragInfo {
  di_button : MouseButton;
  di_scenePos : QPointF;
  di_lastScenePos : QPointF;
  di_buttonDownScenePos : QPointF;
  di_start : bool;
  di_finish : bool;
  di_accepted : bool
}.

(** What a hover handler may ask of the event. *)
Inductive HoverRequest : Type :=
| AcceptClicks (b : MouseButton)
| AcceptDrags (b : MouseButton).

(** What a handler does: the value it leaves on the event, and whether it
    ends by raising. *)
Record Reply (A : Type) : Type := mkReply {
  reply_value : A;
  reply_raises : bool
}.

(** ** Python objects returned by [getContextMenus] *)

Inductive PyObj : Type :=
| PyNone
| PyQMenu (title : nat)
| PyQAction (text : nat)
| PyList (l : list PyObj)
| PyOther (truthy : bool).       (* any other object, with its truth value *)

(** [bool(obj)] *)
Definition truthy_obj (o : PyObj) : bool :=
  match o with
  | PyNone => false
  | PyQMenu _ | PyQAction _ => true
  | PyList l => negb (Nat.eqb (length l) 0)
  | PyOther b => b
  end.

(** ** Items

    An item carries its chain of ancestors.  A handler field is [None]
    when the item has no attribute of that name ([hasattr] is false).
    [shape] is [item.shape()] composed with [item.mapFromScene]; it is
    [None] when [shape()] returns [None].  An [Item] held by the scene
    stands for the object as it is now; two items are the same object
    when their [item_id] agree. *)
Inductive Item : Type := mkItem {
  item_id : nat;
  parentItem : option Item;
  zValue : Q;
  isVisible : bool;
  isEnabled : bool;
  isFocusable : bool;               (* flags() & ItemIsFocusable *)
  in_scene : bool;                  (* item.scene() is self *)
  shape : option (QPointF -> bool);
  hoverEvent : option (HoverInfo -> Reply (list HoverRequest));
  mouseClickEvent : option (ClickInfo -> Reply bool);
  mouseDragEvent : option (DragInfo -> Reply bool);
  has_MouseDragEvent : bool;        (* hasattr(item, 'MouseDragEvent') *)
  getContextMenus : option PyObj    (* what item.getContextMenus(event) returns *)
}.

Definition same_item (a b : Item) : bool := Nat.eqb (item_id a) (item_id b).

Definition item_in (a : Item) (l : list Item) : bool := existsb (same_item a) l.

(** [list.remove(item)]: drops the first occurrence, [None] stands for
    [ValueError]. *)
Fixpoint list_remove {A} (eqb : A -> A -> bool) (a : A) (l : list A)
  : option (list A) :=
  match l with
  | [] => None
  | b :: r =>
      if eqb a b then Some r
      else match list_remove eqb a r with
           | Some r' => Some (b :: r')
           | None => None
           end
  end.

(** Modelled from the spec: [mouseEvents.HoverEvent] is not among the
    sources.  An item may declare during hover that it will accept a click
    or a drag of a button; the declarations are recorded on the event, and
    the first item to declare for a button keeps it. *)
Record HoverEvent : Type := mkHoverEvent {
  hev_enter : bool;
  hev_exit : bool;
  hev_acceptable : bool;
  hev_scenePos : option QPointF;
  hev_clickItems : list (MouseButton * Item);
  hev_dragItems : list (MouseButton * Item);
  hev_currentItem : option Item
}.

(** Modelled from the spec: [mouseEvents.MouseClickEvent] is not among the
    sources; it records the button, position and time of the press and an
    accepted flag. *)
Record MouseClickEvent : Type := mkClickEvent {
  cev_button : MouseButton;
  cev_scenePos : QPointF;
  cev_time : R;
  cev_double : bool;
  cev_accepted : bool;
  cev_currentItem : option Item
}.

(** Modelled from the spec: [mouseEvents.MouseDragEvent] is not among the
    sources; it carries the start and finish flags, the button of the
    originating click and the position of the previous drag event. *)
Record MouseDragEvent : Type := mkDragEvent {
  dev_button : MouseButton;
  dev_scenePos : QPointF;
  dev_lastScenePos : QPointF;
  dev_buttonDownScenePos : QPointF;
  dev_start : bool;
  dev_finish : bool;
  dev_accepted : bool;
  dev_currentItem : option Item
}.

(** [dict.get(button, None)] *)
Fixpoint dict_get (b : MouseButton) (d : list (MouseButton * Item))
  : option Item :=
  match d with
  | [] => None
  | (b', it) :: r => if button_eqb b b' then Some it else dict_get b r
  end.

Definition clickItems (e : HoverEvent) := hev_clickItems e.
Definition dragItems (e : HoverEvent) := hev_dragItems e.

(** [HoverEvent(moveEvent, acceptable)]; [moveEvent] is [None] on exit. *)
Definition new_HoverEvent (ev : option QEvent) (acceptable : bool) : HoverEvent :=
  mkHoverEvent false false acceptable
    (match ev with Some e => Some (ev_scenePos e) | None => None end)
    [] [] None.

(** [event.acceptClicks(button)] and [event.acceptDrags(button)] called by
    the current item. *)
Definition acceptClicks (e : HoverEvent) (b : MouseButton) : HoverEvent :=
  match hev_currentItem e, dict_get b (hev_clickItems e) with
  | Some it, None =>
      if hev_acceptable e then
        mkHoverEvent (hev_enter e) (hev_exit e) (hev_acceptable e)
          (hev_scenePos e) (hev_clickItems e ++ [(b, it)]) (hev_dragItems e)
          (hev_currentItem e)
      else e
  | _, _ => e
  end.

Definition acceptDrags (e : HoverEvent) (b : MouseButton) : HoverEvent :=
  match hev_currentItem e, dict_get b (hev_dragItems e) with
  | Some it, None =>
      if hev_acceptable e then
        mkHoverEvent (hev_enter e) (hev_exit e) (hev_acceptable e)
          (hev_scenePos e) (hev_clickItems e) (hev_dragItems e ++ [(b, it)])
          (hev_currentItem e)
      else e
  | _, _ => e
  end.

Definition apply_request (e : HoverEvent) (r : HoverRequest) : HoverEvent :=
  match r with
  | AcceptClicks b => acceptClicks e b
  | AcceptDrags b => acceptDrags e b
  end.

Definition hover_info (e : HoverEvent) : HoverInfo :=
  mkHoverInfo (hev_enter e) (hev_exit e) (hev_acceptable e) (hev_scenePos e)
    (fun b => match dict_get b (hev_clickItems e) with Some _ => true | None => false end)
    (fun b => match dict_get b (hev_dragItems e) with Some _ => true | None => false end).

Definition set_hover_flags (e : HoverEvent) (enter exit : bool)
    (cur : option Item) : HoverEvent :=
  mkHoverEvent enter exit (hev_acceptable e) (hev_scenePos e)
    (hev_clickItems e) (hev_dragItems e) cur.

(** [MouseClickEvent(pressEvent, double)], created at time [now]. *)
Definition new_MouseClickEvent (ev : QEvent) (double : bool) (now : R)
  : MouseClickEvent :=
  mkClickEvent (ev_button ev) (ev_scenePos ev) now double false None.

Definition click_info (e : MouseClickEvent) : ClickInfo :=
  mkClickInfo (cev_button e) (cev_scenePos e) (cev_time e) (cev_double e)
    (cev_accepted e).

Definition set_click (e : MouseClickEvent) (accepted : bool) (cur : option Item)
  : MouseClickEvent :=
  mkClickEvent (cev_button e) (cev_scenePos e) (cev_time e) (cev_double e)
    accepted cur.

(** [MouseDragEvent(moveEvent, pressEvent, lastEvent, start, finish)] *)
Definition new_MouseDragEvent (ev : QEvent) (pressEvent : MouseClickEvent)
    (lastEvent : option MouseDragEvent) (start finish : bool) : MouseDragEvent :=
  mkDragEvent (cev_button pressEvent) (ev_scenePos ev)
    (match lastEvent with
     | None => cev_scenePos pressEvent
     | Some l => dev_scenePos l
     end)
    (ev_buttonDownScenePos ev (cev_button pressEvent))
    start finish false None.

Definition drag_info (e : MouseDragEvent) : DragInfo :=
  mkDragInfo (dev_button e) (dev_scenePos e) (dev_lastScenePos e)
    (dev_buttonDownScenePos e) (dev_start e) (dev_finish e) (dev_accepted e).

Definition set_drag (e : MouseDragEvent) (accepted : bool) (cur : option Item)
  : MouseDragEvent :=
  mkDragEvent (dev_button e) (dev_scenePos e) (dev_lastScenePos e)
    (dev_buttonDownScenePos e) (dev_start e) (dev_finish e) accepted cur.

(** ** Menus *)

Inductive MenuEntry : Type :=
| Separator
| SubMenu (title : nat)
| Action (text : nat).

(** A [QMenu] is the list of its entries, in the order in which they were
    added. *)
Definition QMenu : Type := list MenuEntry.

(** ** The scene *)

(** What the dispatcher lets the outside see (ghost): every call of an
    item's handler, every signal, every line printed. *)
Inductive Notification : Type :=
| HoverNote (item : nat) (enter exit : bool)
| ClickNote (item : nat) (button : MouseButton)
| DragNote (item : nat) (button : MouseButton) (start finish : bool)
| MouseMovedSignal
| MouseHoverSignal (items : list nat)
| MouseClickedSignal (button : MouseButton)
| Printed.                         (* print("Error sending drag event:") *)

(** The attributes of [GraphicsScene] set by [__init__], and what the
    scene asks of [QGraphicsScene]: whether [views()] is non-empty, the
    items that [QGraphicsScene.items] reports at a point, and the item
    that holds the keyboard focus. *)
Record GraphicsScene : Type := mkScene {
  _clickRadius : R;
  _moveDistance : R;
  minDragTime : R;
  clickEvents : list MouseClickEvent;
  dragButtons : list MouseButton;
  dragItem : option Item;
  lastDrag : option MouseDragEvent;
  hoverItems : list Item;
  lastHoverEvent : option HoverEvent;
  contextMenu : list PyObj;
  contextMenuItem : option nat;
  has_views : bool;
  qt_items : QPointF -> list Item;
  focusItem : option nat;
  log : list Notification
}.

(** [GraphicsScene.__init__] over the Qt scene [qt]. *)
Definition __init__ (clickRadius moveDistance : R) (views : bool)
    (qt : QPointF -> list Item) : GraphicsScene :=
  mkScene clickRadius moveDistance (1 / 2)%R [] [] None None [] None [] None
    views qt None [].

Definition set_clickEvents (v : list MouseClickEvent) (s : GraphicsScene) :=
  mkScene (_clickRadius s) (_moveDistance s) (minDragTime s) v (dragButtons s)
    (dragItem s) (lastDrag s) (hoverItems s) (lastHoverEvent s) (contextMenu s)
    (contextMenuItem s) (has_views s) (qt_items s) (focusItem s) (log s).

Definition set_dragButtons (v : list MouseButton) (s : GraphicsScene) :=
  mkScene (_clickRadius s) (_moveDistance s) (minDragTime s) (clickEvents s) v
    (dragItem s) (lastDrag s) (hoverItems s) (lastHoverEvent s) (contextMenu s)
    (contextMenuItem s) (has_views s) (qt_items s) (focusItem s) (log s).

Definition set_dragItem (v : option Item) (s : GraphicsScene) :=
  mkScene (_clickRadius s) (_moveDistance s) (minDragTime s) (clickEvents s)
    (dragButtons s) v (lastDrag s) (hoverItems s) (lastHoverEvent s)
    (contextMenu s) (contextMenuItem s) (has_views s) (qt_items s)
    (focusItem s) (log s).

Definition set_lastDrag (v : option MouseDragEvent) (s : GraphicsScene) :=
  mkScene (_clickRadius s) (_moveDistance s) (minDragTime s) (clickEvents s)
    (dragButtons s) (dragItem s) v (hoverItems s) (lastHoverEvent s)
    (contextMenu s) (contextMenuItem s) (has_views s) (qt_items s)
    (focusItem s) (log s).

Definition set_hoverItems (v : list Item) (s : GraphicsScene) :=
  mkScene (_clickRadius s) (_moveDistance s) (minDragTime s) (clickEvents s)
    (dragButtons s) (dragItem s) (lastDrag s) v (lastHoverEvent s)
    (contextMenu s) (contextMenuItem s) (has_views s) (qt_items s)
    (focusItem s) (log s).

Definition set_lastHoverEvent (v : option HoverEvent) (s : GraphicsScene) :=
  mkScene (_clickRadius s) (_moveDistance s) (minDragTime s) (clickEvents s)
    (dragButtons s) (dragItem s) (lastDrag s) (hoverItems s) v
    (contextMenu s) (contextMenuItem s) (has_views s) (qt_items s)
    (focusItem s) (log s).

Definition set_contextMenuItem (v : option nat) (s : GraphicsScene) :=
  mkScene (_clickRadius s) (_moveDistance s) (minDragTime s) (clickEvents s)
    (dragButtons s) (dragItem s) (lastDrag s) (hoverItems s) (lastHoverEvent s)
    (contextMenu s) v (has_views s) (qt_items s) (focusItem s) (log s).

Definition set_focusItem (v : option nat) (s : GraphicsScene) :=
  mkScene (_clickRadius s) (_moveDistance s) (minDragTime s) (clickEvents s)
    (dragButtons s) (dragItem s) (lastDrag s) (hoverItems s) (lastHoverEvent s)
    (contextMenu s) (contextMenuItem s) (has_views s) (qt_items s) v (log s).

Definition set_log (v : list Notification) (s : GraphicsScene) :=
  mkScene (_clickRadius s) (_moveDistance s) (minDragTime s) (clickEvents s)
    (dragButtons s) (dragItem s) (lastDrag s) (hoverItems s) (lastHoverEvent s)
    (contextMenu s) (contextMenuItem s) (has_views s) (qt_items s)
    (focusItem s) v.

Local Open Scope scene_scope.

Definition SM : Type -> Type := M GraphicsScene.

Definition emit (n : Notification) : SM unit :=
  modify (fun s => set_log (log s ++ [n]) s).

(** [item.setFocus(MouseFocusReason)] *)
Definition setFocus (item : Item) : SM unit :=
  modify (set_focusItem (Some (item_id item))).

(** [GraphicsScene.setClickRadius] and [GraphicsScene.setMoveDistance] *)
Definition setClickRadius (r : R) (s : GraphicsScene) : GraphicsScene :=
  mkScene r (_moveDistance s) (minDragTime s) (clickEvents s)
    (dragButtons s) (dragItem s) (lastDrag s) (hoverItems s) (lastHoverEvent s)
    (contextMenu s) (contextMenuItem s) (has_views s) (qt_items s)
    (focusItem s) (log s).

Definition setMoveDistance (d : R) (s : GraphicsScene) : GraphicsScene :=
  mkScene (_clickRadius s) d (minDragTime s) (clickEvents s)
    (dragButtons s) (dragItem s) (lastDrag s) (hoverItems s) (lastHoverEvent s)
    (contextMenu s) (contextMenuItem s) (has_views s) (qt_items s)
    (focusItem s) (log s).

(** *** itemsNearEvent *)

(** [absZValue] *)
Fixpoint absZValue (item : Item) : Q :=
  match item with
  | mkItem _ parent z _ _ _ _ _ _ _ _ _ _ =>
      (z + match parent with
           | None => 0
           | Some p => absZValue p
           end)%Q
  end.

(** [items2.sort(key=absZValue, reverse=True)]: stable, descending. *)
Fixpoint insert_by_z (it : Item) (l : list Item) : list Item :=
  match l with
  | [] => [it]
  | a :: r =>
      if Qle_bool (absZValue a) (absZValue it) then it :: l
      else a :: insert_by_z it r
  end.

Definition sort_by_z (l : list Item) : list Item :=
  fold_right insert_by_z [] l.

(** The filter of [itemsNearEvent]: hoverable, in this scene, with a
    shape that contains the point. *)
Definition near_keep (point : QPointF) (hoverable : bool) (item : Item) : bool :=
  if hoverable && negb (match hoverEvent item with Some _ => true | None => false end)
  then false
  else if negb (in_scene item) then false
  else match shape item with
       | None => false
       | Some contains => contains point
       end.

(** [GraphicsScene.itemsNearEvent]; [point] is
    [event.buttonDownScenePos()] when the event has that attribute (a drag
    event) and [event.scenePos()] otherwise. *)
Definition itemsNearEvent (point : QPointF) (hoverable : bool) : SM (list Item) :=
  views <- gets has_views ;;
  if negb views then raise IndexError
  else
    items <- gets (fun s => qt_items s point) ;;
    ret (sort_by_z (filter (near_keep point hoverable) items)).

(** *** Calling the handlers

    A call logs the delivery, lets the handler act on the event, and
    reports the event as the handler left it together with the exception
    it raised, if any.  What happens to the exception is decided where the
    call is made. *)

Definition deliver_hover (item : Item) (event : HoverEvent)
  : SM (HoverEvent * option exn) :=
  match hoverEvent item with
  | None => ret (event, Some AttributeError)
  | Some handler =>
      emit (HoverNote (item_id item) (hev_enter event) (hev_exit event)) ;;;
      let r := handler (hover_info event) in
      ret (fold_left apply_request (reply_value r) event,
           if reply_raises r then Some HandlerError else None)
  end.

Definition deliver_click (item : Item) (ev : MouseClickEvent)
  : SM (MouseClickEvent * option exn) :=
  match mouseClickEvent item with
  | None => ret (ev, Some AttributeError)
  | Some handler =>
      emit (ClickNote (item_id item) (cev_button ev)) ;;;
      let r := handler (click_info ev) in
      ret (set_click ev (reply_value r) (cev_currentItem ev),
           if reply_raises r then Some HandlerError else None)
  end.

Definition deliver_drag (item : Item) (event : MouseDragEvent)
  : SM (MouseDragEvent * option exn) :=
  match mouseDragEvent item with
  | None => ret (event, Some AttributeError)
  | Some handler =>
      emit (DragNote (item_id item) (dev_button event) (dev_start event)
              (dev_finish event)) ;;;
      let r := handler (drag_info event) in
      ret (set_drag event (reply_value r) (dev_currentItem event),
           if reply_raises r then Some HandlerError else None)
  end.

(** A call outside any [try]: the exception leaves the method. *)
Definition propagate {A} (c : SM (A * option exn)) : SM A :=
  r <- c ;;
  match snd r with
  | Some e => raise e
  | None => ret (fst r)
  end.

(** [try: call except: print("Error sending drag event:")] *)
Definition try_print {A} (c : SM (A * option exn)) : SM A :=
  r <- c ;;
  match snd r with
  | Some _ => emit Printed ;;; ret (fst r)
  | None => ret (fst r)
  end.

(** *** sendHoverEvents *)

(** [del self.hoverItems[item]] *)
Definition del_hoverItem (item : Item) (s : GraphicsScene) : GraphicsScene :=
  set_hoverItems (filter (fun i => negb (same_item item i)) (hoverItems s)) s.

(** The first loop of [sendHoverEvents]: [for item in items]. *)
Fixpoint hover_candidates (items : list Item) (event : HoverEvent)
    (prevItems : list Item) : SM (HoverEvent * list Item) :=
  match items with
  | [] => ret (event, prevItems)
  | item :: rest =>
      match hoverEvent item with
      | None => hover_candidates rest event prevItems
      | Some _ =>
          hs <- gets hoverItems ;;
          st <- (if item_in item hs then
                   match list_remove same_item item prevItems with
                   | Some prev' =>
                       ret (set_hover_flags event false (hev_exit event)
                              (Some item), prev')
                   | None => raise ValueError
                   end
                 else
                   modify (fun s => set_hoverItems (hoverItems s ++ [item]) s) ;;;
                   ret (set_hover_flags event true (hev_exit event)
                          (Some item), prevItems)) ;;
          event' <- propagate (deliver_hover item (fst st)) ;;
          hover_candidates rest event' (snd st)
      end
  end.

(** The second loop of [sendHoverEvents]: [for item in prevItems]. *)
Fixpoint hover_exits (prevItems : list Item) (event : HoverEvent)
  : SM HoverEvent :=
  match prevItems with
  | [] => ret event
  | item :: rest =>
      let event := set_hover_flags event (hev_enter event) (hev_exit event)
                     (Some item) in
      event' <- (if in_scene item then propagate (deliver_hover item event)
                 else ret event) ;;
      modify (del_hoverItem item) ;;;
      hover_exits rest event'
  end.

Definition no_buttons (ev : QEvent) : bool :=
  match ev_buttons ev with [] => true | _ :: _ => false end.

(** [GraphicsScene.sendHoverEvents] *)
Definition sendHoverEvents (ev : QEvent) (exitOnly : bool) : SM unit :=
  st <- (if exitOnly then ret (new_HoverEvent None false, [])
         else
           let acceptable := no_buttons ev in
           let event := new_HoverEvent (Some ev) acceptable in
           items <- itemsNearEvent (ev_scenePos ev) true ;;
           emit (MouseHoverSignal (map item_id items)) ;;;
           ret (event, items)) ;;
  prevItems <- gets hoverItems ;;
  r <- hover_candidates (snd st) (fst st) prevItems ;;
  let event := set_hover_flags (fst r) false true (hev_currentItem (fst r)) in
  event <- hover_exits (snd r) event ;;
  match ev_type ev with
  | GraphicsSceneMousePress => modify (set_lastHoverEvent (Some event))
  | GraphicsSceneMouseMove =>
      if no_buttons ev then modify (set_lastHoverEvent (Some event))
      else ret tt
  | _ => ret tt
  end.

(** *** sendDragEvent *)

(** The loop [for item in self.itemsNearEvent(event)] of [sendDragEvent]. *)
Fixpoint drag_candidates (items : list Item) (event : MouseDragEvent)
  : SM MouseDragEvent :=
  match items with
  | [] => ret event
  | item :: rest =>
      if negb (isVisible item) || negb (isEnabled item)
      then drag_candidates rest event
      else
        match mouseDragEvent item with
        | None => drag_candidates rest event
        | Some _ =>
            let event := set_drag event (dev_accepted event) (Some item) in
            event <- try_print (deliver_drag item event) ;;
            if dev_accepted event then
              modify (set_dragItem (Some item)) ;;;
              (if isFocusable item then setFocus item else ret tt) ;;;
              ret event
            else drag_candidates rest event
        end
  end.

(** [GraphicsScene.sendDragEvent] *)
Definition sendDragEvent (ev : QEvent) (init final : bool) : SM bool :=
  cevs <- gets clickEvents ;;
  match cevs with
  | [] => raise IndexError
  | pressEvent :: _ =>
      last <- gets lastDrag ;;
      let event := new_MouseDragEvent ev pressEvent last init final in
      current <- gets dragItem ;;
      event <-
        (if init && (match current with None => true | Some _ => false end) then
           lastHover <- gets lastHoverEvent ;;
           let acceptedItem :=
             match lastHover with
             | Some h => dict_get (dev_button event) (dragItems h)
             | None => None
             end in
           let accepted_here :=
             match acceptedItem with
             | Some a => if in_scene a then Some a else None
             | None => None
             end in
           match accepted_here with
           | Some a =>
               modify (set_dragItem (Some a)) ;;;
               try_print (deliver_drag a (set_drag event (dev_accepted event) (Some a)))
           | None =>
               items <- itemsNearEvent (dev_buttonDownScenePos event) false ;;
               drag_candidates items event
           end
         else
           match current with
           | Some d =>
               propagate (deliver_drag d (set_drag event (dev_accepted event) (Some d)))
           | None => ret event
           end) ;;
      modify (set_lastDrag (Some event)) ;;;
      ret (dev_accepted event)
  end.

(** *** sendClickEvent *)

(** The loop [for item in self.itemsNearEvent(ev)] of [sendClickEvent]. *)
Fixpoint click_candidates (items : list Item) (ev : MouseClickEvent)
  : SM MouseClickEvent :=
  match items with
  | [] => ret ev
  | item :: rest =>
      if negb (isVisible item) || negb (isEnabled item)
      then click_candidates rest ev
      else
        match mouseClickEvent item with
        | None => click_candidates rest ev
        | Some _ =>
            let ev := set_click ev (cev_accepted ev) (Some item) in
            ev <- propagate (deliver_click item ev) ;;
            if cev_accepted ev then
              (if isFocusable item then setFocus item else ret tt) ;;;
              ret ev
            else click_candidates rest ev
        end
  end.

(** The [else] branch of [sendClickEvent]: search near the cursor. *)
Definition click_search (ev : MouseClickEvent) : SM MouseClickEvent :=
  lastHover <- gets lastHoverEvent ;;
  let acceptedItem :=
    match lastHover with
    | Some h => dict_get (cev_button ev) (clickItems h)
    | None => None
    end in
  match acceptedItem with
  | Some a =>
      propagate (deliver_click a (set_click ev (cev_accepted ev) (Some a)))
  | None =>
      items <- itemsNearEvent (cev_scenePos ev) false ;;
      click_candidates items ev
  end.

(** [GraphicsScene.sendClickEvent] *)
Definition sendClickEvent (ev : MouseClickEvent) : SM bool :=
  current <- gets dragItem ;;
  ev <-
    (match current with
     | Some d =>
         if has_MouseDragEvent d then
           propagate (deliver_click d (set_click ev (cev_accepted ev) (Some d)))
         else click_search ev
     | None => click_search ev
     end) ;;
  emit (MouseClickedSignal (cev_button ev)) ;;;
  ret (cev_accepted ev).

(** *** The mouse event methods *)

(** Python's comparisons on floats. *)
Definition Reqb (a b : R) : bool := if Req_dec_T a b then true else false.
Definition Rltb (a b : R) : bool := if Rlt_dec a b then true else false.

(** [QPointF.__sub__] *)
Definition psub (a b : QPointF) : QPointF :=
  mkPoint (x a - x b)%R (y a - y b)%R.

(** [[e for e in self.clickEvents if e.button() == btn]] *)
Definition clicks_of (btn : MouseButton) (l : list MouseClickEvent)
  : list MouseClickEvent :=
  filter (fun e => button_eqb (cev_button e) btn) l.

(** [self.clickEvents.remove(cev[0])], [cev[0]] being the first event of
    the list with button [btn]. *)
Fixpoint remove_click (btn : MouseButton) (l : list MouseClickEvent)
  : list MouseClickEvent :=
  match l with
  | [] => []
  | e :: r => if button_eqb (cev_button e) btn then r else e :: remove_click btn r
  end.

(** [self.dragButtons.remove(btn)] *)
Definition remove_button (btn : MouseButton) (l : list MouseButton)
  : list MouseButton :=
  match list_remove button_eqb btn l with
  | Some r => r
  | None => l
  end.

(** The first focusable, visible and enabled item of [items] takes the
    focus. *)
Fixpoint focus_first (items : list Item) : SM unit :=
  match items with
  | [] => ret tt
  | i :: rest =>
      if isEnabled i && isVisible i && isFocusable i then setFocus i
      else focus_first rest
  end.

(** [GraphicsScene.mousePressEvent]; [now] is [ptime.time()].  The method
    starts with the call of the base class, [QGraphicsScene.mousePressEvent],
    which is Qt's: of the state kept here it changes the focus item, which
    is [qt_focus] when the call returns (Qt gives the focus to an item
    under the press that takes it, and otherwise clears it), and it decides
    the mouse grabber ([ev_grabbed]).  [point_ne] is [QPointF.__ne__], which
    Qt implements with a tolerance. *)
Definition mousePressEvent (qt_focus : option nat)
    (point_ne : QPointF -> QPointF -> bool) (ev : QEvent) (now : R) : SM unit :=
  modify (set_focusItem qt_focus) ;;;
  if ev_grabbed ev then ret tt
  else
    lastHover <- gets lastHoverEvent ;;
    (match lastHover with
     | Some h =>
         let moved := match hev_scenePos h with
                      | Some p => point_ne (ev_scenePos ev) p
                      | None => true
                      end in
         if moved then sendHoverEvents ev false else ret tt
     | None => ret tt
     end) ;;;
    modify (fun s => set_clickEvents
                       (clickEvents s ++ [new_MouseClickEvent ev false now]) s) ;;;
    items <- gets (fun s => qt_items s (ev_scenePos ev)) ;;
    focus_first items.

(** The drag test of [mouseMoveEvent]: a held button stays a click
    candidate when this holds. *)
Definition stays_click (dist moveDistance elapsed minTime : R) : bool :=
  Reqb dist 0 || (Rltb dist moveDistance && Rltb elapsed minTime).

(** One round of the loop over the three buttons in [mouseMoveEvent];
    returns the new value of [init]. *)
Definition track_button (ev : QEvent) (now : R) (init : bool)
    (btn : MouseButton) : SM bool :=
  if negb (button_in btn (ev_buttons ev)) then ret init
  else
    dragging <- gets dragButtons ;;
    if button_in btn dragging then ret init
    else
      cevs <- gets clickEvents ;;
      match clicks_of btn cevs with
      | [] => ret init
      | cev :: _ =>
          let dist := point_length (psub (ev_scenePos ev) (cev_scenePos cev)) in
          moveDistance <- gets _moveDistance ;;
          minTime <- gets minDragTime ;;
          if stays_click dist moveDistance (now - cev_time cev)%R minTime
          then ret init
          else
            modify (fun s => set_dragButtons (dragButtons s ++ [btn]) s) ;;;
            ret (init || Nat.eqb (length dragging) 0)
      end.

(** [GraphicsScene.mouseMoveEvent]; [now] is [ptime.time()].  The result
    tells whether [ev.accept()] was called. *)
Definition mouseMoveEvent (ev : QEvent) (now : R) : SM bool :=
  emit MouseMovedSignal ;;;
  sendHoverEvents ev false ;;;
  if no_buttons ev then ret false
  else if ev_grabbed ev then ret false
  else
    init <- track_button ev now false LeftButton ;;
    init <- track_button ev now init MiddleButton ;;
    init <- track_button ev now init RightButton ;;
    dragging <- gets dragButtons ;;
    match dragging with
    | [] => ret false
    | _ :: _ => sendDragEvent ev init false
    end.

(** [GraphicsScene.leaveEvent] *)
Definition leaveEvent (ev : QEvent) : SM unit :=
  dragging <- gets dragButtons ;;
  match dragging with
  | [] => sendHoverEvents ev true
  | _ :: _ => ret tt
  end.

(** The reset at the end of a gesture. *)
Definition reset_gesture (s : GraphicsScene) : GraphicsScene :=
  set_lastDrag None (set_clickEvents [] (set_dragButtons [] (set_dragItem None s))).

(** [GraphicsScene.mouseReleaseEvent].  The result tells whether
    [ev.accept()] was called. *)
Definition mouseReleaseEvent (ev : QEvent) : SM bool :=
  accepted <-
    (if ev_grabbed ev then ret false
     else
       dragging <- gets dragButtons ;;
       if button_in (ev_button ev) dragging then
         a <- sendDragEvent ev false true ;;
         modify (fun s => set_dragButtons
                            (remove_button (ev_button ev) (dragButtons s)) s) ;;;
         ret a
       else
         cevs <- gets clickEvents ;;
         match clicks_of (ev_button ev) cevs with
         | [] => ret false
         | cev :: _ =>
             a <- sendClickEvent cev ;;
             modify (fun s => set_clickEvents
                                (remove_click (ev_button ev) (clickEvents s)) s) ;;;
             ret a
         end) ;;
  (if no_buttons ev then modify reset_gesture else ret tt) ;;;
  sendHoverEvents ev false ;;;
  ret accepted.

(** [GraphicsScene.mouseDoubleClickEvent] *)
Definition mouseDoubleClickEvent (ev : QEvent) (now : R) : SM unit :=
  if ev_grabbed ev then ret tt
  else modify (fun s => set_clickEvents
                          (clickEvents s ++ [new_MouseClickEvent ev true now]) s).

(** *** Context menus *)

(** [subMenus = item.getContextMenus(event) or []], then [extend] for a
    list and [append] for anything else. *)
Definition contribution (o : PyObj) : list PyObj :=
  let subMenus := if truthy_obj o then o else PyList [] in
  match subMenus with
  | PyList l => l
  | m => [m]
  end.

Definition item_contribution (item : Item) : list PyObj :=
  match getContextMenus item with
  | None => []                      (* no such attribute: [continue] *)
  | Some o => contribution o
  end.

(** The [while item is not self] loop of [addParentContextMenus]: the
    ancestors of [item], nearest first, and the scene last. *)
Fixpoint menusToAdd (item : Item) (sceneMenus : list PyObj) : list PyObj :=
  match item with
  | mkItem _ parent _ _ _ _ _ _ _ _ _ _ _ =>
      match parent with
      | Some p => item_contribution p ++ menusToAdd p sceneMenus
      | None => contribution (PyList sceneMenus)
      end
  end.

(** The loop [for m in menusToAdd]. *)
Fixpoint add_menus (ms : list PyObj) (menu : QMenu) : QMenu * result unit :=
  match ms with
  | [] => (menu, Return tt)
  | PyQMenu t :: r => add_menus r (menu ++ [SubMenu t])
  | PyQAction a :: r => add_menus r (menu ++ [Action a])
  | _ :: _ => (menu, Raise PyException)
  end.

(** [GraphicsScene.getContextMenus] *)
Definition scene_getContextMenus (acceptedItem : option nat) (s : GraphicsScene)
  : GraphicsScene * list PyObj :=
  (set_contextMenuItem acceptedItem s, contextMenu s).

(** [GraphicsScene.addParentContextMenus]; [acceptedItem] is
    [event.acceptedItem].  The menu is changed in place: the second
    component is the menu as the call leaves it, and on [Return] it is the
    value returned. *)
Definition addParentContextMenus (s : GraphicsScene) (item : Item)
    (menu : QMenu) (acceptedItem : option nat)
  : GraphicsScene * QMenu * result unit :=
  let '(s1, sceneMenus) := scene_getContextMenus acceptedItem s in
  let toAdd := menusToAdd item sceneMenus in
  let menu1 := match toAdd with
               | [] => menu
               | _ :: _ => menu ++ [Separator]
               end in
  let '(menu2, r) := add_menus toAdd menu1 in
  (s1, menu2, r).

End Scene.

(** * Notions used to state the properties of the pixel vectors *)

Module GeometrySpec.

Import Geometry.

Local Open Scope R_scope.

(** The transform and the direction that a key of the pixel-vector caches
    stands for. *)
Definition key_transform (k : Key) : QTransform :=
  let '(a, c, b, d, _, _) := k in mkTransform a b 0 c d 0 0 0 1.

Definition key_direction (k : Key) : QPointF :=
  let '(_, _, _, _, u, v) := k in mkPoint u v.

(** [direction], or (1, 0) when it is [None]. *)
Definition direction_or_default (direction : option QPointF) : QPointF :=
  match direction with
  | Some d => d
  | None => mkPoint 1 0
  end.

(** [pv] is a pair of pixel vectors for the key: the transform of the key
    sends the first vector to the vector of length 1 that points as the
    image of the direction, and the second to that image turned by a
    quarter; so both images are one pixel long and orthogonal. *)
Definition one_pixel (k : Key) (pv : PV) : Prop :=
  let t := key_transform k in
  let v := map_point t (key_direction k) in
  let n := map_point t (fst pv) in
  let o := map_point t (snd pv) in
  point_length v <> 0
  /\ n = mkPoint (x v / point_length v) (y v / point_length v)
  /\ o = mkPoint (y n) (- x n)
  /\ point_length n = 1
  /\ point_length o = 1
  /\ x n * x o + y n * y o = 0.

(** The shared cache holds pixel vectors only. *)
Definition coherent (g : GlobalCache) : Prop := LRU.stored one_pixel g.

(** When slot 0 of the per-item cache holds a key, slot 1 holds pixel
    vectors for it. *)
Definition local_ok (it : GraphicsItem) : Prop :=
  forall k, fst (_pixelVectorCache it) = SlotKey k ->
            exists pv, snd (_pixelVectorCache it) = Some pv /\ one_pixel k pv.

(** The transform that a key of the cache of inverses stands for. *)
Definition rect_transform (k : RectKey) : QTransform :=
  let '(a, b, c, d, e, f, g, h, i) := k in mkTransform a b c d e f g h i.

(** The cache of inverses holds, under the key of a transform, the
    inverse of that transform. *)
Definition inverses_only (cache : RectCache) : Prop :=
  LRU.stored (fun k t => invertQTransform (rect_transform k) = Return t) cache.

(** [mapRectFromView] without the cache. *)
Definition mapRectFromView_direct (Rect : Type)
    (mapRect : QTransform -> Rect -> Rect) (vt : option QTransform)
    (obj : Rect) : result (option Rect) :=
  match vt with
  | None => Return None
  | Some vt =>
      match invertQTransform vt with
      | Raise e => Raise e
      | Return inv_vt => Return (Some (mapRect inv_vt obj))
      end
  end.

End GeometrySpec.

(** * Notions used to state the properties of the dispatcher *)

Module SceneSpec.

Import Geometry.
Import Scene.


(** Two states of the scene agree on the gesture state, on the thresholds
    and on what Qt reports. *)
Definition same_gesture (s s' : GraphicsScene) : Prop :=
  clickEvents s' = clickEvents s
  /\ dragButtons s' = dragButtons s
  /\ dragItem s' = dragItem s
  /\ lastDrag s' = lastDrag s
  /\ _moveDistance s' = _moveDistance s
  /\ minDragTime s' = minDragTime s
  /\ has_views s' = has_views s
  /\ qt_items s' = qt_items s.

(** Two states agree on the pending clicks, the dragging buttons and the
    thresholds. *)
Definition same_buttons (s s' : GraphicsScene) : Prop :=
  clickEvents s' = clickEvents s
  /\ dragButtons s' = dragButtons s
  /\ _moveDistance s' = _moveDistance s
  /\ minDragTime s' = minDragTime s
  /\ has_views s' = has_views s.

(** A computation leaves a relation between the state it starts from and
    the state it ends in, whether it returns or raises. *)
Definition keeps {A} (P : GraphicsScene -> GraphicsScene -> Prop) (c : SM A)
  : Prop :=
  forall s, P s (fst (c s)).

Definition is_drag_note (n : Notification) : bool :=
  match n with
  | DragNote _ _ _ _ => true
  | _ => false
  end.

(** The log only grows, and by notifications that satisfy [ok]. *)
Definition extends_log (ok : Notification -> Prop) (s s' : GraphicsScene)
  : Prop :=
  exists l, log s' = log s ++ l /\ Forall ok l.

(** The log grows by notifications none of which is the delivery of a
    drag event. *)
Definition no_drag_sent (s s' : GraphicsScene) : Prop :=
  extends_log (fun n => is_drag_note n = false) s s'.

(** The distance and the time that [mouseMoveEvent] compares with the
    thresholds, for a move event and a pending click. *)
Definition travelled (ev : QEvent) (cev : MouseClickEvent) : R :=
  point_length (psub (ev_scenePos ev) (cev_scenePos cev)).

Definition elapsed (now : R) (cev : MouseClickEvent) : R :=
  (now - cev_time cev)%R.

(** The move event [ev] at time [now] makes [btn] a dragging button: the
    button is held, is not dragging yet, has a pending click, and the test
    of [mouseMoveEvent] does not keep it a click candidate. *)
Definition promotes (ev : QEvent) (now : R) (s : GraphicsScene)
    (btn : MouseButton) : bool :=
  button_in btn (ev_buttons ev)
  && negb (button_in btn (dragButtons s))
  && match clicks_of btn (clickEvents s) with
     | [] => false
     | cev :: _ =>
         negb (stays_click (travelled ev cev) (_moveDistance s)
                 (elapsed now cev) (minDragTime s))
     end.

(** Two drag events carry the same button and the same start and finish
    flags. *)
Definition same_flags (e e' : MouseDragEvent) : Prop :=
  dev_button e' = dev_button e /\ dev_start e' = dev_start e
  /\ dev_finish e' = dev_finish e.

(** The candidates of a click or drag at [point]: the result of
    [itemsNearEvent] when the scene has a view. *)
Definition candidates (s : GraphicsScene) (point : QPointF) (hoverable : bool)
  : list Item :=
  sort_by_z (filter (near_keep point hoverable) (qt_items s point)).

(** The items come top-most first: none has a greater absolute z value
    than an item before it. *)
Fixpoint descending (l : list Item) : Prop :=
  match l with
  | [] => True
  | a :: r =>
      (forall b, In b r -> (absZValue b <= absZValue a)%Q) /\ descending r
  end.

(** The walk over the candidates of a click, in the words of the spec:
    candidates are taken in order; an invisible, disabled or handler-less
    candidate is skipped; the click is delivered to each of the others
    until one leaves the accepted flag set or the list is exhausted.  A
    handler that raises ends the walk.  The result is the list of the
    items the click was delivered to, the event after the walk and the
    exception that ended it, if any. *)
Fixpoint click_walk (items : list Item) (ev : MouseClickEvent)
  : list Item * MouseClickEvent * option exn :=
  match items with
  | [] => ([], ev, None)
  | item :: rest =>
      match isVisible item && isEnabled item, mouseClickEvent item with
      | true, Some handler =>
          let ev1 := set_click ev (cev_accepted ev) (Some item) in
          let r := handler (click_info ev1) in
          let ev2 := set_click ev1 (reply_value r) (Some item) in
          if reply_raises r then ([item], ev2, Some HandlerError)
          else if reply_value r then ([item], ev2, None)
          else let '(l, ev3, e) := click_walk rest ev2 in (item :: l, ev3, e)
      | _, _ => click_walk rest ev
      end
  end.

Definition click_notes (b : MouseButton) (l : list Item) : list Notification :=
  map (fun i => ClickNote (item_id i) b) l.

(** A contribution to a context menu is well typed: a menu, an action, or
    a list of menus and actions. *)
Definition is_entry (o : PyObj) : bool :=
  match o with
  | PyQMenu _ | PyQAction _ => true
  | _ => false
  end.

Definition well_typed (o : PyObj) : bool :=
  match o with
  | PyQMenu _ | PyQAction _ => true
  | PyList l => forallb is_entry l
  | _ => false
  end.

(** The entry that [addMenu] or [addAction] appends for a menu or an
    action. *)
Definition entry_of (o : PyObj) : list MenuEntry :=
  match o with
  | PyQMenu t => [SubMenu t]
  | PyQAction a => [Action a]
  | _ => []
  end.

Definition entries_of (l : list PyObj) : list MenuEntry := flat_map entry_of l.

End SceneSpec.

(** * Concrete inputs *)

Module Inputs.

(** [LRUCache(maxSize, resizeTo)] with natural numbers as keys and values,
    and the loop [for k in range(n): cache[k] = k]. *)
Definition new_cache (maxSize0 resizeTo0 : Z) : LRU.LRUCache nat nat :=
  LRU.mkCache maxSize0 resizeTo0 0 [] 0 0.

Definition fill (c : LRU.LRUCache nat nat) (first n : nat) : LRU.LRUCache nat nat :=
  LRU.set_all Nat.eq_dec c (map (fun k => (k, k)) (seq first n)).

(** The writes [cache[k] = k] for [k] in [range(n)], as pairs and as
    operations. *)
Definition pairs (n : nat) : list (nat * nat) :=
  map (fun k => (k, k)) (seq 0 n).

Definition writes (n : nat) : list (LRU.op nat nat) :=
  map (fun k => LRU.Write k k) (seq 0 n).

(** [for k in range(100): cache[k] = k], then [cache[0]] is read, then
    [cache[100] = 100]. *)
Definition read_then_overflow : LRU.LRUCache nat nat :=
  let c := fill (new_cache 100 70) 0 100 in
  let c := fst (LRU.__getitem__ Nat.eq_dec c 0) in
  LRU.__setitem__ Nat.eq_dec c 100 100.

Import Geometry.

Definition identity : QTransform := affine 1 0 0 1 0 0.

(** An item that is being exported to a painter and has neither a scene
    nor a view. *)
Definition exported_item : GraphicsItem :=
  mkGraphicsItem (Some (mkExportOpts true None)) None None identity identity
    (SlotNone, None).

(** An item shown in one live view, nothing cached yet. *)
Definition shown_view : View := mkView false true identity.

Definition shown_item : GraphicsItem :=
  mkGraphicsItem None None (Some [shown_view]) identity identity
    (SlotNone, None).

(** An item that is in no scene and is not being exported. *)
Definition unshown_item : GraphicsItem :=
  mkGraphicsItem None None None identity identity (SlotNone, None).

(** [LRUCache(100, 70)], the shared cache as the class creates it. *)
Definition shared_cache : GlobalCache := LRU.mkCache 100 70 0 [] 0 0.

(** An item whose scene transform is a projection that sends the
    direction (1, 0) to the origin although its determinant is 1. *)
Definition collapsing : QTransform := mkTransform 0 0 1 1 0 0 0 1 1.

Definition collapsed_item : GraphicsItem :=
  mkGraphicsItem None None (Some [shown_view]) identity collapsing
    (SlotNone, None).

Import Scene.

(** *** Items, events and scenes *)

Definition origin : QPointF := mkPoint 0 0.

(** A visible, enabled item of this scene whose shape contains every
    point, with the given handlers. *)
Definition item_with (id : nat) (parent : option Item) (z : Q)
    (hover : option (HoverInfo -> Reply (list HoverRequest)))
    (click : option (ClickInfo -> Reply bool))
    (drag : option (DragInfo -> Reply bool)) : Item :=
  mkItem id parent z true true false true (Some (fun _ => true))
    hover click drag false None.

(** Handlers that accept the event, and handlers that raise. *)
Definition accepts_click : ClickInfo -> Reply bool := fun _ => mkReply true false.
Definition accepts_drag : DragInfo -> Reply bool := fun _ => mkReply true false.
Definition quiet_hover : HoverInfo -> Reply (list HoverRequest) :=
  fun _ => mkReply [] false.
Definition raises_click : ClickInfo -> Reply bool :=
  fun i => mkReply (ci_accepted i) true.
Definition raises_drag : DragInfo -> Reply bool :=
  fun i => mkReply (di_accepted i) true.
Definition raises_hover : HoverInfo -> Reply (list HoverRequest) :=
  fun _ => mkReply [] true.

(** A faulty item on top of a healthy one. *)
Definition faulty : Item :=
  item_with 1 None 1 (Some raises_hover) (Some raises_click) (Some raises_drag).

Definition healthy : Item :=
  item_with 2 None 0 (Some quiet_hover) (Some accepts_click) (Some accepts_drag).

(** Events of the left button at the origin. *)
Definition press_left : QEvent :=
  mkQEvent GraphicsSceneMousePress origin LeftButton [LeftButton]
    (fun _ => origin) false.

Definition move_free : QEvent :=
  mkQEvent GraphicsSceneMouseMove origin NoButton [] (fun _ => origin) false.

Definition move_left (p : QPointF) : QEvent :=
  mkQEvent GraphicsSceneMouseMove p NoButton [LeftButton] (fun _ => origin) false.

Definition release_left (p : QPointF) : QEvent :=
  mkQEvent GraphicsSceneMouseRelease p LeftButton [] (fun _ => origin) false.

(** The click event recorded by a press of the left button at time 0. *)
Definition click_left : MouseClickEvent := new_MouseClickEvent press_left false 0.

(** [GraphicsScene()] shown in a view, over the given items. *)
Definition scene_of (items : list Item) : GraphicsScene :=
  __init__ 2 5 true (fun _ => items).

Definition pressed (s : GraphicsScene) : GraphicsScene :=
  set_clickEvents [click_left] s.

(** The faulty item over the healthy one in the scene, the left button
    pressed; and the same with the faulty item being dragged. *)
Definition faulty_scene : GraphicsScene := pressed (scene_of [faulty; healthy]).

Definition faulty_drag : GraphicsScene :=
  set_dragItem (Some faulty) (set_dragButtons [LeftButton] faulty_scene).

(** An item that declares during hover that it accepts clicks of the left
    button, lying under an item that declares nothing. *)
Definition claims_left : HoverInfo -> Reply (list HoverRequest) :=
  fun _ => mkReply [AcceptClicks LeftButton] false.

Definition upper : Item :=
  item_with 3 None 2 (Some quiet_hover) (Some accepts_click) None.

Definition claimant : Item :=
  item_with 4 None 0 (Some claims_left) (Some accepts_click) None.

(** The item as it is once it has been removed from the scene. *)
Definition detached (i : Item) : Item :=
  mkItem (item_id i) (parentItem i) (zValue i) (isVisible i) (isEnabled i)
    (isFocusable i) false (shape i) (hoverEvent i) (mouseClickEvent i)
    (mouseDragEvent i) (has_MouseDragEvent i) (getContextMenus i).

(** The pointer has moved over both items, then the left button was
    pressed. *)
Definition claimed_scene : GraphicsScene :=
  pressed (fst (sendHoverEvents move_free false (scene_of [upper; claimant]))).

(** The same, but the claimant was removed from the scene between the
    hover pass and the press: the last hover event still refers to it, and
    Qt reports only the upper item. *)
Definition claimant_removed : GraphicsScene :=
  set_lastHoverEvent
    (Some (mkHoverEvent false true true (Some origin)
             [(LeftButton, detached claimant)] [] (Some (detached claimant))))
    (pressed (scene_of [upper])).

(** The pointer has left the upper item, which is still in the hover set,
    and is over the claimant, which Qt reports alone. *)
Definition pointer_moved_on : GraphicsScene :=
  set_hoverItems [upper] (scene_of [claimant]).

(** The healthy item alone, the left button pressed. *)
Definition healthy_scene : GraphicsScene := pressed (scene_of [healthy]).

(** The healthy item is being dragged with the left button, and the left
    button is released while the right button is still held. *)
Definition healthy_drag : GraphicsScene :=
  set_dragItem (Some healthy) (set_dragButtons [LeftButton] healthy_scene).

Definition release_left_holding_right : QEvent :=
  mkQEvent GraphicsSceneMouseRelease origin LeftButton [RightButton]
    (fun _ => origin) false.

(** The left button is pressed over the two items while the upper one is
    being dragged with another button. *)
Definition claimed_mid_drag : GraphicsScene :=
  set_dragItem (Some upper) (set_dragButtons [RightButton] claimed_scene).

(** *** Context menus *)

(** An item that does not handle events; [menus] is what its
    [getContextMenus] returns. *)
Definition menu_item (id : nat) (parent : option Item) (menus : option PyObj)
  : Item :=
  mkItem id parent 0 true true false true (Some (fun _ => true))
    None None None false menus.

(** A plot in a layout: the layout contributes the menu 30, the plot the
    menu 20 and the curve inside the plot shows a menu with the actions 1
    and 2. *)
Definition layout : Item := menu_item 30 None (Some (PyQMenu 30)).
Definition plot : Item := menu_item 20 (Some layout) (Some (PyList [PyQMenu 20])).
Definition curve : Item := menu_item 10 (Some plot) None.
Definition curve_menu : QMenu := [Action 1; Action 2].

(** The same with a plot whose [getContextMenus] returns the integer 0
    (or an empty tuple): an object that is false and is neither a menu,
    nor an action, nor a list. *)
Definition odd_plot : Item := menu_item 20 (Some layout) (Some (PyOther false)).
Definition odd_curve : Item := menu_item 10 (Some odd_plot) None.

End Inputs.

(** * Properties of LRUCache *)

Module LRUFacts.

Section Facts.

Variables K V : Type.
Variable K_eq_dec : forall a b : K, {a = b} + {a <> b}.

Local Abbreviation Item := (LRU.Item K V).
Local Abbreviation Cache := (LRU.LRUCache K V).
Local Abbreviation key_of := (@LRU.item_key K V).
Local Abbreviation time_of := (@LRU.item_time K V).
Local Abbreviation wf := (@LRU.wf K V).
Local Abbreviation timely := (@LRU.timely K V).
Local Abbreviation ascending := (@LRU.ascending K V).
Local Abbreviation evicted := (@LRU.evicted K V K_eq_dec).

Lemma insert_by_time_perm (it : Item) (l : list Item) :
  Permutation (LRU.insert_by_time it l) (it :: l).
Proof.
  induction l as [|a l IH]; simpl.
  - apply Permutation_refl.
  - destruct (time_of it <=? time_of a).
    + apply Permutation_refl.
    + apply perm_trans with (a :: it :: l).
      * now apply perm_skip.
      * apply perm_swap.
Qed.

Lemma sorted_by_time_perm (l : list Item) :
  Permutation (LRU.sorted_by_time l) l.
Proof.
  induction l as [|a l IH]; simpl.
  - apply perm_nil.
  - eapply perm_trans; [apply insert_by_time_perm|].
    now apply perm_skip.
Qed.

Lemma insert_by_time_ascending (it : Item) (l : list Item) :
  ascending l -> ascending (LRU.insert_by_time it l).
Proof.
  induction l as [|a l IH]; simpl; intros H.
  - split; [intros b []|exact I].
  - destruct H as [Ha Hl].
    destruct (Nat.leb_spec (time_of it) (time_of a)) as [Hle|Hgt]; simpl.
    + split; [|split; assumption].
      intros b [<-|Hb]; [assumption|].
      specialize (Ha b Hb). lia.
    + split; [|now apply IH].
      intros b Hb.
      apply (Permutation_in _ (insert_by_time_perm it l)) in Hb.
      destruct Hb as [<-|Hb]; [lia|now apply Ha].
Qed.

Lemma sorted_by_time_ascending (l : list Item) :
  ascending (LRU.sorted_by_time l).
Proof.
  induction l as [|a l IH]; simpl; [exact I|].
  now apply insert_by_time_ascending.
Qed.

Lemma in_skipn (n : nat) (l : list Item) (b : Item) :
  In b (skipn n l) -> In b l.
Proof.
  intros H. rewrite <- (firstn_skipn n l). apply in_or_app. now right.
Qed.

Lemma ascending_split (n : nat) (l : list Item) :
  ascending l ->
  forall a b, In a (firstn n l) -> In b (skipn n l) -> time_of a <= time_of b.
Proof.
  revert l; induction n as [|n IH]; intros l Hl a b Ha Hb.
  - destruct Ha.
  - destruct l as [|c l]; [destruct Ha|].
    simpl in *. destruct Hl as [Hc Hl].
    destruct Ha as [<-|Ha].
    + apply Hc. now apply (in_skipn n).
    + now apply (IH l).
Qed.

Lemma del_loop_filter (ordered d : list Item) :
  fold_left (fun d i => LRU.dict_del K_eq_dec (key_of i) d) ordered d
  = filter (fun it => negb (evicted ordered it)) d.
Proof.
  revert d; induction ordered as [|o ordered IH]; intros d; simpl.
  - induction d as [|a d IHd]; simpl; [reflexivity|now rewrite <- IHd].
  - rewrite IH. unfold LRU.dict_del.
    induction d as [|a d IHd]; simpl; [reflexivity|].
    destruct (LRU.has_key K_eq_dec (key_of o) a); simpl.
    + exact IHd.
    + destruct (evicted ordered a); simpl; [exact IHd|now rewrite IHd].
Qed.

Lemma evicted_true_iff (ordered : list Item) (it : Item) :
  evicted ordered it = true <-> In (key_of it) (map key_of ordered).
Proof.
  unfold evicted. rewrite existsb_exists, in_map_iff.
  split; intros [o [H1 H2]]; exists o.
  - unfold LRU.has_key in H2.
    destruct (K_eq_dec (key_of o) (key_of it)); [now split|discriminate].
  - split; [assumption|]. unfold LRU.has_key.
    destruct (K_eq_dec (key_of o) (key_of it)); [reflexivity|congruence].
Qed.

Lemma filter_perm (f : Item -> bool) (l l' : list Item) :
  Permutation l l' -> Permutation (filter f l) (filter f l').
Proof.
  induction 1; simpl.
  - apply perm_nil.
  - destruct (f x); [now apply perm_skip|assumption].
  - destruct (f x), (f y); try apply Permutation_refl. apply perm_swap.
  - eapply perm_trans; eassumption.
Qed.

Lemma filter_none (f : Item -> bool) (l : list Item) :
  (forall a, In a l -> f a = false) -> filter f l = [].
Proof.
  induction l as [|a l IH]; simpl; intros H; [reflexivity|].
  rewrite (H a (or_introl eq_refl)). apply IH. intros; apply H; now right.
Qed.

Lemma filter_all (f : Item -> bool) (l : list Item) :
  (forall a, In a l -> f a = true) -> filter f l = l.
Proof.
  induction l as [|a l IH]; simpl; intros H; [reflexivity|].
  rewrite (H a (or_introl eq_refl)). f_equal. apply IH. intros; apply H; now right.
Qed.

Lemma NoDup_keys_filter (f : Item -> bool) (d : list Item) :
  NoDup (map key_of d) -> NoDup (map key_of (filter f d)).
Proof.
  induction d as [|a d IH]; simpl; intros Hnd; [constructor|].
  inversion Hnd as [|? ? Hnotin Hrest]; subst.
  destruct (f a); simpl; [|now apply IH].
  constructor; [|now apply IH].
  intros Hin. apply Hnotin.
  apply in_map_iff in Hin as [b [Hb1 Hb2]].
  apply filter_In in Hb2 as [Hb2 _].
  apply in_map_iff. now exists b.
Qed.

(** What one eviction pass keeps: the items of the dictionary that are
    not among the [n] oldest. *)
Lemma eviction_keeps (n : nat) (d : list Item) :
  NoDup (map key_of d) ->
  Permutation
    (filter (fun it => negb (evicted (firstn n (LRU.sorted_by_time d)) it)) d)
    (skipn n (LRU.sorted_by_time d)).
Proof.
  intros Hnd.
  set (sd := LRU.sorted_by_time d).
  assert (Hp : Permutation sd d) by apply sorted_by_time_perm.
  assert (Hnd' : NoDup (map key_of sd)).
  { eapply Permutation_NoDup; [|exact Hnd].
    apply Permutation_map, Permutation_sym, Hp. }
  eapply perm_trans.
  { apply filter_perm, Permutation_sym, Hp. }
  rewrite <- (firstn_skipn n sd) at 1.
  rewrite filter_app.
  rewrite <- (firstn_skipn n sd), map_app in Hnd'.
  rewrite filter_none, filter_all; [apply Permutation_refl| |].
  - intros a Ha. apply negb_true_iff.
    destruct (evicted (firstn n sd) a) eqn:E; [|reflexivity].
    apply evicted_true_iff in E.
    exfalso.
    apply NoDup_app_remove_l in Hnd' as Hskip.
    clear Hskip.
    revert Hnd' E Ha. generalize (firstn n sd) (skipn n sd).
    intros l1 l2 Hnd' E Ha.
    induction l1 as [|b l1 IH]; [destruct E|].
    simpl in Hnd'. inversion Hnd' as [|? ? Hnotin Hrest]; subst.
    destruct E as [E|E].
    + apply Hnotin. rewrite E. apply in_or_app. right. now apply in_map.
    + now apply IH.
  - intros a Ha. apply negb_false_iff, evicted_true_iff. now apply in_map.
Qed.

(** The size after a pass, and who survives it. *)
Lemma _resizeTo_spec (c : Cache) :
  wf c -> (0 <= LRU.resizeTo c)%Z ->
  let c' := LRU._resizeTo K_eq_dec c in
  length (LRU._dict c') = length (LRU._dict c) - Z.to_nat (LRU.resizeTo c)
  /\ LRU.passes c' = S (LRU.passes c)
  /\ LRU._nextTime c' = LRU._nextTime c
  /\ LRU.maxSize c' = LRU.maxSize c
  /\ LRU.resizeTo c' = LRU.resizeTo c
  /\ wf c'
  /\ (forall it, In it (LRU._dict c') -> In it (LRU._dict c))
  /\ (forall kept gone, In kept (LRU._dict c') -> In gone (LRU._dict c) ->
        ~ In gone (LRU._dict c') -> time_of gone <= time_of kept).
Proof.
  intros Hwf Hr c'. subst c'. unfold LRU._resizeTo, py_slice_to; simpl.
  destruct (Z.leb_spec 0 (LRU.resizeTo c)) as [_|]; [|lia].
  rewrite del_loop_filter.
  set (n := Z.to_nat (LRU.resizeTo c)).
  pose proof (@eviction_keeps n (LRU._dict c) Hwf) as Hk. fold n in Hk.
  repeat split.
  - rewrite (Permutation_length Hk), length_skipn.
    now rewrite (Permutation_length (sorted_by_time_perm _)).
  - unfold wf; simpl. now apply NoDup_keys_filter.
  - intros it Hit. now apply filter_In in Hit.
  - intros kept gone Hkept Hgone Hnot.
    apply (Permutation_in _ Hk) in Hkept.
    assert (Hg : In gone (firstn n (LRU.sorted_by_time (LRU._dict c)))).
    { assert (Hs : In gone (LRU.sorted_by_time (LRU._dict c))).
      { eapply Permutation_in; [apply Permutation_sym, sorted_by_time_perm|].
        exact Hgone. }
      rewrite <- (firstn_skipn n) in Hs.
      apply in_app_or in Hs as [Hs|Hs]; [exact Hs|].
      exfalso. apply Hnot.
      eapply Permutation_in; [apply Permutation_sym, Hk|exact Hs]. }
    eapply ascending_split; [apply sorted_by_time_ascending| |]; eassumption.
Qed.

Lemma NoDup_app_iff_keys (l : list K) (k : K) :
  NoDup l -> ~ In k l -> NoDup (l ++ [k]).
Proof.
  induction l as [|a l IH]; simpl; intros Hnd Hk.
  - constructor; [intros []|constructor].
  - inversion Hnd as [|? ? Hnotin Hrest]; subst.
    constructor.
    + intros Hin. apply in_app_or in Hin as [Hin|[->|[]]]; [contradiction|].
      apply Hk. now left.
    + apply IH; [assumption|]. intros Hin. apply Hk. now right.
Qed.

Lemma dict_get_None (k : K) (d : list Item) :
  LRU.dict_get K_eq_dec k d = None <-> ~ In k (map key_of d).
Proof.
  unfold LRU.dict_get. induction d as [|a d IH]; simpl.
  - split; [intros _ []|reflexivity].
  - unfold LRU.has_key at 1.
    destruct (K_eq_dec k (key_of a)) as [->|Hne].
    + split; [discriminate|]. intros H; exfalso; apply H; now left.
    + rewrite IH. split; intros H.
      * intros [E|E]; [congruence|contradiction].
      * intros E; apply H; now right.
Qed.

(** A new key below capacity is appended and nothing is evicted. *)
Lemma setitem_below (c : Cache) (k : K) (v : V) :
  LRU.dict_get K_eq_dec k (LRU._dict c) = None ->
  (LRU.__len__ c + 1 <= LRU.maxSize c)%Z ->
  LRU.__setitem__ K_eq_dec c k v
  = LRU.mkCache (LRU.maxSize c) (LRU.resizeTo c) (LRU._counter c)
      (LRU._dict c ++ [LRU.mkItem k v (LRU._nextTime c)])
      (S (LRU._nextTime c)) (LRU.passes c).
Proof.
  intros Hk Hlen. unfold LRU.__setitem__. rewrite Hk.
  destruct (Z.gtb_spec (LRU.__len__ c + 1) (LRU.maxSize c)); [lia|reflexivity].
Qed.

(** A new key at capacity: one pass, which removes the [resizeTo] oldest
    items, and then the new item is appended. *)
Lemma setitem_overflow (c : Cache) (k : K) (v : V) :
  wf c -> timely c ->
  (0 <= LRU.resizeTo c)%Z ->
  LRU.dict_get K_eq_dec k (LRU._dict c) = None ->
  (LRU.__len__ c + 1 > LRU.maxSize c)%Z ->
  let c' := LRU.__setitem__ K_eq_dec c k v in
  LRU.passes c' = S (LRU.passes c)
  /\ length (LRU._dict c')
     = length (LRU._dict c) - Z.to_nat (LRU.resizeTo c) + 1
  /\ wf c' /\ timely c'
  /\ (forall kept gone, In kept (LRU._dict c') -> In gone (LRU._dict c) ->
        ~ In gone (LRU._dict c') -> time_of gone <= time_of kept).
Proof.
  intros Hwf Htm Hr Hk Hlen c'. subst c'. unfold LRU.__setitem__. rewrite Hk.
  destruct (Z.gtb_spec (LRU.__len__ c + 1) (LRU.maxSize c)); [|lia].
  destruct (_resizeTo_spec Hwf Hr)
    as (Hl & Hp & Ht & _ & _ & Hwf' & Hsub & Hold).
  cbn [LRU.passes LRU._dict].
  split; [exact Hp|]. split; [|split; [|split]].
  - rewrite length_app, Hl. reflexivity.
  - unfold wf. cbn [LRU._dict]. rewrite map_app. simpl.
    apply NoDup_app_iff_keys; [exact Hwf'|].
    intros Hin. apply dict_get_None in Hk. apply Hk.
    apply in_map_iff in Hin as [b [Hb1 Hb2]].
    apply in_map_iff. exists b. split; [exact Hb1|now apply Hsub].
  - intros it Hit. cbn [LRU._dict LRU._nextTime] in *.
    apply in_app_or in Hit as [Hit|[<-|[]]]; [|simpl; lia].
    apply Hsub in Hit. specialize (Htm it Hit). rewrite Ht. lia.
  - intros kept gone Hkept Hgone Hnot.
    apply in_app_or in Hkept as [Hkept|[<-|[]]].
    + apply (Hold kept gone Hkept Hgone).
      intros Hg. apply Hnot. apply in_or_app. now left.
    + simpl. specialize (Htm gone Hgone). cbn [LRU._nextTime]. lia.
Qed.

(** Distinct new keys that fit are appended in order. *)
Lemma set_all_below (kvs : list (K * V)) : forall c : Cache,
  wf c -> timely c ->
  NoDup (map fst kvs) ->
  (forall k, In k (map fst kvs) -> ~ In k (LRU.keys c)) ->
  (LRU.__len__ c + Z.of_nat (length kvs) <= LRU.maxSize c)%Z ->
  let c' := LRU.set_all K_eq_dec c kvs in
  wf c' /\ timely c'
  /\ LRU.passes c' = LRU.passes c
  /\ LRU.keys c' = LRU.keys c ++ map fst kvs
  /\ LRU.maxSize c' = LRU.maxSize c
  /\ LRU.resizeTo c' = LRU.resizeTo c.
Proof.
  induction kvs as [|[k v] kvs IH]; intros c Hwf Htm Hnd Hfresh Hlen; simpl.
  - rewrite app_nil_r. repeat split; assumption.
  - simpl in Hnd, Hlen. inversion Hnd as [|? ? Hk Hnd']; subst.
    assert (Hget : LRU.dict_get K_eq_dec k (LRU._dict c) = None).
    { apply dict_get_None. apply Hfresh. now left. }
    unfold LRU.set_all in *. simpl.
    rewrite (@setitem_below c k v Hget) by (unfold LRU.__len__ in *; lia).
    set (c1 := LRU.mkCache _ _ _ _ _ _).
    destruct (IH c1) as (H1 & H2 & H3 & H4 & H5 & H6).
    + unfold wf, c1. cbn [LRU._dict]. rewrite map_app. simpl.
      apply NoDup_app_iff_keys; [exact Hwf|]. now apply dict_get_None in Hget.
    + intros it Hit. unfold c1 in *. cbn [LRU._dict LRU._nextTime] in *.
      apply in_app_or in Hit as [Hit|[<-|[]]]; [|simpl; lia].
      specialize (Htm it Hit). lia.
    + exact Hnd'.
    + intros k' Hk' Hin. unfold LRU.keys, c1 in Hin. cbn [LRU._dict] in Hin.
      rewrite map_app in Hin. apply in_app_or in Hin as [Hin|[<-|[]]].
      * apply (Hfresh k'); [now right|exact Hin].
      * contradiction.
    + unfold LRU.__len__, c1 in *. cbn [LRU._dict LRU.maxSize].
      rewrite length_app. simpl. lia.
    + repeat split; try assumption.
      rewrite H4. unfold LRU.keys, c1. cbn [LRU._dict].
      rewrite map_app, <- app_assoc. reflexivity.
Qed.

(** What the code does when [maxSize + 1] distinct keys are stored in a
    new cache: one eviction pass, after which [maxSize - resizeTo + 1]
    entries are left. *)
Lemma overflow_in_general (m r : Z) (kvs : list (K * V)) (k : K) (v : V) :
  (0 <= r < m)%Z ->
  NoDup (map fst (kvs ++ [(k, v)])) ->
  Z.of_nat (length kvs) = m ->
  let c := LRU.set_all K_eq_dec (LRU.mkCache m r 0 [] 0 0) (kvs ++ [(k, v)]) in
  LRU.passes c = 1 /\ LRU.__len__ c = (m - r + 1)%Z.
Proof.
  intros Hr Hnd Hlen c. subst c.
  unfold LRU.set_all. rewrite fold_left_app. simpl.
  fold (LRU.set_all K_eq_dec (LRU.mkCache m r 0 (@nil Item) 0 0) kvs).
  rewrite map_app in Hnd. simpl in Hnd.
  destruct (@set_all_below kvs (LRU.mkCache m r 0 [] 0 0))
    as (H1 & H2 & H3 & H4 & H5 & H6).
  - constructor.
  - intros it [].
  - now apply NoDup_remove_1 in Hnd; rewrite app_nil_r in Hnd.
  - intros k' _ [].
  - unfold LRU.__len__. simpl. lia.
  - set (c0 := LRU.set_all K_eq_dec _ kvs) in *.
    simpl in H3, H4, H5, H6.
    assert (Hl0 : length (LRU._dict c0) = length kvs).
    { transitivity (length (LRU.keys c0)).
      - unfold LRU.keys. now rewrite length_map.
      - now rewrite H4, length_map. }
    destruct (@setitem_overflow c0 k v) as (Hp & Hl & _).
    + exact H1.
    + exact H2.
    + lia.
    + apply dict_get_None. fold (LRU.keys c0). rewrite H4.
      apply NoDup_remove_2 in Hnd. now rewrite app_nil_r in Hnd.
    + unfold LRU.__len__. lia.
    + split; [now rewrite Hp, H3|].
      unfold LRU.__len__. rewrite Hl, Hl0, H6. lia.
Qed.

(** A key that was missing is found right after it has been stored. *)
Lemma dict_get_app_new (k : K) (v : V) (t : nat) (d : list Item) :
  LRU.dict_get K_eq_dec k d = None ->
  LRU.dict_get K_eq_dec k (d ++ [LRU.mkItem k v t]) = Some (LRU.mkItem k v t).
Proof.
  unfold LRU.dict_get. induction d as [|a d IH]; simpl; intros H.
  - unfold LRU.has_key; simpl. destruct (K_eq_dec k k); [reflexivity|congruence].
  - destruct (LRU.has_key K_eq_dec k a); [discriminate|now apply IH].
Qed.

Lemma get_miss_inv (c c' : Cache) (k : K) :
  LRU.get K_eq_dec c k None = (c', None) ->
  c' = c /\ LRU.dict_get K_eq_dec k (LRU._dict c) = None.
Proof.
  unfold LRU.get, LRU.__getitem__.
  destruct (LRU.dict_get K_eq_dec k (LRU._dict c)); intros H.
  - discriminate.
  - inversion H. now split.
Qed.

Lemma get_after_set (c : Cache) (k : K) (v : V) :
  LRU.dict_get K_eq_dec k (LRU._dict c) = None ->
  exists c', LRU.get K_eq_dec (LRU.__setitem__ K_eq_dec c k v) k None
             = (c', Some v).
Proof.
  intros Hk. unfold LRU.__setitem__. rewrite Hk.
  set (c1 := if (LRU.__len__ c + 1 >? LRU.maxSize c)%Z
             then LRU._resizeTo K_eq_dec c else c).
  assert (H1 : LRU.dict_get K_eq_dec k (LRU._dict c1) = None).
  { subst c1. destruct (_ >? _)%Z; [|exact Hk].
    unfold LRU._resizeTo; cbn [LRU._dict]. rewrite del_loop_filter.
    apply dict_get_None. apply dict_get_None in Hk.
    intros Hin. apply Hk.
    apply in_map_iff in Hin as [b [Hb1 Hb2]].
    apply filter_In in Hb2 as [Hb2 _].
    apply in_map_iff. now exists b. }
  unfold LRU.get, LRU.__getitem__. cbn [LRU._dict].
  rewrite (@dict_get_app_new k v (LRU._nextTime c1) _ H1).
  eexists. reflexivity.
Qed.

End Facts.

End LRUFacts.

(** C1 (the code departs from the claim).  [LRUCache(100, 70)] receives
    the 101 distinct keys 0..100 through [__setitem__].  One eviction pass
    takes place, as the claim says, and the survivors are the most recently
    touched entries; but 31 entries are left (the 30 youngest of the first
    hundred and the new one), not [resizeTo] = 70: [_resizeTo] deletes the
    [resizeTo] oldest entries instead of keeping [resizeTo] entries.  A key
    that was read before the overflow is among the survivors. *)
Theorem lru_overflow_leaves_31_not_70 :
  let c := Inputs.fill (Inputs.new_cache 100 70) 0 101 in
  LRU.passes c = 1
  /\ LRU.__len__ c = 31%Z
  /\ LRU.__len__ c <> LRU.resizeTo c
  /\ LRU.keys c = seq 70 31
  /\ LRU.keys Inputs.read_then_overflow = 0 :: seq 71 30.
Proof.
  vm_compute. repeat split; discriminate.
Qed.

(** * Properties of the device transform and of pixelVectors *)

Module GeometryFacts.

Import Geometry.

Local Open Scope R_scope.

Lemma getViewWidget_fields (it : GraphicsItem) :
  let it1 := fst (getViewWidget it) in
  _exportOpts it1 = _exportOpts it
  /\ base_sceneTransform it1 = base_sceneTransform it
  /\ transform it1 = transform it
  /\ scene_views it1 = scene_views it
  /\ _pixelVectorCache it1 = _pixelVectorCache it.
Proof.
  unfold getViewWidget.
  destruct (_viewWidget it); [simpl; tauto|].
  destruct (scene_views it) as [[|v l]|] eqn:Es; simpl;
    repeat split; try reflexivity; now rewrite Es.
Qed.

(** Asking again gives the same view and changes nothing more. *)
Lemma getViewWidget_again (it : GraphicsItem) (c : Slot0 * option PV) :
  let it1 := fst (getViewWidget it) in
  getViewWidget (set_pixelVectorCache it1 c)
  = (set_pixelVectorCache it1 c, snd (getViewWidget it)).
Proof.
  unfold getViewWidget.
  destruct (_viewWidget it) as [v|] eqn:Ev; simpl.
  - now rewrite Ev.
  - destruct (scene_views it) as [[|v l]|] eqn:Es; simpl;
      rewrite ?Ev, ?Es; reflexivity.
Qed.

(** Outside a painter export the device transform is the composed
    transform of the view found, unless its determinant is 0. *)
Lemma deviceTransform_outside_export (it : GraphicsItem) :
  painter_opts it = None ->
  deviceTransform it None
  = (fst (getViewWidget it),
     match snd (getViewWidget it) with
     | None => None
     | Some view =>
         let dt := mul (base_sceneTransform it) (viewportTransform view) in
         if Req_dec_T (determinant dt) 0 then None else Some dt
     end).
Proof.
  intros Hp. unfold deviceTransform. rewrite Hp.
  pose proof (getViewWidget_fields it) as (_ & Hb & _).
  destruct (getViewWidget it) as [it1 [view|]]; simpl in *; [|reflexivity].
  unfold base_deviceTransform. rewrite Hb.
  destruct (Req_dec_T _ 0); reflexivity.
Qed.

Lemma deviceTransform_cache (it : GraphicsItem) :
  _pixelVectorCache (fst (deviceTransform it None)) = _pixelVectorCache it.
Proof.
  unfold deviceTransform.
  destruct (painter_opts it); [reflexivity|].
  pose proof (getViewWidget_fields it) as (_ & _ & _ & _ & Hc).
  destruct (getViewWidget it) as [it1 [view|]]; simpl in *; [|exact Hc].
  destruct (Req_dec_T _ 0); exact Hc.
Qed.

(** A second call of [deviceTransform] returns what the first returned,
    whatever the per-item cache has become in between. *)
Lemma deviceTransform_again (it : GraphicsItem) (c : Slot0 * option PV) :
  let it1 := fst (deviceTransform it None) in
  deviceTransform (set_pixelVectorCache it1 c) None
  = (set_pixelVectorCache it1 c, snd (deviceTransform it None)).
Proof.
  unfold deviceTransform.
  destruct (painter_opts it) as [o|] eqn:Ep.
  - simpl. unfold painter_opts in *. simpl. rewrite Ep. reflexivity.
  - pose proof (getViewWidget_again it c) as Ha.
    pose proof (getViewWidget_fields it) as (He & Hb & _).
    destruct (getViewWidget it) as [it1 [view|]] eqn:Eg; simpl in *.
    + unfold base_deviceTransform in *.
      destruct (Req_dec_T (determinant (mul (base_sceneTransform it1)
                                          (viewportTransform view))) 0) as [Hz|Hz];
        simpl; unfold painter_opts in *; simpl; rewrite He, Ep, Ha; simpl;
        unfold base_deviceTransform; simpl;
        destruct (Req_dec_T _ 0); congruence.
    + unfold painter_opts in *; simpl. rewrite He, Ep, Ha. reflexivity.
Qed.

Lemma determinant_strip (dt : QTransform) :
  determinant (strip_translation dt) = m11 dt * m22 dt - m21 dt * m12 dt.
Proof. unfold determinant, strip_translation; simpl. ring. Qed.

Lemma determinant_affine (dt : QTransform) :
  is_affine dt -> determinant dt = m11 dt * m22 dt - m21 dt * m12 dt.
Proof.
  intros (H1 & H2 & H3). unfold determinant. rewrite H1, H2, H3. ring.
Qed.

Lemma mul_affine (a b : QTransform) :
  is_affine a -> is_affine b -> is_affine (mul a b).
Proof.
  intros (A1 & A2 & A3) (B1 & B2 & B3). unfold is_affine, mul; simpl.
  rewrite A1, A2, A3, B1, B2, B3. repeat split; ring.
Qed.

(** The inverse exists for the stripped transform of an affine device
    transform. *)
Lemma invert_stripped (dt : QTransform) :
  is_affine dt -> determinant dt <> 0 ->
  exists dti, invertQTransform (strip_translation dt) = Return dti.
Proof.
  intros Ha Hd. unfold invertQTransform.
  destruct (Req_dec_T (determinant (strip_translation dt)) 0) as [Hz|Hz].
  - exfalso. apply Hd. rewrite determinant_affine by assumption.
    now rewrite <- determinant_strip.
  - eexists; reflexivity.
Qed.

Lemma pixelLength_raises (it : GraphicsItem) (g : GlobalCache)
    (direction : option QPointF) (ortho : bool) (e : exn) :
  snd (pixelLength it g direction ortho) = Raise e
  <-> snd (pixelVectors it g direction) = Raise e.
Proof.
  unfold pixelLength.
  destruct (pixelVectors it g direction) as [[it1 g1] [[[a|] [b|]]|e']];
    simpl; split; intros H; try discriminate; inversion H; reflexivity.
Qed.

Lemma deviceTransform_some (it : GraphicsItem) (dt : QTransform) :
  painter_opts it = None ->
  snd (deviceTransform it None) = Some dt ->
  exists v, snd (getViewWidget it) = Some v
            /\ dt = mul (base_sceneTransform it) (viewportTransform v)
            /\ determinant dt <> 0.
Proof.
  intros Hp. rewrite (deviceTransform_outside_export it Hp). simpl.
  destruct (snd (getViewWidget it)) as [v|]; [|discriminate].
  destruct (Req_dec_T _ 0) as [Hz|Hz]; [discriminate|].
  intros H. inversion H; subst. exists v. repeat split. exact Hz.
Qed.

Lemma key_matches_true (key : Key) (s : Slot0) :
  key_matches key s = true -> s = SlotKey key.
Proof.
  destruct s as [|k|t]; simpl; try discriminate.
  destruct (Key_eq_dec key k); [now subst|discriminate].
Qed.

Lemma key_matches_refl (key : Key) : key_matches key (SlotKey key) = true.
Proof. simpl. destruct (Key_eq_dec key key); [reflexivity|congruence]. Qed.

(** The part of [pixelVectors] that follows a miss in the per-item cache
    never raises unless the inversion does. *)
Ltac after_local_miss g dt :=
  destruct (LRU.get Key_eq_dec g _ None) as [? [?|]]; simpl; [discriminate|];
  destruct (Req_dec_T _ 0); simpl; [discriminate|];
  destruct (invertQTransform (strip_translation dt)); simpl; [discriminate|];
  let H := fresh in intros H; inversion H; now right.

(** Every way in which [pixelVectors] can raise. *)
Lemma pixelVectors_raises (it : GraphicsItem) (g : GlobalCache)
    (direction : option QPointF) (e : exn) :
  snd (pixelVectors it g direction) = Raise e ->
  exists dt, snd (deviceTransform it None) = Some dt
    /\ ((exists d, direction = Some d /\ manhattanLength d = 0)
        \/ (exists k, fst (_pixelVectorCache it) = SlotKey k
                      /\ snd (_pixelVectorCache it) = None)
        \/ invertQTransform (strip_translation dt) = Raise e).
Proof.
  unfold pixelVectors, pixelVectors_traced.
  pose proof (deviceTransform_cache it) as Hc.
  destruct (deviceTransform it None) as [it1 [dt|]]; simpl in Hc;
    [|simpl; discriminate].
  intros H. exists dt. split; [reflexivity|].
  cbv zeta in H. rewrite Hc in H.
  destruct direction as [d|].
  - destruct (Req_dec_T (manhattanLength d) 0) as [Hz|Hz].
    + left. now exists d.
    + right. revert H.
      destruct (key_matches _ _) eqn:Ek.
      * apply key_matches_true in Ek.
        destruct (snd (_pixelVectorCache it)) eqn:E1; simpl; [discriminate|].
        intros _. left. eexists; split; [exact Ek|reflexivity].
      * after_local_miss g dt.
  - right. revert H.
    destruct (key_matches _ _) eqn:Ek.
    + apply key_matches_true in Ek.
      destruct (snd (_pixelVectorCache it)) eqn:E1; simpl; [discriminate|].
      intros _. left. eexists; split; [exact Ek|reflexivity].
    + after_local_miss g dt.
Qed.

Lemma set_cache_twice (it : GraphicsItem) (c c' : Slot0 * option PV) :
  set_pixelVectorCache (set_pixelVectorCache it c) c' = set_pixelVectorCache it c'.
Proof. reflexivity. Qed.

(** Whenever a call of [pixelVectors] computes its result, slot 0 of the
    per-item cache is left holding the transform and not the key; the
    next call with the same direction therefore misses the per-item cache
    and is answered by the shared cache, which then fills the per-item
    cache properly; only the third call is answered by the per-item
    cache. *)
Lemma computed_then_shared_then_local (it it1 : GraphicsItem)
    (g g1 : GlobalCache) (direction : option QPointF) (r : PVResult) :
  pixelVectors_traced it g direction = (it1, g1, r, Computed) ->
  (exists t, fst (_pixelVectorCache it1) = SlotTransform t)
  /\ exists it2 g2,
       pixelVectors_traced it1 g1 direction = (it2, g2, r, GlobalHit)
       /\ pixelVectors_traced it2 g2 direction = (it2, g2, r, LocalHit).
Proof.
  unfold pixelVectors_traced at 1.
  pose proof (deviceTransform_again it) as Hagain.
  destruct (deviceTransform it None) as [ita [dt|]] eqn:Ed; [|discriminate].
  simpl in Hagain. cbv zeta.
  set (bad := match direction with
              | Some d => if Req_dec_T (manhattanLength d) 0 then true else false
              | None => false
              end).
  set (dir := match direction with Some d => d | None => mkPoint 1 0 end).
  set (key := make_key (strip_translation dt) dir).
  destruct bad eqn:Ebad; [discriminate|].
  destruct (key_matches key (fst (_pixelVectorCache ita))) eqn:Ek.
  { destruct (snd (_pixelVectorCache ita)); discriminate. }
  destruct (LRU.get Key_eq_dec g key None) as [ga [pv0|]] eqn:Eg; [discriminate|].
  destruct (Req_dec_T _ 0) as [Hz|Hz]; [discriminate|].
  destruct (invertQTransform (strip_translation dt)) as [dti|e] eqn:Ei;
    [|discriminate].
  set (pv := (p2 (map_line dti (unitVector _)), p2 (map_line dti (normalVector _)))).
  intros H. inversion H; subst it1 g1 r. clear H.
  split; [eexists; reflexivity|].
  apply LRUFacts.get_miss_inv in Eg as [-> Hmiss].
  destruct (@LRUFacts.get_after_set _ _ Key_eq_dec g key pv Hmiss) as [g2 Hg2].
  exists (set_pixelVectorCache ita (SlotKey key, Some pv)), g2.
  split.
  - unfold pixelVectors_traced. rewrite Hagain. cbv zeta.
    fold bad dir key. rewrite Ebad. simpl key_matches. cbv iota.
    rewrite Hg2. reflexivity.
  - unfold pixelVectors_traced.
    rewrite (Hagain (SlotKey key, Some pv)). cbv zeta.
    fold bad dir key. rewrite Ebad.
    cbn [_pixelVectorCache set_pixelVectorCache fst snd].
    rewrite key_matches_refl. reflexivity.
Qed.

(** The device transform of the item shown in [Inputs.shown_view]. *)
Lemma shown_item_deviceTransform :
  deviceTransform Inputs.shown_item None
  = (set_viewWidget Inputs.shown_item (Some Inputs.shown_view),
     Some (mul Inputs.identity Inputs.identity)).
Proof.
  rewrite (deviceTransform_outside_export Inputs.shown_item eq_refl). simpl.
  destruct (Req_dec_T _ 0) as [Hz|Hz]; [|reflexivity].
  exfalso. revert Hz. unfold determinant, mul, Inputs.identity, affine; simpl.
  lra.
Qed.

(** The first call on that item computes the pixel vectors. *)
Lemma shown_item_first_call :
  exists it1 g1 r,
    pixelVectors_traced Inputs.shown_item Inputs.shared_cache None
    = (it1, g1, r, Computed).
Proof.
  unfold pixelVectors_traced. rewrite shown_item_deviceTransform. cbv zeta.
  cbn [key_matches _pixelVectorCache set_viewWidget Inputs.shown_item fst snd].
  unfold LRU.get, LRU.__getitem__, Inputs.shared_cache. cbn [LRU._dict LRU.dict_get find].
  destruct (Req_dec_T _ 0) as [Hz|Hz].
  - exfalso. apply sqrt_eq_0 in Hz.
    + revert Hz. unfold dx, dy, map_line, map_point, strip_translation, mul,
        Inputs.identity, affine; simpl. intros Hz. field_simplify in Hz. lra.
    + apply Rplus_le_le_0_compat; apply Rle_0_sqr.
  - destruct (invertQTransform _) as [dti|e] eqn:Ei.
    + do 3 eexists. reflexivity.
    + exfalso. revert Ei. unfold invertQTransform.
      destruct (Req_dec_T _ 0) as [Hd|Hd]; [|discriminate].
      exfalso. revert Hd.
      unfold determinant, strip_translation, mul, Inputs.identity, affine; simpl.
      lra.
Qed.

(** C6, as stated, fails: an item that is being exported to a painter
    has no hosting view, and [deviceTransform] still returns a transform
    (the scene transform scaled by the export resolution). *)
Lemma deviceTransform_of_exported_item_is_defined :
  snd (getViewWidget Inputs.exported_item) = None
  /\ snd (deviceTransform Inputs.exported_item None) <> None.
Proof.
  split; [reflexivity|]. simpl. discriminate.
Qed.

(** C6 (amended).  During an export to a painter [deviceTransform]
    returns, whatever the view and the determinant, the scene transform
    followed by the scaling by the resolution of the export (1 when none
    is given) and the translation by (1, 1).  For an item that is not
    being exported to a painter: [deviceTransform()] returns [None] when
    the item has no hosting view or the composed transform has determinant
    exactly 0; whenever it returns [None], [pixelVectors] returns
    [(None, None)] and [pixelLength] returns [None] for every direction, a
    zero-length one included, without raising; [pixelVectors] also returns
    [(None, None)] when neither cache holds the key and the mapped
    direction has length 0 (which takes a transform that is not affine);
    when a device transform exists, a direction of Manhattan length 0
    makes [pixelVectors] and [pixelLength] raise; and when the transforms
    involved are affine and slot 1 of the per-item cache holds a value
    whenever its slot 0 holds a key, that is the only exception these
    calls raise. *)
Theorem undefined_geometry_is_a_value (it : GraphicsItem) (g : GlobalCache) :
  (forall o viewportTransform0,
      painter_opts it = Some o ->
      deviceTransform it viewportTransform0
      = (it, Some (mul (sceneTransform it)
                     (match resolutionScale o with
                      | Some r => affine r 0 0 r 1 1
                      | None => affine 1 0 0 1 1 1
                      end))))
  /\ (painter_opts it = None ->
      (snd (getViewWidget it) = None -> snd (deviceTransform it None) = None)
      /\ (forall v, snd (getViewWidget it) = Some v ->
            determinant (mul (base_sceneTransform it) (viewportTransform v)) = 0 ->
            snd (deviceTransform it None) = None)
      /\ (snd (deviceTransform it None) = None ->
          forall direction ortho,
            snd (pixelVectors it g direction) = Return (None, None)
            /\ snd (pixelLength it g direction ortho) = Return None)
      /\ (forall dt direction,
            snd (deviceTransform it None) = Some dt ->
            (forall d, direction = Some d -> manhattanLength d <> 0) ->
            let dir := match direction with Some d => d | None => mkPoint 1 0 end in
            let key := make_key (strip_translation dt) dir in
            key_matches key (fst (_pixelVectorCache it)) = false ->
            LRU.dict_get Key_eq_dec key (LRU._dict g) = None ->
            line_length (map_line (strip_translation dt)
                           (mkLine (mkPoint 0 0) dir)) = 0 ->
            snd (pixelVectors it g direction) = Return (None, None))
      /\ (forall dt d ortho,
            snd (deviceTransform it None) = Some dt -> manhattanLength d = 0 ->
            snd (pixelVectors it g (Some d)) = Raise PyException
            /\ snd (pixelLength it g (Some d) ortho) = Raise PyException)
      /\ (affine_setting it -> cache_ok it ->
          forall direction ortho e,
            snd (pixelVectors it g direction) = Raise e
            \/ snd (pixelLength it g direction ortho) = Raise e ->
            exists d, direction = Some d /\ manhattanLength d = 0)).
Proof.
  split.
  { intros o vt Ho. unfold deviceTransform. rewrite Ho.
    destruct (resolutionScale o); reflexivity. }
  intros Hp.
  assert (HC : snd (deviceTransform it None) = None ->
               forall direction,
                 snd (pixelVectors it g direction) = Return (None, None)).
  { intros Hn direction. unfold pixelVectors, pixelVectors_traced.
    destruct (deviceTransform it None) as [it1 [dt|]]; simpl in *;
      [discriminate|reflexivity]. }
  assert (HE : forall dt d,
             snd (deviceTransform it None) = Some dt -> manhattanLength d = 0 ->
             snd (pixelVectors it g (Some d)) = Raise PyException).
  { intros dt d Hd Hz. unfold pixelVectors, pixelVectors_traced.
    destruct (deviceTransform it None) as [it1 [dt'|]]; simpl in *;
      [|discriminate].
    destruct (Req_dec_T (manhattanLength d) 0); [reflexivity|contradiction]. }
  split; [|split; [|split; [|split; [|split]]]].
  - intros Hv. rewrite (deviceTransform_outside_export it Hp). simpl.
    now rewrite Hv.
  - intros v Hv Hz. rewrite (deviceTransform_outside_export it Hp). simpl.
    rewrite Hv. destruct (Req_dec_T _ 0); [reflexivity|contradiction].
  - intros Hn direction ortho. split; [now apply HC|].
    specialize (HC Hn direction). unfold pixelLength.
    destruct (pixelVectors it g direction) as [[it1 g1] r]. simpl in HC.
    now subst r.
  - intros dt direction Hd Hdir dir key Hk Hg Hl.
    unfold pixelVectors, pixelVectors_traced.
    pose proof (deviceTransform_cache it) as Hc.
    destruct (deviceTransform it None) as [it1 [dt'|]]; simpl in Hc, Hd;
      [|discriminate].
    inversion Hd; subst dt'. cbv zeta. rewrite Hc.
    assert (Hbad : match direction with
                   | Some d => if Req_dec_T (manhattanLength d) 0 then true else false
                   | None => false
                   end = false).
    { destruct direction as [d|]; [|reflexivity].
      destruct (Req_dec_T (manhattanLength d) 0); [|reflexivity].
      exfalso. now apply (Hdir d). }
    rewrite Hbad. fold dir. fold key. rewrite Hk.
    unfold LRU.get, LRU.__getitem__. rewrite Hg.
    destruct (Req_dec_T _ 0); [reflexivity|contradiction].
  - intros dt d ortho Hd Hz. split; [now apply (HE dt)|].
    apply pixelLength_raises. now apply (HE dt).
  - intros Haff Hok direction ortho e Hr.
    assert (Hv : snd (pixelVectors it g direction) = Raise e).
    { destruct Hr as [Hr|Hr]; [exact Hr|now apply pixelLength_raises in Hr]. }
    destruct (pixelVectors_raises _ _ _ Hv) as (dt & Hd & [Hbad|[Hslot|Hinv]]).
    + exact Hbad.
    + exfalso. destruct Hslot as (k & Hk & Hnone). now apply (Hok k).
    + exfalso.
      destruct (deviceTransform_some it Hp Hd) as (v & Hview & -> & Hdet).
      destruct Haff as (Hb & Hvs).
      destruct (@invert_stripped (mul (base_sceneTransform it) (viewportTransform v)))
        as (dti & Hdti).
      * apply mul_affine; [exact Hb|now apply Hvs].
      * exact Hdet.
      * congruence.
Qed.

Lemma collapsed_item_deviceTransform :
  deviceTransform Inputs.collapsed_item None
  = (set_viewWidget Inputs.collapsed_item (Some Inputs.shown_view),
     Some (mul Inputs.collapsing Inputs.identity)).
Proof.
  rewrite (deviceTransform_outside_export Inputs.collapsed_item eq_refl). simpl.
  destruct (Req_dec_T _ 0) as [Hz|Hz]; [|reflexivity].
  exfalso. revert Hz.
  unfold determinant, mul, Inputs.collapsing, Inputs.identity, affine; simpl.
  lra.
Qed.

(** The clauses of the amended C6 at work: an item being exported has the
    scaled scene transform; an item in no scene has no pixel vectors,
    even along a zero-length direction; for an item shown in a view a
    zero-length direction raises; and an item whose transform sends the
    direction (1, 0) to the origin has no pixel vectors. *)
Lemma undefined_geometry_is_a_value_witness :
  deviceTransform Inputs.exported_item None
  = (Inputs.exported_item,
     Some (mul Inputs.identity (affine 1 0 0 1 1 1)))
  /\ snd (pixelVectors Inputs.unshown_item Inputs.shared_cache
            (Some (mkPoint 0 0))) = Return (None, None)
  /\ (forall ortho,
        snd (pixelLength Inputs.shown_item Inputs.shared_cache
               (Some (mkPoint 0 0)) ortho) = Raise PyException)
  /\ snd (pixelVectors Inputs.collapsed_item Inputs.shared_cache None)
     = Return (None, None).
Proof.
  split; [|split; [|split]].
  - exact (proj1 (undefined_geometry_is_a_value Inputs.exported_item
                    Inputs.shared_cache)
             (mkExportOpts true None) None eq_refl).
  - destruct (proj2 (undefined_geometry_is_a_value Inputs.unshown_item
                       Inputs.shared_cache) eq_refl)
      as (Hnone & _ & Hvalue & _).
    exact (proj1 (Hvalue (Hnone eq_refl) (Some (mkPoint 0 0)) false)).
  - intros ortho.
    destruct (proj2 (undefined_geometry_is_a_value Inputs.shown_item
                       Inputs.shared_cache) eq_refl)
      as (_ & _ & _ & _ & H & _).
    apply (H (mul Inputs.identity Inputs.identity) (mkPoint 0 0) ortho).
    + now rewrite shown_item_deviceTransform.
    + unfold manhattanLength; simpl. rewrite Rabs_R0. lra.
  - destruct (proj2 (undefined_geometry_is_a_value Inputs.collapsed_item
                       Inputs.shared_cache) eq_refl)
      as (_ & _ & _ & H & _).
    apply (H (mul Inputs.collapsing Inputs.identity) None).
    + now rewrite collapsed_item_deviceTransform.
    + intros d Hd. discriminate.
    + reflexivity.
    + reflexivity.
    + unfold line_length, dx, dy, map_line, map_point, strip_translation, mul,
        Inputs.collapsing, Inputs.identity, affine; simpl.
      match goal with
      | |- sqrt ?t = 0 => replace t with 0 by (field; lra)
      end.
      apply sqrt_0.
Defined.

(** C7 (the code departs from the claim).  An item shown in a view asks
    three times for its pixel vectors along the default direction, the
    shared cache being empty at first.  The first call computes the pair and
    stores it in the shared cache, as the claim says, but it leaves the
    transform, not the key, in slot 0 of the per-item cache
    ([self._pixelVectorCache[0] = dt]).  The second call, with the same
    coefficients and direction, therefore misses the per-item cache and is
    answered by the shared cache; the claim has it answered by the per-item
    cache.  Only the third call is a per-item hit.  All three return the
    same pair. *)
Theorem second_pixelVectors_call_misses_item_cache :
  exists it1 g1 it2 g2 r,
    pixelVectors_traced Inputs.shown_item Inputs.shared_cache None
    = (it1, g1, r, Computed)
    /\ (exists t, fst (_pixelVectorCache it1) = SlotTransform t)
    /\ pixelVectors_traced it1 g1 None = (it2, g2, r, GlobalHit)
    /\ pixelVectors_traced it2 g2 None = (it2, g2, r, LocalHit).
Proof.
  destruct shown_item_first_call as (it1 & g1 & r & H1).
  destruct (computed_then_shared_then_local _ _ _ H1)
    as (Hslot & it2 & g2 & H2 & H3).
  exists it1, g1, it2, g2, r. repeat split; assumption.
Qed.

End GeometryFacts.

(** * Properties of the dispatcher *)

Module SceneFacts.

Import Geometry.
Import Scene.
Import SceneSpec.

Local Open Scope scene_scope.

(** ** Reasoning about the monad *)

Lemma bind_Return {A B} (c : SM A) (k : A -> SM B) (s s' : GraphicsScene) (b : B) :
  bind c k s = (s', Return b) ->
  exists s1 a, c s = (s1, Return a) /\ k a s1 = (s', Return b).
Proof.
  unfold bind. destruct (c s) as [s1 [a|e]]; intros H.
  - now exists s1, a.
  - discriminate.
Qed.

Section Keeps.

Variable P : GraphicsScene -> GraphicsScene -> Prop.
Hypothesis P_refl : forall s, P s s.
Hypothesis P_trans : forall s1 s2 s3, P s1 s2 -> P s2 s3 -> P s1 s3.

Lemma keeps_ret {A} (a : A) : keeps P (ret a).
Proof. intros s. apply P_refl. Qed.

Lemma keeps_raise {A} (e : exn) : keeps P (@raise _ A e).
Proof. intros s. apply P_refl. Qed.

Lemma keeps_gets {A} (f : GraphicsScene -> A) : keeps P (gets f).
Proof. intros s. apply P_refl. Qed.

Lemma keeps_modify (f : GraphicsScene -> GraphicsScene) :
  (forall s, P s (f s)) -> keeps P (modify f).
Proof. intros H s. apply H. Qed.

Lemma keeps_bind {A B} (c : SM A) (k : A -> SM B) :
  keeps P c -> (forall a, keeps P (k a)) -> keeps P (bind c k).
Proof.
  intros Hc Hk s. unfold bind. specialize (Hc s).
  destruct (c s) as [s1 [a|e]]; simpl in *; [|exact Hc].
  eapply P_trans; [exact Hc|apply Hk].
Qed.

Lemma keeps_propagate {A} (c : SM (A * option exn)) :
  keeps P c -> keeps P (propagate c).
Proof.
  intros Hc. unfold propagate. apply keeps_bind; [exact Hc|].
  intros [a [e|]]; [apply keeps_raise|apply keeps_ret].
Qed.

End Keeps.

(** ** The hover pass leaves the gesture alone *)

Lemma same_gesture_refl (s : GraphicsScene) : same_gesture s s.
Proof. unfold same_gesture. tauto. Qed.

Lemma same_gesture_trans (s1 s2 s3 : GraphicsScene) :
  same_gesture s1 s2 -> same_gesture s2 s3 -> same_gesture s1 s3.
Proof.
  unfold same_gesture.
  intros (A1 & A2 & A3 & A4 & A5 & A6 & A7 & A8)
         (B1 & B2 & B3 & B4 & B5 & B6 & B7 & B8).
  repeat split; congruence.
Qed.

Lemma sg_ret {A} (a : A) : keeps same_gesture (ret a).
Proof. apply keeps_ret, same_gesture_refl. Qed.

Lemma sg_raise {A} (e : exn) : keeps same_gesture (@raise _ A e).
Proof. apply keeps_raise, same_gesture_refl. Qed.

Lemma sg_gets {A} (f : GraphicsScene -> A) : keeps same_gesture (gets f).
Proof. apply keeps_gets, same_gesture_refl. Qed.

Lemma sg_bind {A B} (c : SM A) (k : A -> SM B) :
  keeps same_gesture c -> (forall a, keeps same_gesture (k a)) ->
  keeps same_gesture (bind c k).
Proof. apply keeps_bind, same_gesture_trans. Qed.

Lemma sg_propagate {A} (c : SM (A * option exn)) :
  keeps same_gesture c -> keeps same_gesture (propagate c).
Proof.
  apply keeps_propagate; [apply same_gesture_refl|apply same_gesture_trans].
Qed.

Create HintDb frame.
#[local] Hint Resolve sg_ret sg_raise sg_gets : frame.

Lemma keeps_emit (n : Notification) : keeps same_gesture (emit n).
Proof. intros s. unfold same_gesture; simpl. tauto. Qed.

Lemma keeps_setFocus (item : Item) : keeps same_gesture (setFocus item).
Proof. intros s. unfold same_gesture; simpl. tauto. Qed.

Lemma keeps_set_hoverItems (f : GraphicsScene -> list Item) :
  keeps same_gesture (modify (fun s => set_hoverItems (f s) s)).
Proof. intros s. unfold same_gesture; simpl. tauto. Qed.

Lemma keeps_set_lastHoverEvent (h : option HoverEvent) :
  keeps same_gesture (modify (set_lastHoverEvent h)).
Proof. intros s. unfold same_gesture; simpl. tauto. Qed.

Lemma keeps_deliver_hover (item : Item) (event : HoverEvent) :
  keeps same_gesture (deliver_hover item event).
Proof.
  unfold deliver_hover. destruct (hoverEvent item); [|auto with frame].
  apply sg_bind; auto using keeps_emit with frame.
Qed.

Lemma keeps_itemsNearEvent (point : QPointF) (hoverable : bool) :
  keeps same_gesture (itemsNearEvent point hoverable).
Proof.
  unfold itemsNearEvent. apply sg_bind; auto with frame.
  intros views. destruct (negb views); auto with frame.
  apply sg_bind; auto with frame.
Qed.

Lemma keeps_hover_candidates (items : list Item) :
  forall event prevItems,
    keeps same_gesture (hover_candidates items event prevItems).
Proof.
  induction items as [|item rest IH]; intros event prevItems; simpl.
  - auto with frame.
  - destruct (hoverEvent item); [|apply IH].
    apply sg_bind; auto with frame. intros hs.
    apply sg_bind; auto with frame.
    + destruct (item_in item hs).
      * destruct (list_remove same_item item prevItems); auto with frame.
      * apply sg_bind; auto with frame.
        apply (keeps_set_hoverItems (fun s => hoverItems s ++ [item])).
    + intros st. apply sg_bind; auto with frame.
      apply sg_propagate; auto using keeps_deliver_hover with frame.
Qed.

Lemma keeps_hover_exits (prevItems : list Item) :
  forall event, keeps same_gesture (hover_exits prevItems event).
Proof.
  induction prevItems as [|item rest IH]; intros event; simpl.
  - auto with frame.
  - apply sg_bind; auto with frame.
    + destruct (in_scene item); auto with frame.
      apply sg_propagate; auto using keeps_deliver_hover with frame.
    + intros event'. apply sg_bind; auto with frame.
      unfold del_hoverItem.
      apply (keeps_set_hoverItems
               (fun s => filter (fun i => negb (same_item item i)) (hoverItems s))).
Qed.

Lemma keeps_sendHoverEvents (ev : QEvent) (exitOnly : bool) :
  keeps same_gesture (sendHoverEvents ev exitOnly).
Proof.
  unfold sendHoverEvents.
  apply sg_bind; auto with frame.
  - destruct exitOnly; auto with frame.
    apply sg_bind; auto using keeps_itemsNearEvent with frame.
    intros items. apply sg_bind; auto using keeps_emit with frame.
  - intros st. apply sg_bind; auto with frame. intros prevItems.
    apply sg_bind; auto using keeps_hover_candidates with frame.
    intros r. apply sg_bind; auto using keeps_hover_exits with frame.
    intros event.
    destruct (ev_type ev); auto using keeps_set_lastHoverEvent with frame.
    destruct (no_buttons ev); auto using keeps_set_lastHoverEvent with frame.
Qed.




(** ** Clicks *)

Lemma propagate_deliver_click (item : Item) (h : ClickInfo -> Reply bool)
    (ev : MouseClickEvent) (s : GraphicsScene) :
  mouseClickEvent item = Some h ->
  propagate (deliver_click item ev) s
  = (set_log (log s ++ [ClickNote (item_id item) (cev_button ev)]) s,
     if reply_raises (h (click_info ev)) then Raise HandlerError
     else Return (set_click ev (reply_value (h (click_info ev)))
                    (cev_currentItem ev))).
Proof.
  intros Hh. unfold propagate, deliver_click, bind, emit, modify, ret, raise.
  rewrite Hh. simpl. destruct (reply_raises _); reflexivity.
Qed.

(** The loop of [sendClickEvent] is the walk of the spec. *)
Lemma click_candidates_walk (items : list Item) :
  forall (ev : MouseClickEvent) (s : GraphicsScene),
    log (fst (click_candidates items ev s))
    = log s ++ click_notes (cev_button ev) (fst (fst (click_walk items ev)))
    /\ snd (click_candidates items ev s)
       = match snd (click_walk items ev) with
         | Some e => Raise e
         | None => Return (snd (fst (click_walk items ev)))
         end.
Proof.
  induction items as [|item rest IH]; intros ev s; simpl.
  - unfold ret; simpl. now rewrite app_nil_r.
  - destruct (isVisible item), (isEnabled item); simpl; try apply IH.
    destruct (mouseClickEvent item) as [h|] eqn:Eh; [|apply IH].
    unfold bind at 1. unfold bind at 2.
    rewrite (propagate_deliver_click _ _ _ Eh).
    cbn [cev_button cev_accepted cev_currentItem set_click click_info].
    set (ev1 := set_click ev (cev_accepted ev) (Some item)).
    fold (click_info ev1).
    destruct (reply_raises (h (click_info ev1))) eqn:Er; simpl.
    + split; reflexivity.
    + destruct (reply_value (h (click_info ev1))) eqn:Ev; simpl.
      * unfold bind. destruct (isFocusable item); simpl; split; reflexivity.
      * match goal with
        | |- context [click_candidates rest ?e ?t] =>
            destruct (IH e t) as [IH1 IH2]
        end.
        cbn [cev_button set_click] in IH1.
        destruct (click_walk rest _) as [[l ev3] e] eqn:Ew.
        simpl in *. rewrite IH1, IH2. cbn [log set_log].
        rewrite <- app_assoc. split; reflexivity.
Qed.

Lemma click_walk_button (items : list Item) :
  forall ev, cev_button (snd (fst (click_walk items ev))) = cev_button ev.
Proof.
  induction items as [|item rest IH]; intros ev; simpl; [reflexivity|].
  destruct (isVisible item && isEnabled item); [|apply IH].
  destruct (mouseClickEvent item) as [h|]; [|apply IH].
  destruct (reply_raises _); [reflexivity|].
  destruct (reply_value _); [reflexivity|].
  match goal with
  | |- context [click_walk rest ?e] =>
      specialize (IH e); destruct (click_walk rest e) as [[l ev3] e']
  end.
  exact IH.
Qed.

(** The item that declared during the last recorded hover event that it
    accepts clicks of a button. *)
Lemma click_search_declared (s : GraphicsScene) (ev : MouseClickEvent)
    (h0 : HoverEvent) (a : Item) (h : ClickInfo -> Reply bool) :
  lastHoverEvent s = Some h0 ->
  dict_get (cev_button ev) (clickItems h0) = Some a ->
  mouseClickEvent a = Some h ->
  let ev1 := set_click ev (cev_accepted ev) (Some a) in
  click_search ev s
  = (set_log (log s ++ [ClickNote (item_id a) (cev_button ev)]) s,
     if reply_raises (h (click_info ev1)) then Raise HandlerError
     else Return (set_click ev1 (reply_value (h (click_info ev1))) (Some a))).
Proof.
  intros Hl Hd Hh ev1. unfold click_search, bind at 1, gets.
  rewrite Hl, Hd. now rewrite (propagate_deliver_click _ _ _ Hh).
Qed.

Lemma click_search_undeclared (s : GraphicsScene) (ev : MouseClickEvent) :
  match lastHoverEvent s with
  | Some h0 => dict_get (cev_button ev) (clickItems h0)
  | None => None
  end = None ->
  has_views s = true ->
  click_search ev s
  = click_candidates (candidates s (cev_scenePos ev) false) ev s.
Proof.
  intros Hd Hv. unfold click_search, bind at 1, gets.
  rewrite Hd. unfold itemsNearEvent, bind, gets, ret. rewrite Hv. reflexivity.
Qed.

(** C10.  A pending click is dispatched while a drag item is set, and the
    drag item has no attribute named [MouseDragEvent] (an item that handles
    drags defines [mouseDragEvent]).  Then [sendClickEvent] takes its
    search branch: the click goes to the item that declared during the
    last recorded hover event that it accepts clicks of the button, if
    there is one, and otherwise to the candidates near the press, walked
    in order until one accepts; the drag item plays no part in it. *)
Theorem click_mid_drag_takes_search_path (s : GraphicsScene) (d : Item)
    (ev : MouseClickEvent) :
  dragItem s = Some d ->
  has_MouseDragEvent d = false ->
  let btn := cev_button ev in
  let declared := match lastHoverEvent s with
                  | Some h0 => dict_get btn (clickItems h0)
                  | None => None
                  end in
  sendClickEvent ev s
  = (ev' <- click_search ev ;;
     emit (MouseClickedSignal (cev_button ev')) ;;;
     ret (cev_accepted ev')) s
  /\ (forall a h,
        declared = Some a -> mouseClickEvent a = Some h ->
        log (fst (sendClickEvent ev s))
        = log s ++ ClickNote (item_id a) btn
            :: (if reply_raises
                     (h (click_info (set_click ev (cev_accepted ev) (Some a))))
                then [] else [MouseClickedSignal btn]))
  /\ (declared = None -> has_views s = true ->
      let w := click_walk (candidates s (cev_scenePos ev) false) ev in
      log (fst (sendClickEvent ev s))
      = log s ++ click_notes btn (fst (fst w))
          ++ match snd w with
             | Some _ => []
             | None => [MouseClickedSignal btn]
             end).
Proof.
  intros Hd Hm btn declared.
  assert (H1 : sendClickEvent ev s
               = (ev' <- click_search ev ;;
                  emit (MouseClickedSignal (cev_button ev')) ;;;
                  ret (cev_accepted ev')) s).
  { unfold sendClickEvent, bind at 1, gets. rewrite Hd, Hm. reflexivity. }
  split; [exact H1|]. rewrite H1. split.
  - intros a h Ha Hh. subst declared btn.
    destruct (lastHoverEvent s) as [h0|] eqn:El; [|discriminate].
    unfold bind at 1.
    rewrite (click_search_declared _ _ El Ha Hh).
    destruct (reply_raises _); simpl; [reflexivity|].
    now rewrite <- app_assoc.
  - intros Hnone Hv w. subst declared btn.
    unfold bind at 1. rewrite (click_search_undeclared _ _ Hnone Hv).
    destruct (click_candidates_walk (candidates s (cev_scenePos ev) false) ev s)
      as [Hlog Hres].
    pose proof (click_walk_button (candidates s (cev_scenePos ev) false) ev) as Hb.
    fold w in Hlog, Hres, Hb.
    destruct (click_candidates _ ev s) as [s1 r]. simpl in Hlog, Hres. subst r.
    destruct (snd w) as [e|]; simpl.
    + now rewrite Hlog, app_nil_r.
    + rewrite Hlog, Hb. now rewrite <- app_assoc.
Qed.

(** A click of the left button released while the upper item is being
    dragged with another button: the drag item has no [MouseDragEvent]
    attribute, and the click goes to the item that claimed it. *)
Lemma click_mid_drag_takes_search_path_witness :
  dragItem Inputs.claimed_mid_drag = Some Inputs.upper
  /\ has_MouseDragEvent Inputs.upper = false
  /\ log (fst (sendClickEvent Inputs.click_left Inputs.claimed_mid_drag))
     = log Inputs.claimed_mid_drag
       ++ [ClickNote 4 LeftButton; MouseClickedSignal LeftButton].
Proof.
  split; [reflexivity|]. split; [reflexivity|].
  pose proof (@click_mid_drag_takes_search_path Inputs.claimed_mid_drag
                Inputs.upper Inputs.click_left eq_refl eq_refl) as (_ & H & _).
  apply (H Inputs.claimant Inputs.accepts_click); reflexivity.
Defined.

(** ** Drag promotion *)

Lemma stays_click_false (d md t mdt : R) :
  stays_click d md t mdt = false
  <-> (d <> 0 /\ (md <= d \/ mdt <= t))%R.
Proof.
  unfold stays_click, Reqb, Rltb.
  destruct (Req_dec_T d 0), (Rlt_dec d md), (Rlt_dec t mdt); simpl;
    split; intros H; try discriminate; try reflexivity;
    try (split; [assumption|lra]); exfalso; lra.
Qed.

(** One round of the loop over the buttons, in closed form. *)
Lemma track_button_eq (ev : QEvent) (now : R) (init : bool)
    (btn : MouseButton) (s : GraphicsScene) :
  track_button ev now init btn s
  = if promotes ev now s btn
    then (set_dragButtons (dragButtons s ++ [btn]) s,
          Return (init || Nat.eqb (length (dragButtons s)) 0))
    else (s, Return init).
Proof.
  unfold track_button, promotes, travelled, elapsed.
  destruct (button_in btn (ev_buttons ev)); simpl; [|reflexivity].
  unfold bind at 1, gets.
  destruct (button_in btn (dragButtons s)); simpl; [reflexivity|].
  unfold bind at 1.
  destruct (clicks_of btn (clickEvents s)) as [|cev l]; [reflexivity|].
  unfold bind, modify, ret.
  destruct (stays_click _ _ _ _); reflexivity.
Qed.

Lemma button_in_app (b b' : MouseButton) (l : list MouseButton) :
  button_in b (l ++ [b']) = button_in b l || button_eqb b b'.
Proof.
  unfold button_in. rewrite existsb_app. simpl. now rewrite orb_false_r.
Qed.

Lemma button_eqb_refl (b : MouseButton) : button_eqb b b = true.
Proof. unfold button_eqb. destruct (MouseButton_eq_dec b b); congruence. Qed.

Lemma button_eqb_neq (b b' : MouseButton) : b <> b' -> button_eqb b b' = false.
Proof.
  intros H. unfold button_eqb. destruct (MouseButton_eq_dec b b'); congruence.
Qed.

(** Promoting another button does not change whether [btn] is promoted. *)
Lemma promotes_after_other (ev : QEvent) (now : R) (s : GraphicsScene)
    (btn other : MouseButton) :
  btn <> other ->
  promotes ev now (set_dragButtons (dragButtons s ++ [other]) s) btn
  = promotes ev now s btn.
Proof.
  intros Hne. unfold promotes. cbn [dragButtons clickEvents _moveDistance
    minDragTime set_dragButtons].
  now rewrite button_in_app, (button_eqb_neq Hne), orb_false_r.
Qed.

(** C2 (the code departs from the claim).  A faulty item, whose handlers
    raise, lies over a healthy one.  Only the candidate walk of
    [sendDragEvent] at the start of a drag wraps the handler in
    [try ... except]: there the exception is caught, a line is printed and
    the walk goes on to the healthy item.  [sendClickEvent] and
    [sendHoverEvents] have no [try] at all, and [sendDragEvent] has none
    around the call to the current drag item: in these three the
    exception of the handler leaves the method, and the healthy item is
    never reached. *)
Theorem handler_exception_leaves_dispatch :
  (* a click *)
  snd (sendClickEvent Inputs.click_left Inputs.faulty_scene) = Raise HandlerError
  /\ log (fst (sendClickEvent Inputs.click_left Inputs.faulty_scene))
     = [ClickNote 1 LeftButton]
  (* a hover pass *)
  /\ snd (sendHoverEvents Inputs.move_free false Inputs.faulty_scene)
     = Raise HandlerError
  /\ log (fst (sendHoverEvents Inputs.move_free false Inputs.faulty_scene))
     = [MouseHoverSignal [1; 2]; HoverNote 1 true false]
  (* a drag event for the current drag item *)
  /\ snd (sendDragEvent (Inputs.move_left Inputs.origin) false false
            Inputs.faulty_drag) = Raise HandlerError
  (* the first drag event of a gesture: caught *)
  /\ snd (sendDragEvent (Inputs.move_left Inputs.origin) true false
            Inputs.faulty_scene) = Return true
  /\ log (fst (sendDragEvent (Inputs.move_left Inputs.origin) true false
                 Inputs.faulty_scene))
     = [DragNote 1 LeftButton true false; Printed;
        DragNote 2 LeftButton true false].
Proof.
  repeat split; reflexivity.
Qed.

(** C4 (the code departs from the claim).  An item declared during the
    last hover pass that it accepts clicks of the left button and has since
    been removed from the scene; another item lies at the position of the
    press and would take the click.  The claim sends the click through the
    candidate walk, to that other item; [sendClickEvent] delivers it to the
    removed item, because it does not test [acceptedItem.scene() is self]
    as [sendDragEvent] does.  While the declaring item is in the scene the
    click goes to it, although another item is topmost, as the claim
    says. *)
Theorem click_goes_to_removed_item :
  (* the declaring item is present: it takes the click *)
  option_map (fun h => map (fun p => (fst p, item_id (snd p))) (clickItems h))
    (lastHoverEvent Inputs.claimed_scene) = Some [(LeftButton, 4)]
  /\ map item_id (candidates Inputs.claimed_scene Inputs.origin false) = [3; 4]
  /\ log (fst (sendClickEvent Inputs.click_left Inputs.claimed_scene))
     = log Inputs.claimed_scene
       ++ [ClickNote 4 LeftButton; MouseClickedSignal LeftButton]
  (* the declaring item has been removed: it takes the click all the same *)
  /\ option_map (fun h => map (fun p => (fst p, item_id (snd p), in_scene (snd p)))
                           (clickItems h))
       (lastHoverEvent Inputs.claimant_removed)
     = Some [(LeftButton, 4, false)]
  /\ map item_id
       (fst (fst (click_walk (candidates Inputs.claimant_removed Inputs.origin false)
                    Inputs.click_left))) = [3]
  /\ sendClickEvent Inputs.click_left Inputs.claimant_removed
     = (set_log [ClickNote 4 LeftButton; MouseClickedSignal LeftButton]
          Inputs.claimant_removed, Return true).
Proof.
  repeat split; reflexivity.
Qed.

(** ** Context menus *)

Lemma menusToAdd_step (item : Item) (sceneMenus : list PyObj) :
  menusToAdd item sceneMenus
  = match parentItem item with
    | Some p => item_contribution p ++ menusToAdd p sceneMenus
    | None => sceneMenus
    end.
Proof.
  destruct item as [id [p|] z v e f sc sh hv ck dg md cm]; simpl.
  - reflexivity.
  - unfold contribution; simpl. destruct sceneMenus; reflexivity.
Qed.

Lemma add_menus_ok (ms : list PyObj) :
  forall menu, forallb is_entry ms = true ->
               add_menus ms menu = (menu ++ entries_of ms, Return tt).
Proof.
  induction ms as [|m ms IH]; intros menu H; simpl.
  - now rewrite app_nil_r.
  - simpl in H. apply andb_prop in H as [Hm Hms].
    destruct m; try discriminate; rewrite (IH _ Hms), <- app_assoc; reflexivity.
Qed.

Lemma add_menus_bad (pre : list PyObj) (bad : PyObj) (post : list PyObj) :
  forall menu, forallb is_entry pre = true -> is_entry bad = false ->
               add_menus (pre ++ bad :: post) menu
               = (menu ++ entries_of pre, Raise PyException).
Proof.
  induction pre as [|m pre IH]; intros menu Hpre Hbad; simpl.
  - rewrite app_nil_r. destruct bad; try discriminate; reflexivity.
  - simpl in Hpre. apply andb_prop in Hpre as [Hm Hpre].
    destruct m; try discriminate; rewrite (IH _ Hpre Hbad), <- app_assoc;
      reflexivity.
Qed.

(** The first object of a list that is neither a menu nor an action. *)
Lemma first_bad (ms : list PyObj) :
  forallb is_entry ms = false ->
  exists pre bad post,
    ms = pre ++ bad :: post /\ forallb is_entry pre = true
    /\ is_entry bad = false.
Proof.
  induction ms as [|m ms IH]; simpl; intros H; [discriminate|].
  destruct (is_entry m) eqn:Em.
  - destruct (IH H) as (pre & bad & post & -> & Hpre & Hbad).
    exists (m :: pre), bad, post. simpl. rewrite Em. now repeat split.
  - exists [], m, ms. now repeat split.
Qed.

Lemma ill_typed_contribution (o : PyObj) :
  truthy_obj o = true -> well_typed o = false ->
  forallb is_entry (contribution o) = false.
Proof.
  unfold contribution. intros Ht Hw. rewrite Ht.
  destruct o; simpl in *; try discriminate; try assumption; reflexivity.
Qed.

Lemma forallb_app_false_l (l1 l2 : list PyObj) :
  forallb is_entry l1 = false -> forallb is_entry (l1 ++ l2) = false.
Proof. intros H. now rewrite forallb_app, H. Qed.

Lemma forallb_app_false_r (l1 l2 : list PyObj) :
  forallb is_entry l2 = false -> forallb is_entry (l1 ++ l2) = false.
Proof. intros H. rewrite forallb_app, H. apply andb_false_r. Qed.

(** C8, as stated, fails: the plot above the curve returns from
    [getContextMenus] an object that is neither a menu, nor an action, nor
    a list, and [addParentContextMenus] returns without raising; the
    object is false, and [or []] takes it for no contribution. *)
Lemma falsy_contribution_is_ignored :
  getContextMenus Inputs.odd_plot = Some (PyOther false)
  /\ well_typed (PyOther false) = false
  /\ addParentContextMenus (Inputs.scene_of []) Inputs.odd_curve
       Inputs.curve_menu None
     = (Inputs.scene_of [],
        [Action 1; Action 2; Separator; SubMenu 30], Return tt).
Proof.
  repeat split; reflexivity.
Qed.

(** C8 (amended).  For an item whose parent and grandparent have
    [getContextMenus]: the objects to add are the parent's contribution,
    then the grandparent's, then those of the ancestors further up and of
    the scene.  When all of them are menus or actions the menu returned
    holds the item's own entries, then a separator if there is anything to
    add, then these entries in that order.  A contribution that is true
    and is neither a menu, nor an action, nor a list of those makes the
    call raise, once the separator and the entries before the offending
    object have been added.  A contribution that is false ([None], an
    empty list, 0) counts as no contribution. *)
Theorem parent_menus_in_ancestor_order (s : GraphicsScene) (item p g : Item)
    (cp cg : PyObj) (menu : QMenu) (acceptedItem : option nat) :
  parentItem item = Some p -> getContextMenus p = Some cp ->
  parentItem p = Some g -> getContextMenus g = Some cg ->
  let adds := contribution cp ++ contribution cg
              ++ menusToAdd g (contextMenu s) in
  let result := addParentContextMenus s item menu acceptedItem in
  (forallb is_entry adds = true ->
     snd result = Return tt
     /\ snd (fst result)
        = menu ++ match adds with [] => [] | _ :: _ => [Separator] end
            ++ entries_of adds)
  /\ ((truthy_obj cp = true /\ well_typed cp = false)
      \/ (truthy_obj cg = true /\ well_typed cg = false) ->
      snd result = Raise PyException
      /\ exists pre bad post,
           adds = pre ++ bad :: post /\ forallb is_entry pre = true
           /\ is_entry bad = false
           /\ snd (fst result) = menu ++ Separator :: entries_of pre)
  /\ (truthy_obj cp = false -> contribution cp = [])
  /\ (truthy_obj cg = false -> contribution cg = []).
Proof.
  intros Hp Hcp Hg Hcg adds result.
  assert (Hadds : menusToAdd item (contextMenu s) = adds).
  { rewrite (menusToAdd_step item), Hp, (menusToAdd_step p), Hg.
    unfold item_contribution. rewrite Hcp, Hcg. subst adds.
    now rewrite app_assoc. }
  subst result. unfold addParentContextMenus, scene_getContextMenus.
  rewrite Hadds.
  split; [|split; [|split]].
  - intros Hok. destruct adds as [|a adds'].
    + simpl. now rewrite app_nil_r.
    + rewrite (add_menus_ok _ _ Hok). simpl. split; [reflexivity|].
      now rewrite <- app_assoc.
  - intros Hbad.
    assert (Hf : forallb is_entry adds = false).
    { subst adds. destruct Hbad as [[Ht Hw]|[Ht Hw]].
      - apply forallb_app_false_l. now apply ill_typed_contribution.
      - apply forallb_app_false_r, forallb_app_false_l.
        now apply ill_typed_contribution. }
    destruct (first_bad _ Hf) as (pre & bad & post & E & Hpre & Hb).
    assert (Hm : match adds with
                 | [] => menu
                 | _ :: _ => menu ++ [Separator]
                 end = menu ++ [Separator]).
    { rewrite E. destruct pre; reflexivity. }
    rewrite Hm, E, (add_menus_bad _ _ post _ Hpre Hb). simpl.
    split; [reflexivity|].
    exists pre, bad, post. repeat split; try assumption.
    now rewrite <- app_assoc.
  - intros Ht. unfold contribution. now rewrite Ht.
  - intros Ht. unfold contribution. now rewrite Ht.
Qed.

(** The curve in the plot in the layout: both ancestors contribute a
    menu, and the menu shown is the curve's two actions, a separator, the
    plot's menu and the layout's menu. *)
Lemma parent_menus_in_ancestor_order_witness :
  parentItem Inputs.curve = Some Inputs.plot
  /\ getContextMenus Inputs.plot = Some (PyList [PyQMenu 20])
  /\ parentItem Inputs.plot = Some Inputs.layout
  /\ getContextMenus Inputs.layout = Some (PyQMenu 30)
  /\ snd (fst (addParentContextMenus (Inputs.scene_of []) Inputs.curve
                 Inputs.curve_menu None))
     = [Action 1; Action 2; Separator; SubMenu 20; SubMenu 30].
Proof.
  repeat (split; [reflexivity|]).
  pose proof (@parent_menus_in_ancestor_order (Inputs.scene_of [])
                Inputs.curve Inputs.plot Inputs.layout
                (PyList [PyQMenu 20]) (PyQMenu 30) Inputs.curve_menu None
                eq_refl eq_refl eq_refl eq_refl) as (H & _).
  apply H. reflexivity.
Defined.

End SceneFacts.

(** * Further properties of LRUCache *)

Module LRUExtra.

Section Extra.

Variables K V : Type.
Variable K_eq_dec : forall a b : K, {a = b} + {a <> b}.

Local Abbreviation Item := (LRU.Item K V).
Local Abbreviation Cache := (LRU.LRUCache K V).
Local Abbreviation key_of := (@LRU.item_key K V).
Local Abbreviation time_of := (@LRU.item_time K V).
Local Abbreviation wf := (@LRU.wf K V).
Local Abbreviation timely := (@LRU.timely K V).
Local Abbreviation dict_get := (@LRU.dict_get K V K_eq_dec).
Local Abbreviation setitem := (@LRU.__setitem__ K V K_eq_dec).
Local Abbreviation get := (@LRU.get K V K_eq_dec).

Lemma has_key_true (k : K) (it : Item) :
  LRU.has_key K_eq_dec k it = true <-> k = key_of it.
Proof.
  unfold LRU.has_key. destruct (K_eq_dec k (key_of it)); split; congruence.
Qed.

Lemma dict_get_update (k : K) (v : V) (t : nat) (d : list Item) (it : Item) :
  dict_get k d = Some it ->
  dict_get k (LRU.dict_update K_eq_dec k v t d) = Some (LRU.mkItem k v t).
Proof.
  unfold LRU.dict_get, LRU.dict_update.
  induction d as [|a d IH]; simpl; intros H; [discriminate|].
  destruct (LRU.has_key K_eq_dec k a) eqn:Ea; simpl.
  - unfold LRU.has_key; simpl. destruct (K_eq_dec k k); [reflexivity|congruence].
  - rewrite Ea. now apply IH.
Qed.

Lemma keys_update (k : K) (v : V) (t : nat) (d : list Item) :
  map key_of (LRU.dict_update K_eq_dec k v t d) = map key_of d.
Proof.
  unfold LRU.dict_update. induction d as [|a d IH]; simpl; [reflexivity|].
  rewrite IH. destruct (LRU.has_key K_eq_dec k a) eqn:Ea; [|reflexivity].
  apply has_key_true in Ea. simpl. now rewrite Ea.
Qed.

Lemma keys_touch (k : K) (t : nat) (d : list Item) :
  map key_of (LRU.dict_touch K_eq_dec k t d) = map key_of d.
Proof.
  unfold LRU.dict_touch. induction d as [|a d IH]; simpl; [reflexivity|].
  rewrite IH. destruct (LRU.has_key K_eq_dec k a); reflexivity.
Qed.

Lemma resize_is_filter (c : Cache) :
  exists f, LRU._dict (LRU._resizeTo K_eq_dec c) = filter f (LRU._dict c).
Proof.
  unfold LRU._resizeTo; cbn [LRU._dict]. rewrite LRUFacts.del_loop_filter.
  eexists; reflexivity.
Qed.

(** ** One operation keeps the invariants *)

Lemma setitem_wf (c : Cache) (k : K) (v : V) : wf c -> wf (setitem c k v).
Proof.
  intros Hwf. unfold LRU.wf, LRU.__setitem__.
  destruct (LRU.dict_get K_eq_dec k (LRU._dict c)) eqn:Eg; cbn [LRU._dict].
  - now rewrite keys_update.
  - rewrite map_app. simpl. apply LRUFacts.NoDup_app_iff_keys.
    + destruct (_ >? _)%Z; [|exact Hwf].
      destruct (resize_is_filter c) as [f ->].
      now apply LRUFacts.NoDup_keys_filter.
    + apply (LRUFacts.dict_get_None K_eq_dec) in Eg.
      intros Hin. apply Eg.
      destruct (_ >? _)%Z; [|exact Hin].
      destruct (resize_is_filter c) as [f Hf]. rewrite Hf in Hin.
      apply in_map_iff in Hin as [b [Hb1 Hb2]].
      apply filter_In in Hb2 as [Hb2 _].
      apply in_map_iff. now exists b.
Qed.

Lemma setitem_timely (c : Cache) (k : K) (v : V) :
  timely c -> timely (setitem c k v).
Proof.
  intros Htm it. unfold LRU.__setitem__.
  destruct (LRU.dict_get K_eq_dec k (LRU._dict c)) eqn:Eg;
    cbn [LRU._dict LRU._nextTime].
  - unfold LRU.dict_update. intros Hin.
    apply in_map_iff in Hin as [b [Hb1 Hb2]].
    destruct (LRU.has_key K_eq_dec k b).
    + subst it. simpl. lia.
    + subst it. specialize (Htm b Hb2). lia.
  - intros Hin. apply in_app_or in Hin as [Hin|[<-|[]]].
    + destruct (_ >? _)%Z.
      * destruct (resize_is_filter c) as [f Hf]. rewrite Hf in Hin.
        apply filter_In in Hin as [Hin _].
        specialize (Htm it Hin). unfold LRU._resizeTo; cbn [LRU._nextTime]. lia.
      * specialize (Htm it Hin). lia.
    + simpl. lia.
Qed.

Lemma setitem_params (c : Cache) (k : K) (v : V) :
  LRU.maxSize (setitem c k v) = LRU.maxSize c
  /\ LRU.resizeTo (setitem c k v) = LRU.resizeTo c.
Proof.
  unfold LRU.__setitem__.
  destruct (LRU.dict_get K_eq_dec k (LRU._dict c)); cbn; [tauto|].
  destruct (_ >? _)%Z; cbn; tauto.
Qed.

Lemma setitem_bound (c : Cache) (k : K) (v : V) :
  wf c -> (1 <= LRU.resizeTo c < LRU.maxSize c)%Z ->
  (LRU.__len__ c <= LRU.maxSize c)%Z ->
  (LRU.__len__ (setitem c k v) <= LRU.maxSize c)%Z.
Proof.
  intros Hwf Hr Hlen. unfold LRU.__len__ in *. unfold LRU.__setitem__.
  destruct (LRU.dict_get K_eq_dec k (LRU._dict c)) eqn:Eg; cbn [LRU._dict].
  - unfold LRU.dict_update. now rewrite length_map.
  - rewrite length_app. simpl.
    destruct (Z.gtb_spec (LRU.__len__ c + 1) (LRU.maxSize c)) as [Hgt|Hle];
      unfold LRU.__len__ in *; [|lia].
    assert (H0 : (0 <= LRU.resizeTo c)%Z) by lia.
    destruct (LRUFacts._resizeTo_spec K_eq_dec Hwf H0) as (Hl & _).
    rewrite Hl. lia.
Qed.

Lemma get_state (c : Cache) (k : K) (default : option V) :
  let c' := fst (get c k default) in
  map key_of (LRU._dict c') = map key_of (LRU._dict c)
  /\ LRU.maxSize c' = LRU.maxSize c /\ LRU.resizeTo c' = LRU.resizeTo c
  /\ (timely c -> timely c').
Proof.
  unfold LRU.get, LRU.__getitem__.
  destruct (LRU.dict_get K_eq_dec k (LRU._dict c)); cbn; [|tauto].
  rewrite keys_touch. repeat split.
  intros Htm it Hin. cbn [LRU._dict LRU._nextTime] in *.
  unfold LRU.dict_touch in Hin. apply in_map_iff in Hin as [b [Hb1 Hb2]].
  specialize (Htm b Hb2).
  destruct (LRU.has_key K_eq_dec k b); subst it; simpl; lia.
Qed.

Lemma delitem_state (c : Cache) (k : K) :
  let c' := fst (LRU.__delitem__ K_eq_dec c k) in
  (exists f, LRU._dict c' = filter f (LRU._dict c))
  /\ LRU.maxSize c' = LRU.maxSize c /\ LRU.resizeTo c' = LRU.resizeTo c
  /\ LRU._nextTime c' = LRU._nextTime c.
Proof.
  unfold LRU.__delitem__.
  destruct (LRU.dict_get K_eq_dec k (LRU._dict c)); cbn.
  - repeat split. unfold LRU.dict_del. eexists; reflexivity.
  - repeat split. exists (fun _ => true).
    symmetry. apply LRUFacts.filter_all. reflexivity.
Qed.

Lemma filter_length_le (f : Item -> bool) (d : list Item) :
  length (filter f d) <= length d.
Proof.
  induction d as [|a d IH]; simpl; [lia|]. destruct (f a); simpl; lia.
Qed.

(** What every operation keeps. *)
Lemma step_invariants (c : Cache) (o : LRU.op K V) :
  wf c -> timely c ->
  let c' := LRU.step K_eq_dec c o in
  wf c' /\ timely c'
  /\ LRU.maxSize c' = LRU.maxSize c /\ LRU.resizeTo c' = LRU.resizeTo c
  /\ ((1 <= LRU.resizeTo c < LRU.maxSize c)%Z ->
      (LRU.__len__ c <= LRU.maxSize c)%Z ->
      (LRU.__len__ c' <= LRU.maxSize c)%Z).
Proof.
  intros Hwf Htm. destruct o as [k v|k|k]; simpl.
  - destruct (setitem_params c k v) as [Hm Hr].
    repeat split; auto using setitem_wf, setitem_timely.
    intros; now apply setitem_bound.
  - destruct (get_state c k None) as (Hk & Hm & Hr & Ht).
    repeat split; auto.
    + unfold LRU.wf. now rewrite Hk.
    + intros _ Hlen. unfold LRU.__len__ in *.
      rewrite <- (length_map key_of), Hk, length_map. exact Hlen.
  - destruct (delitem_state c k) as ([f Hf] & Hm & Hr & Ht).
    repeat split; auto.
    + unfold LRU.wf. rewrite Hf. now apply LRUFacts.NoDup_keys_filter.
    + intros it Hin. rewrite Hf in Hin. apply filter_In in Hin as [Hin _].
      specialize (Htm it Hin). lia.
    + intros _ Hlen. unfold LRU.__len__ in *. rewrite Hf.
      pose proof (filter_length_le f (LRU._dict c)). lia.
Qed.

Lemma run_invariants (ops : list (LRU.op K V)) : forall c : Cache,
  wf c -> timely c ->
  let c' := LRU.run K_eq_dec c ops in
  wf c' /\ timely c'
  /\ LRU.maxSize c' = LRU.maxSize c /\ LRU.resizeTo c' = LRU.resizeTo c
  /\ ((1 <= LRU.resizeTo c < LRU.maxSize c)%Z ->
      (LRU.__len__ c <= LRU.maxSize c)%Z ->
      (LRU.__len__ c' <= LRU.maxSize c)%Z).
Proof.
  induction ops as [|o ops IH]; intros c Hwf Htm; simpl.
  - repeat split; auto.
  - destruct (step_invariants o Hwf Htm) as (H1 & H2 & H3 & H4 & H5).
    destruct (IH _ H1 H2) as (I1 & I2 & I3 & I4 & I5).
    unfold LRU.run in *. repeat split; auto; try congruence.
    intros Hr Hlen. rewrite <- H3. apply I5; rewrite ?H3, ?H4; auto.
Qed.

Lemma new_cache_invariants (m r : Z) (ops : list (LRU.op K V)) :
  let c := LRU.run K_eq_dec (LRU.mkCache m r 0 [] 0 0) ops in
  wf c /\ timely c /\ LRU.maxSize c = m /\ LRU.resizeTo c = r
  /\ ((1 <= r < m)%Z -> (LRU.__len__ c <= m)%Z).
Proof.
  destruct (@run_invariants ops (LRU.mkCache m r 0 [] 0 0))
    as (H1 & H2 & H3 & H4 & H5).
  - constructor.
  - intros it [].
  - simpl in *. repeat split; auto.
    intros Hr. apply H5; [exact Hr|]. unfold LRU.__len__; simpl. lia.
Qed.

(** X1.  A value that has just been stored is what [get] returns for its
    key, whether the key was new or not and whether the write evicted or
    not. *)
Theorem lru_set_then_get (c : Cache) (k : K) (v : V) (default : option V) :
  snd (get (setitem c k v) k default) = Some v.
Proof.
  unfold LRU.get, LRU.__getitem__, LRU.__setitem__.
  destruct (LRU.dict_get K_eq_dec k (LRU._dict c)) as [it|] eqn:Eg;
    cbn [LRU._dict].
  - now rewrite (@dict_get_update k v (LRU._nextTime c) _ _ Eg).
  - set (c1 := if (LRU.__len__ c + 1 >? LRU.maxSize c)%Z
               then LRU._resizeTo K_eq_dec c else c).
    assert (H1 : LRU.dict_get K_eq_dec k (LRU._dict c1) = None).
    { subst c1. destruct (_ >? _)%Z; [|exact Eg].
      destruct (resize_is_filter c) as [f ->].
      apply LRUFacts.dict_get_None. apply LRUFacts.dict_get_None in Eg.
      intros Hin. apply Eg.
      apply in_map_iff in Hin as [b [Hb1 Hb2]].
      apply filter_In in Hb2 as [Hb2 _].
      apply in_map_iff. now exists b. }
    now rewrite (@LRUFacts.dict_get_app_new _ _ K_eq_dec k v
                   (LRU._nextTime c1) _ H1).
Qed.

(** X2.  A cache created with [1 <= resizeTo < maxSize] and used through
    [cache[k] = v], [cache.get(k)] and [del cache[k]] never holds more than
    [maxSize] entries, and its keys stay pairwise distinct. *)
Theorem lru_never_exceeds_maxSize (m r : Z) (ops : list (LRU.op K V)) :
  (1 <= r < m)%Z ->
  let c := LRU.run K_eq_dec (LRU.mkCache m r 0 [] 0 0) ops in
  (LRU.__len__ c <= m)%Z /\ NoDup (LRU.keys c).
Proof.
  intros Hr c.
  destruct (new_cache_invariants m r ops) as (H1 & _ & _ & _ & H5).
  split; [now apply H5|exact H1].
Qed.

(** X4.  In a cache reached from a new one, a write of a new key that
    finds the cache full runs one eviction pass, which removes
    [resizeTo] entries; every entry it removes was touched no later than
    every entry that stays. *)
Theorem lru_evicts_least_recent (m r : Z) (ops : list (LRU.op K V))
    (k : K) (v : V) :
  (0 <= r < m)%Z ->
  let c := LRU.run K_eq_dec (LRU.mkCache m r 0 [] 0 0) ops in
  dict_get k (LRU._dict c) = None ->
  (LRU.__len__ c + 1 > m)%Z ->
  let c' := setitem c k v in
  LRU.passes c' = S (LRU.passes c)
  /\ (LRU.__len__ c' = LRU.__len__ c - r + 1)%Z
  /\ (forall kept gone,
        In kept (LRU._dict c') -> In gone (LRU._dict c) ->
        ~ In gone (LRU._dict c') -> time_of gone <= time_of kept).
Proof.
  intros Hr c Hk Hfull c'.
  destruct (new_cache_invariants m r ops) as (Hwf & Htm & Hm & Hrr & _).
  fold c in Hwf, Htm, Hm, Hrr.
  destruct (@LRUFacts.setitem_overflow _ _ K_eq_dec c k v)
    as (Hp & Hl & _ & _ & Hold); auto; try lia.
  fold c' in Hp, Hl, Hold.
  split; [exact Hp|]. split; [|exact Hold].
  unfold LRU.__len__ in *. rewrite Hl, Hrr. lia.
Qed.

Lemma touched_item (k : K) (t : nat) (d : list Item) (it : Item) :
  dict_get k d = Some it ->
  In (LRU.mkItem (key_of it) (LRU.item_value it) t)
     (LRU.dict_touch K_eq_dec k t d)
  /\ key_of it = k /\ In it d.
Proof.
  unfold LRU.dict_get, LRU.dict_touch.
  induction d as [|a d IH]; simpl; intros H; [discriminate|].
  destruct (LRU.has_key K_eq_dec k a) eqn:Ea.
  - inversion H; subst a. apply has_key_true in Ea.
    repeat split; auto.
  - destruct (IH H) as (H1 & H2 & H3). repeat split; auto.
Qed.

Lemma same_key_same_item (d : list Item) (a b : Item) :
  NoDup (map key_of d) -> In a d -> In b d -> key_of a = key_of b -> a = b.
Proof.
  induction d as [|x d IH]; simpl; intros Hnd Ha Hb E; [destruct Ha|].
  inversion Hnd as [|? ? Hnotin Hrest]; subst.
  destruct Ha as [<-|Ha], Hb as [<-|Hb]; auto.
  - exfalso. apply Hnotin. rewrite E. now apply in_map.
  - exfalso. apply Hnotin. rewrite <- E. now apply in_map.
Qed.

(** X5.  Reading a key refreshes it: when the very next write is a new
    key that finds the cache full, the key that was just read survives
    the eviction pass, however long ago it had been stored. *)
Theorem lru_read_survives_eviction (m r : Z) (ops : list (LRU.op K V))
    (k k' : K) (v : V) (it : Item) :
  (0 <= r < m)%Z ->
  let c := LRU.run K_eq_dec (LRU.mkCache m r 0 [] 0 0) ops in
  dict_get k (LRU._dict c) = Some it ->
  dict_get k' (LRU._dict c) = None ->
  (LRU.__len__ c + 1 > m)%Z ->
  let c' := setitem (fst (get c k None)) k' v in
  LRU.passes c' = S (LRU.passes c) /\ In k (LRU.keys c').
Proof.
  intros Hr c Hk Hk' Hfull c'.
  destruct (new_cache_invariants m r ops) as (Hwf & Htm & Hm & Hrr & _).
  fold c in Hwf, Htm, Hm, Hrr.
  destruct (@touched_item k (LRU._nextTime c) _ _ Hk) as (Hin & Hkey & Hit).
  set (kt := LRU.mkItem (key_of it) (LRU.item_value it) (LRU._nextTime c)) in *.
  subst c'. unfold LRU.get, LRU.__getitem__. rewrite Hk. cbn [fst].
  set (c1 := LRU.mkCache _ _ _ _ _ _).
  assert (Hwf1 : wf c1).
  { unfold LRU.wf, c1. cbn [LRU._dict]. now rewrite keys_touch. }
  assert (Hlen1 : length (LRU._dict c1) = length (LRU._dict c)).
  { unfold c1; cbn [LRU._dict]. unfold LRU.dict_touch. apply length_map. }
  assert (Hk1 : LRU.dict_get K_eq_dec k' (LRU._dict c1) = None).
  { apply LRUFacts.dict_get_None. unfold c1; cbn [LRU._dict].
    rewrite keys_touch. now apply LRUFacts.dict_get_None in Hk'. }
  unfold LRU.__setitem__. rewrite Hk1.
  assert (Hgt : (LRU.__len__ c1 + 1 >? LRU.maxSize c1)%Z = true).
  { apply Z.gtb_lt. unfold LRU.__len__ in *. rewrite Hlen1.
    unfold c1; cbn [LRU.maxSize]. lia. }
  rewrite Hgt.
  assert (H0 : (0 <= LRU.resizeTo c1)%Z) by (unfold c1; cbn; lia).
  destruct (LRUFacts._resizeTo_spec K_eq_dec Hwf1 H0)
    as (Hl & Hp & _ & _ & _ & _ & Hsub & Hold).
  assert (Hl' : length (LRU._dict (LRU._resizeTo K_eq_dec c1))
                = length (LRU._dict c) - Z.to_nat r).
  { rewrite Hl, Hlen1. unfold c1; cbn [LRU.resizeTo]. now rewrite Hrr. }
  cbn [LRU.passes LRU._dict]. split; [rewrite Hp; reflexivity|].
  unfold LRU.keys; cbn [LRU._dict]. rewrite map_app. apply in_or_app. left.
  destruct (resize_is_filter c1) as [f Hf].
  destruct (f kt) eqn:Ef.
  - rewrite <- Hkey. change (key_of it) with (key_of kt). apply in_map.
    rewrite Hf. apply filter_In. split; [exact Hin|exact Ef].
  - assert (Hno : ~ In kt (LRU._dict (LRU._resizeTo K_eq_dec c1))).
    { rewrite Hf. intros H. apply filter_In in H as [_ H]. congruence. }
    clear Hf. exfalso.
    destruct (LRU._dict (LRU._resizeTo K_eq_dec c1)) as [|o rest] eqn:Ed.
    + simpl in Hl'. unfold LRU.__len__ in Hfull. lia.
    + assert (Ho : In o (LRU._dict c1)) by (apply Hsub; now left).
      specialize (Hold o kt (or_introl eq_refl) Hin Hno).
      unfold c1 in Ho; cbn [LRU._dict] in Ho.
      unfold LRU.dict_touch in Ho. apply in_map_iff in Ho as [b [Hb1 Hb2]].
      destruct (LRU.has_key K_eq_dec k b) eqn:Eb.
      * apply has_key_true in Eb.
        assert (b = it).
        { apply (@same_key_same_item (LRU._dict c)); auto. congruence. }
        subst b. apply Hno. left. now rewrite <- Hb1.
      * subst o. specialize (Htm b Hb2). simpl in Hold. lia.
Qed.

Lemma setitem_no_resize (c : Cache) (k : K) (v : V) :
  LRU.resizeTo c = 0%Z ->
  dict_get k (LRU._dict c) = None ->
  LRU.keys (setitem c k v) = LRU.keys c ++ [k]
  /\ LRU.resizeTo (setitem c k v) = 0%Z.
Proof.
  intros Hr Hk. unfold LRU.__setitem__. rewrite Hk.
  destruct (_ >? _)%Z.
  - unfold LRU._resizeTo, py_slice_to. rewrite Hr. cbn.
    unfold LRU.keys; cbn. rewrite map_app. now split.
  - unfold LRU.keys; cbn. rewrite map_app. now split.
Qed.

Lemma set_all_no_resize (kvs : list (K * V)) : forall c : Cache,
  LRU.resizeTo c = 0%Z ->
  NoDup (map fst kvs) ->
  (forall k, In k (map fst kvs) -> ~ In k (LRU.keys c)) ->
  LRU.keys (LRU.set_all K_eq_dec c kvs) = LRU.keys c ++ map fst kvs.
Proof.
  induction kvs as [|[k v] kvs IH]; intros c Hr Hnd Hfresh; simpl.
  - now rewrite app_nil_r.
  - simpl in Hnd. inversion Hnd as [|? ? Hk Hnd']; subst.
    assert (Hget : dict_get k (LRU._dict c) = None).
    { apply LRUFacts.dict_get_None. apply Hfresh. now left. }
    destruct (@setitem_no_resize c k v Hr Hget) as [Hkeys Hr'].
    unfold LRU.set_all in *. simpl. rewrite IH; auto.
    + rewrite Hkeys, <- app_assoc. reflexivity.
    + intros k' Hk' Hin. rewrite Hkeys in Hin.
      apply in_app_or in Hin as [Hin|[<-|[]]].
      * apply (Hfresh k'); [now right|exact Hin].
      * contradiction.
Qed.

(** X6.  [LRUCache(maxSize, 0)] passes the assertion of the constructor,
    and it never evicts: the eviction pass deletes the first 0 entries,
    so every distinct key written stays and the size grows past
    [maxSize]. *)
Theorem lru_resizeTo_zero_never_evicts (m : Z) (kvs : list (K * V)) :
  (0 < m)%Z ->
  NoDup (map fst kvs) ->
  LRU.__init__ K V m 0 = Return (LRU.mkCache m 0 0 [] 0 0)
  /\ LRU.keys (LRU.set_all K_eq_dec (LRU.mkCache m 0 0 [] 0 0) kvs)
     = map fst kvs.
Proof.
  intros Hm Hnd. split.
  - unfold LRU.__init__. destruct (Z.ltb_spec 0 m); [reflexivity|lia].
  - rewrite set_all_no_resize;
      [reflexivity|reflexivity|exact Hnd|intros k _ []].
Qed.

(** X7.  [items(accessTime=True)] yields, once for every entry of the
    cache, the key and the value, ordered by the time of the last access,
    oldest first.  [items()] goes through the entries in the order of the
    dictionary and yields with each key the whole entry
    [[key, value, time]], not the value: the two calls yield the same
    keys, up to their order, and have no pair in common. *)
Theorem lru_items_by_access_time (c : Cache) :
  (exists l,
      LRU.items c true
      = map (fun x => (key_of x, @LRU.YieldValue K V (LRU.item_value x))) l
      /\ Permutation l (LRU._dict c)
      /\ LRU.ascending l)
  /\ LRU.items c false = map (fun x => (key_of x, @LRU.YieldEntry K V x)) (LRU._dict c)
  /\ Permutation (map fst (LRU.items c true)) (map fst (LRU.items c false))
  /\ (forall p, In p (LRU.items c true) -> ~ In p (LRU.items c false)).
Proof.
  unfold LRU.items. split; [|split; [reflexivity|split]].
  - exists (LRU.sorted_by_time (LRU._dict c)). split; [reflexivity|].
    split; [apply LRUFacts.sorted_by_time_perm|].
    apply LRUFacts.sorted_by_time_ascending.
  - rewrite !map_map. cbn [fst].
    apply Permutation_map, LRUFacts.sorted_by_time_perm.
  - intros p Ht Hf.
    apply in_map_iff in Ht as (a & <- & _).
    apply in_map_iff in Hf as (b & E & _). discriminate.
Qed.

Lemma dict_get_del_same (k : K) (d : list Item) :
  dict_get k (LRU.dict_del K_eq_dec k d) = None.
Proof.
  unfold LRU.dict_get, LRU.dict_del. induction d as [|a d IH]; simpl; auto.
  destruct (LRU.has_key K_eq_dec k a) eqn:Ea; simpl; [exact IH|].
  now rewrite Ea.
Qed.

Lemma dict_get_del_other (k k' : K) (d : list Item) :
  k' <> k ->
  dict_get k' (LRU.dict_del K_eq_dec k d) = dict_get k' d.
Proof.
  intros Hne. unfold LRU.dict_get, LRU.dict_del.
  induction d as [|a d IH]; simpl; auto.
  destruct (LRU.has_key K_eq_dec k a) eqn:Ea; simpl.
  - apply has_key_true in Ea.
    destruct (LRU.has_key K_eq_dec k' a) eqn:Ea'; [|exact IH].
    apply has_key_true in Ea'. congruence.
  - destruct (LRU.has_key K_eq_dec k' a); [reflexivity|exact IH].
Qed.

(** X8.  [del cache[k]] raises [KeyError] and changes nothing when the
    key is missing; otherwise the key is gone afterwards ([get] returns
    the default for it, and a second [del] raises) and every other key is
    looked up as before. *)
Theorem lru_delete_then_get (c : Cache) (k : K) (default : option V) :
  (dict_get k (LRU._dict c) = None ->
   LRU.__delitem__ K_eq_dec c k = (c, Raise KeyError))
  /\ (dict_get k (LRU._dict c) <> None ->
      let c' := fst (LRU.__delitem__ K_eq_dec c k) in
      snd (LRU.__delitem__ K_eq_dec c k) = Return tt
      /\ get c' k default = (c', default)
      /\ snd (LRU.__delitem__ K_eq_dec c' k) = Raise KeyError
      /\ forall k', k' <> k ->
           dict_get k' (LRU._dict c') = dict_get k' (LRU._dict c)).
Proof.
  unfold LRU.__delitem__. split.
  - intros H. now rewrite H.
  - intros H. destruct (LRU.dict_get K_eq_dec k (LRU._dict c)) eqn:Eg;
      [|contradiction].
    cbn [fst snd LRU._dict]. split; [reflexivity|]. split; [|split].
    + unfold LRU.get, LRU.__getitem__. cbn [LRU._dict].
      now rewrite dict_get_del_same.
    + now rewrite dict_get_del_same.
    + intros k' Hne. now apply dict_get_del_other.
Qed.

(** ** The values held *)

Lemma dict_get_In (k : K) (d : list Item) (it : Item) :
  dict_get k d = Some it -> In it d /\ k = key_of it.
Proof.
  unfold LRU.dict_get. intros H. apply find_some in H as [H1 H2].
  split; [exact H1|]. now apply has_key_true.
Qed.

Lemma getitem_stored (P : K -> V -> Prop) (c : Cache) (k : K) :
  LRU.stored P c ->
  LRU.stored P (fst (LRU.__getitem__ K_eq_dec c k))
  /\ forall v, snd (LRU.__getitem__ K_eq_dec c k) = Return v -> P k v.
Proof.
  intros Hs. unfold LRU.__getitem__.
  destruct (dict_get k (LRU._dict c)) as [item|] eqn:Eg; cbn [fst snd].
  - apply dict_get_In in Eg as [Hin Hk]. split.
    + intros it Hi. cbn [LRU._dict] in Hi. unfold LRU.dict_touch in Hi.
      apply in_map_iff in Hi as [b [Hb1 Hb2]]. specialize (Hs b Hb2).
      destruct (LRU.has_key K_eq_dec k b); subst it; exact Hs.
    + intros v Hv. inversion Hv; subst v. rewrite Hk. now apply Hs.
  - split; [exact Hs|discriminate].
Qed.

Lemma get_stored (P : K -> V -> Prop) (c c' : Cache) (k : K) (r : option V) :
  LRU.stored P c ->
  get c k None = (c', r) ->
  LRU.stored P c' /\ forall v, r = Some v -> P k v.
Proof.
  intros Hs. destruct (getitem_stored k Hs) as [H1 H2]. unfold LRU.get.
  destruct (LRU.__getitem__ K_eq_dec c k) as [c1 [v|e]]; cbn [fst snd] in *;
    intros H; inversion H; subst; split; try assumption.
  - intros v' Hv. inversion Hv; subst. now apply H2.
  - discriminate.
Qed.

Lemma setitem_stored (P : K -> V -> Prop) (c : Cache) (k : K) (v : V) :
  (forall it, In it (LRU._dict c) -> key_of it <> k ->
              P (key_of it) (LRU.item_value it)) ->
  P k v ->
  LRU.stored P (setitem c k v).
Proof.
  intros Hs Hp. unfold LRU.__setitem__.
  destruct (dict_get k (LRU._dict c)) as [item|] eqn:Eg.
  - intros it Hi. cbn [LRU._dict] in Hi. unfold LRU.dict_update in Hi.
    apply in_map_iff in Hi as [b [Hb1 Hb2]].
    destruct (LRU.has_key K_eq_dec k b) eqn:Eh; subst it.
    + exact Hp.
    + apply Hs; [exact Hb2|]. intros E.
      assert (LRU.has_key K_eq_dec k b = true) by (now apply has_key_true).
      congruence.
  - assert (Hno : forall it, In it (LRU._dict c) -> key_of it <> k).
    { intros it Hi E. apply (proj1 (@LRUFacts.dict_get_None _ _ K_eq_dec k _) Eg).
      apply in_map_iff. now exists it. }
    intros it Hi. cbn [LRU._dict] in Hi. apply in_app_or in Hi as [Hi|Hi].
    + destruct (LRU.__len__ c + 1 >? LRU.maxSize c)%Z.
      * destruct (resize_is_filter c) as [f Hf]. rewrite Hf in Hi.
        apply filter_In in Hi as [Hi _]. apply Hs; [exact Hi|now apply Hno].
      * apply Hs; [exact Hi|now apply Hno].
    + destruct Hi as [<-|[]]. exact Hp.
Qed.

Lemma delitem_stored (P : K -> V -> Prop) (c : Cache) (k : K) :
  LRU.stored P c -> LRU.stored P (fst (LRU.__delitem__ K_eq_dec c k)).
Proof.
  intros Hs. unfold LRU.__delitem__.
  destruct (dict_get k (LRU._dict c)); cbn [fst]; [|exact Hs].
  intros it Hi. cbn [LRU._dict] in Hi. unfold LRU.dict_del in Hi.
  apply filter_In in Hi as [Hi _]. now apply Hs.
Qed.

Lemma last_write_snoc (k : K) (ops : list (LRU.op K V)) (o : LRU.op K V) :
  LRU.last_write K_eq_dec k (ops ++ [o])
  = match o with
    | LRU.Write k' v =>
        if K_eq_dec k k' then Some v else LRU.last_write K_eq_dec k ops
    | _ => LRU.last_write K_eq_dec k ops
    end.
Proof.
  induction ops as [|a ops IH]; simpl.
  - destruct o as [k0 v0|k0|k0]; reflexivity.
  - rewrite IH. destruct o as [k0 v0|k0|k0]; try reflexivity.
    destruct (K_eq_dec k k0); reflexivity.
Qed.

Lemma run_snoc (c : Cache) (ops : list (LRU.op K V)) (o : LRU.op K V) :
  LRU.run K_eq_dec c (ops ++ [o])
  = LRU.step K_eq_dec (LRU.run K_eq_dec c ops) o.
Proof. unfold LRU.run. now rewrite fold_left_app. Qed.

Lemma run_holds_last_writes (m r : Z) (ops : list (LRU.op K V)) :
  LRU.stored (fun k v => LRU.last_write K_eq_dec k ops = Some v)
    (LRU.run K_eq_dec (LRU.mkCache m r 0 [] 0 0) ops).
Proof.
  induction ops as [|o ops IH] using rev_ind.
  - intros it [].
  - rewrite run_snoc. destruct o as [k v|k|k]; cbn [LRU.step].
    + apply setitem_stored.
      * intros it Hi Hne. rewrite last_write_snoc.
        destruct (K_eq_dec (key_of it) k); [contradiction|]. now apply IH.
      * rewrite last_write_snoc. destruct (K_eq_dec k k); congruence.
    + intros it Hi. rewrite last_write_snoc.
      destruct (@get_stored _ _ _ k _ IH (surjective_pairing _)) as [Hst _].
      exact (Hst it Hi).
    + intros it Hi. rewrite last_write_snoc.
      exact (@delitem_stored _ _ k IH it Hi).
Qed.

(** X13.  A read is never stale: whatever writes, reads, removals and
    evictions have happened since the cache was created, the value that
    [get] finds under a key is the value of the last write under that
    key. *)
Theorem lru_read_is_last_write (m r : Z) (ops : list (LRU.op K V)) (k : K)
    (v : V) (c' : Cache) :
  get (LRU.run K_eq_dec (LRU.mkCache m r 0 [] 0 0) ops) k None = (c', Some v) ->
  LRU.last_write K_eq_dec k ops = Some v.
Proof.
  intros H.
  destruct (get_stored k (run_holds_last_writes m r ops) H) as [_ Hv].
  now apply Hv.
Qed.

End Extra.

(** ** The hypotheses hold of small caches *)

Lemma lru_never_exceeds_maxSize_witness :
  (1 <= 3 < 4)%Z
  /\ (LRU.__len__ (LRU.run Nat.eq_dec (Inputs.new_cache 4 3) (Inputs.writes 10))
      <= 4)%Z.
Proof.
  split; [lia|].
  apply (@lru_never_exceeds_maxSize nat nat Nat.eq_dec 4 3 (Inputs.writes 10)).
  lia.
Defined.

Lemma lru_evicts_least_recent_witness :
  (0 <= 3 < 4)%Z
  /\ LRU.dict_get Nat.eq_dec 4
       (LRU._dict (LRU.run Nat.eq_dec (Inputs.new_cache 4 3) (Inputs.writes 4)))
     = None
  /\ LRU.passes (LRU.__setitem__ Nat.eq_dec
                   (LRU.run Nat.eq_dec (Inputs.new_cache 4 3) (Inputs.writes 4))
                   4 4) = 1.
Proof.
  split; [lia|]. split; [reflexivity|].
  apply (@lru_evicts_least_recent nat nat Nat.eq_dec 4 3 (Inputs.writes 4) 4 4);
    [lia|reflexivity|vm_compute; reflexivity].
Defined.

Lemma lru_read_survives_eviction_witness :
  (0 <= 3 < 4)%Z
  /\ In 0 (LRU.keys
             (LRU.__setitem__ Nat.eq_dec
                (fst (LRU.get Nat.eq_dec
                        (LRU.run Nat.eq_dec (Inputs.new_cache 4 3)
                           (Inputs.writes 4)) 0 None)) 4 4)).
Proof.
  split; [lia|].
  apply (@lru_read_survives_eviction nat nat Nat.eq_dec 4 3 (Inputs.writes 4)
           0 4 4 (LRU.mkItem 0 0 0));
    [lia|reflexivity|reflexivity|vm_compute; reflexivity].
Defined.

Lemma lru_resizeTo_zero_never_evicts_witness :
  (0 < 2)%Z
  /\ NoDup (map fst (Inputs.pairs 5))
  /\ LRU.keys (LRU.set_all Nat.eq_dec (Inputs.new_cache 2 0) (Inputs.pairs 5))
     = [0; 1; 2; 3; 4].
Proof.
  assert (Hnd : NoDup (map fst (Inputs.pairs 5))).
  { simpl. repeat constructor; simpl; intuition discriminate. }
  split; [lia|]. split; [exact Hnd|].
  apply (@lru_resizeTo_zero_never_evicts nat nat Nat.eq_dec 2 (Inputs.pairs 5));
    [lia|exact Hnd].
Defined.

Lemma overflow_in_general_witness :
  (0 <= 3 < 4)%Z
  /\ LRU.__len__ (LRU.set_all Nat.eq_dec (Inputs.new_cache 4 3)
                    (Inputs.pairs 4 ++ [(4, 4)])) = 2%Z.
Proof.
  split; [lia|].
  apply (@LRUFacts.overflow_in_general nat nat Nat.eq_dec 4 3 (Inputs.pairs 4) 4 4).
  - lia.
  - simpl. repeat constructor; simpl; intuition discriminate.
  - reflexivity.
Defined.

Lemma lru_read_is_last_write_witness :
  LRU.last_write Nat.eq_dec 7
    (Inputs.writes 10 ++ [@LRU.Delete nat nat 3; LRU.Write 7 70; @LRU.Read nat nat 9])
  = Some 70.
Proof.
  refine (@lru_read_is_last_write nat nat Nat.eq_dec 4%Z 3%Z
            (Inputs.writes 10 ++ [@LRU.Delete nat nat 3; LRU.Write 7 70; @LRU.Read nat nat 9])
            7 70 _ _).
  vm_compute. reflexivity.
Defined.

End LRUExtra.

(** * Pixel vectors and device coordinates *)

Module GeometryExtra.

Import Geometry.
Import GeometrySpec.
Import GeometryFacts.

Local Open Scope R_scope.

(** ** The stripped transform is linear *)

Lemma map_point_strip (dt : QTransform) (p : QPointF) :
  map_point (strip_translation dt) p
  = mkPoint (m11 dt * x p + m21 dt * y p) (m12 dt * x p + m22 dt * y p).
Proof.
  unfold map_point, strip_translation; simpl. f_equal; field.
Qed.

Lemma invert_strip (dt dti : QTransform) :
  invertQTransform (strip_translation dt) = Return dti ->
  m11 dt * m22 dt - m21 dt * m12 dt <> 0
  /\ forall q,
      map_point dti q
      = mkPoint ((m22 dt * x q - m21 dt * y q)
                 / (m11 dt * m22 dt - m21 dt * m12 dt))
                ((m11 dt * y q - m12 dt * x q)
                 / (m11 dt * m22 dt - m21 dt * m12 dt)).
Proof.
  unfold invertQTransform. rewrite determinant_strip.
  destruct (Req_dec_T (m11 dt * m22 dt - m21 dt * m12 dt) 0) as [Hz|Hz];
    [discriminate|].
  intros H. inversion H; subst dti; clear H. split; [exact Hz|].
  intros q. unfold map_point, strip_translation; simpl. f_equal; field; lra.
Qed.

(** Mapping back and forth through the stripped transform. *)
Lemma strip_after_inverse (dt dti : QTransform) (q : QPointF) :
  invertQTransform (strip_translation dt) = Return dti ->
  map_point (strip_translation dt) (map_point dti q) = q.
Proof.
  intros H. apply invert_strip in H as [Hz Hq].
  rewrite map_point_strip, Hq. destruct q as [qx qy]; simpl.
  f_equal; field; exact Hz.
Qed.

Lemma key_transform_make (dt : QTransform) (d : QPointF) :
  key_transform (make_key (strip_translation dt) d) = strip_translation dt.
Proof. reflexivity. Qed.

Lemma key_direction_make (dt : QTransform) (d : QPointF) :
  key_direction (make_key dt d) = d.
Proof. destruct d; reflexivity. Qed.

Lemma unit_length (a b : R) :
  sqrt (a * a + b * b) <> 0 ->
  sqrt ((a / sqrt (a * a + b * b)) * (a / sqrt (a * a + b * b))
        + (b / sqrt (a * a + b * b)) * (b / sqrt (a * a + b * b))) = 1.
Proof.
  intros Hn.
  assert (Hs : 0 <= a * a + b * b) by nra.
  pose proof (sqrt_sqrt _ Hs) as Hq.
  set (l := sqrt (a * a + b * b)) in *.
  replace (a / l * (a / l) + b / l * (b / l)) with ((a * a + b * b) / (l * l))
    by (field; exact Hn).
  rewrite Hq. replace ((a * a + b * b) / (a * a + b * b)) with 1.
  - apply sqrt_1.
  - field. rewrite <- Hq. nra.
Qed.

(** The pair that [pixelVectors] computes on a miss of both caches. *)
Lemma computed_pair_one_pixel (dt dti : QTransform) (d : QPointF) :
  let dts := strip_translation dt in
  let viewDir := map_line dts (mkLine (mkPoint 0 0) d) in
  line_length viewDir <> 0 ->
  invertQTransform dts = Return dti ->
  one_pixel (make_key dts d)
    (p2 (map_line dti (unitVector viewDir)),
     p2 (map_line dti (normalVector (unitVector viewDir)))).
Proof.
  intros dts viewDir Hl Hi. subst dts.
  pose proof (fun q => @strip_after_inverse dt dti q Hi) as Hinv.
  set (a := m11 dt * x d + m21 dt * y d).
  set (b := m12 dt * x d + m22 dt * y d).
  set (l := sqrt (a * a + b * b)).
  assert (Hv : viewDir = mkLine (mkPoint 0 0) (mkPoint a b)).
  { unfold viewDir, map_line. rewrite !map_point_strip. cbn [p1 p2 x y].
    f_equal. f_equal; ring. }
  rewrite Hv in *. clear Hv viewDir.
  assert (Hl' : l <> 0).
  { unfold line_length, dx, dy in Hl. cbn [p1 p2 x y] in Hl.
    now rewrite !Rminus_0_r in Hl. }
  assert (Hu : unitVector (mkLine (mkPoint 0 0) (mkPoint a b))
               = mkLine (mkPoint 0 0) (mkPoint (a / l) (b / l))).
  { unfold unitVector, line_length, dx, dy. cbn [p1 p2 x y].
    rewrite !Rminus_0_r, !Rplus_0_l. reflexivity. }
  rewrite Hu.
  assert (Ho : normalVector (mkLine (mkPoint 0 0) (mkPoint (a / l) (b / l)))
               = mkLine (mkPoint 0 0) (mkPoint (b / l) (- (a / l)))).
  { unfold normalVector, dx, dy. cbn [p1 p2 x y].
    rewrite !Rminus_0_r, !Rplus_0_l. f_equal. f_equal. ring. }
  rewrite Ho.
  unfold one_pixel. rewrite key_transform_make, key_direction_make.
  cbv zeta. cbn [fst snd]. unfold map_line. cbn [p2].
  rewrite !Hinv, map_point_strip. fold a b.
  unfold point_length. cbn [x y]. fold l.
  assert (H1 : sqrt (a / l * (a / l) + b / l * (b / l)) = 1)
    by (apply unit_length; exact Hl').
  repeat split.
  - exact Hl'.
  - exact H1.
  - rewrite <- H1. f_equal. field. exact Hl'.
  - field. exact Hl'.
Qed.

(** ** The caches hold pixel vectors only *)

Lemma coherent_get (g g1 : GlobalCache) (key : Key) (r : option PV) :
  coherent g ->
  LRU.get Key_eq_dec g key None = (g1, r) ->
  coherent g1 /\ forall pv, r = Some pv -> one_pixel key pv.
Proof.
  intros Hg H. exact (@LRUExtra.get_stored _ _ Key_eq_dec one_pixel g g1 key r Hg H).
Qed.

Lemma coherent_set (g : GlobalCache) (key : Key) (pv : PV) :
  coherent g -> one_pixel key pv ->
  coherent (LRU.__setitem__ Key_eq_dec g key pv).
Proof.
  intros Hg Hp. apply LRUExtra.setitem_stored; [|exact Hp].
  intros it Hi _. now apply Hg.
Qed.

(** What follows the test of the direction in [pixelVectors], once the
    device transform [dt] is known. *)
Ltac after_direction Hg Hl1 dt :=
  let Ek := fresh "Ek" in
  let Eget := fresh "Eget" in
  let H := fresh "H" in
  match goal with
  | |- context [key_matches ?key ?slot] =>
      destruct (key_matches key slot) eqn:Ek;
      [ apply key_matches_true in Ek;
        let pv := fresh "pv" in
        let Hpv := fresh "Hpv" in
        let Hone := fresh "Hone" in
        destruct (Hl1 _ Ek) as (pv & Hpv & Hone); rewrite Hpv;
        intros H; inversion H; subst;
        split; [exact Hg|]; split; [exact Hl1|];
        intros nv ov Hr; inversion Hr; subst;
        exists dt; split; [reflexivity|]; destruct pv; exact Hone
      | destruct (LRU.get Key_eq_dec _ key None) as [g1 [pv|]] eqn:Eget;
        destruct (@coherent_get _ _ _ _ Hg Eget) as [Hg1 Hv];
        [ specialize (Hv pv eq_refl);
          intros H; inversion H; subst;
          split; [exact Hg1|]; split;
          [ intros k Hk; cbn in Hk; inversion Hk; subst;
            exists pv; split; [reflexivity|exact Hv]
          | intros nv ov Hr; inversion Hr; subst;
            exists dt; split; [reflexivity|]; destruct pv; exact Hv ]
        | match goal with
          | |- context [Req_dec_T (line_length ?vd) 0] =>
              destruct (Req_dec_T (line_length vd) 0) as [Hz|Hz];
              [ intros H; inversion H; subst;
                split; [exact Hg1|]; split; [exact Hl1|];
                intros nv ov Hr; discriminate
              | destruct (invertQTransform (strip_translation dt))
                  as [dti|e] eqn:Ei;
                intros H; inversion H; subst;
                [ pose proof (@computed_pair_one_pixel dt dti _ Hz Ei) as Hc1;
                  split; [apply coherent_set; [exact Hg1|exact Hc1]|];
                  split; [intros k Hk; cbn in Hk; discriminate|];
                  intros nv ov Hr; inversion Hr; subst;
                  exists dt; split; [reflexivity|exact Hc1]
                | split; [exact Hg1|]; split; [exact Hl1|];
                  intros nv ov Hr; discriminate ] ]
          end ]
      ]
  end.

(** X14.  Pixel vectors are one pixel long.  The shared cache and the
    per-item cache hold pixel vectors only (which is true of empty caches),
    and [pixelVectors] is called.  Then both caches still hold pixel
    vectors only, and when the call returns two vectors, the device
    transform without its translation sends the first to the vector of
    length 1 that points as the image of the direction, and the second
    to that image turned by a quarter: both images are one pixel long and
    orthogonal to each other. *)
Theorem pixel_vectors_are_one_pixel (it it' : GraphicsItem)
    (g g' : GlobalCache) (direction : option QPointF) (r : PVResult) :
  coherent g -> local_ok it ->
  pixelVectors it g direction = (it', g', r) ->
  coherent g' /\ local_ok it'
  /\ (forall nv ov, r = Return (Some nv, Some ov) ->
      exists dt, snd (deviceTransform it None) = Some dt
        /\ one_pixel (make_key (strip_translation dt)
                        (direction_or_default direction)) (nv, ov)).
Proof.
  intros Hg Hl. unfold pixelVectors, pixelVectors_traced.
  pose proof (deviceTransform_cache it) as Hc.
  destruct (deviceTransform it None) as [it1 [dt|]]; cbn [fst snd] in *.
  2:{ intros H; inversion H; subst. split; [exact Hg|]. split.
      - unfold local_ok. rewrite Hc. exact Hl.
      - intros nv ov Hr. discriminate. }
  assert (Hl1 : local_ok it1) by (unfold local_ok; rewrite Hc; exact Hl).
  cbv zeta.
  destruct direction as [d0|];
    [destruct (Req_dec_T (manhattanLength d0) 0) as [Hb|Hb]|];
    cbn [fst snd direction_or_default].
  - intros H; inversion H; subst. split; [exact Hg|]. split; [exact Hl1|].
    intros nv ov Hr. discriminate.
  - after_direction Hg Hl1 dt.
  - after_direction Hg Hl1 dt.
Qed.

Lemma pixel_vectors_are_one_pixel_witness :
  let call := pixelVectors Inputs.shown_item Inputs.shared_cache None in
  coherent (snd (fst call)) /\ local_ok (fst (fst call))
  /\ (forall nv ov, snd call = Return (Some nv, Some ov) ->
      exists dt, snd (deviceTransform Inputs.shown_item None) = Some dt
        /\ one_pixel (make_key (strip_translation dt)
                        (direction_or_default None)) (nv, ov)).
Proof.
  intros call.
  apply (@pixel_vectors_are_one_pixel Inputs.shown_item (fst (fst call))
           Inputs.shared_cache (snd (fst call)) None (snd call)).
  - intros it [].
  - intros k Hk. discriminate.
  - subst call.
    destruct (pixelVectors Inputs.shown_item Inputs.shared_cache None)
      as [[a b] c].
    reflexivity.
Defined.

(** ** To the device and back *)

Lemma set_cache_same (it : GraphicsItem) :
  set_pixelVectorCache it (_pixelVectorCache it) = it.
Proof. destruct it; reflexivity. Qed.

(** A second call of [deviceTransform] finds the same transform. *)
Lemma deviceTransform_stable (it : GraphicsItem) :
  deviceTransform (fst (deviceTransform it None)) None
  = (fst (deviceTransform it None), snd (deviceTransform it None)).
Proof.
  pose proof (deviceTransform_again it
                (_pixelVectorCache (fst (deviceTransform it None)))) as H.
  cbv zeta in H. now rewrite set_cache_same in H.
Qed.

(** The inverse transform undoes the transform wherever the projective
    divisor is not 0. *)
Lemma invert_round_trip (t ti : QTransform) (p : QPointF) :
  invertQTransform t = Return ti ->
  m13 t * x p + m23 t * y p + m33 t <> 0 ->
  map_point ti (map_point t p) = p.
Proof.
  unfold invertQTransform.
  destruct (Req_dec_T (determinant t) 0) as [Hz|Hz]; [discriminate|].
  intros H Hw. inversion H; subst ti; clear H.
  destruct t as [a b c d e f g h i], p as [px py].
  unfold determinant in *. cbn [m11 m12 m13 m21 m22 m23 m31 m32 m33 x y] in *.
  unfold map_point. cbn [m11 m12 m13 m21 m22 m23 m31 m32 m33 x y].
  set (D := a * (i * e - h * f) - d * (i * b - h * c) + g * (f * b - e * c)) in *.
  set (w := c * px + f * py + i) in *.
  assert (Hw' : (b * f - c * e) / D * ((a * px + d * py + g) / w)
                + (c * d - a * f) / D * ((b * px + e * py + h) / w)
                + (a * e - b * d) / D = 1 / w).
  { field_simplify_eq; [|split; assumption]. unfold D, w. ring. }
  rewrite Hw'.
  f_equal; (field_simplify_eq; [|split; assumption]); unfold D, w; ring.
Qed.

(** X15.  For an item that is not being exported to a painter,
    [mapFromDevice] never raises, and it undoes [mapToDevice]: a point
    sent to the device and back is the point itself, wherever the
    projective divisor of the device transform is not 0 (it is 1 for
    affine transforms). *)
Theorem device_round_trip (it : GraphicsItem) (p : QPointF) :
  painter_opts it = None ->
  (forall q, exists r, snd (mapFromDevice it q) = Return r)
  /\ (forall it1 q,
        mapToDevice it p = (it1, Some q) ->
        (forall dt, snd (deviceTransform it None) = Some dt ->
                    m13 dt * x p + m23 dt * y p + m33 dt <> 0) ->
        mapFromDevice it1 q = (it1, Return (Some p))).
Proof.
  intros Hp. split.
  - intros q. unfold mapFromDevice.
    pose proof (@deviceTransform_some it) as Hs.
    destruct (deviceTransform it None) as [it1 [dt|]]; cbn [snd] in *.
    + destruct (Hs dt Hp eq_refl) as (_ & _ & _ & Hd).
      unfold invertQTransform.
      destruct (Req_dec_T (determinant dt) 0); [contradiction|].
      eexists; reflexivity.
    + eexists; reflexivity.
  - intros it1 q Hto Hw. unfold mapToDevice in Hto. unfold mapFromDevice.
    pose proof (deviceTransform_stable it) as Hst.
    pose proof (@deviceTransform_some it) as Hs.
    destruct (deviceTransform it None) as [it0 [dt|]]; cbn [fst snd] in *;
      [|discriminate].
    inversion Hto; subst it0 q; clear Hto. rewrite Hst.
    destruct (Hs dt Hp eq_refl) as (_ & _ & _ & Hd).
    destruct (invertQTransform dt) as [dti|e] eqn:Ei.
    + now rewrite (@invert_round_trip dt dti p Ei (Hw dt eq_refl)).
    + exfalso. revert Ei. unfold invertQTransform.
      destruct (Req_dec_T (determinant dt) 0); [contradiction|discriminate].
Qed.

Lemma device_round_trip_witness :
  (forall q, exists r, snd (mapFromDevice Inputs.shown_item q) = Return r)
  /\ (forall it1 q,
        mapToDevice Inputs.shown_item (mkPoint 2 3) = (it1, Some q) ->
        (forall dt, snd (deviceTransform Inputs.shown_item None) = Some dt ->
                    m13 dt * x (mkPoint 2 3) + m23 dt * y (mkPoint 2 3)
                    + m33 dt <> 0) ->
        mapFromDevice it1 q = (it1, Return (Some (mkPoint 2 3)))).
Proof.
  apply (@device_round_trip Inputs.shown_item (mkPoint 2 3)). reflexivity.
Defined.

(** ** The cache of inverse view transforms *)

Lemma rect_transform_key (vt : QTransform) : rect_transform (rect_key vt) = vt.
Proof. destruct vt; reflexivity. Qed.

(** X16.  The cache of [mapRectFromView] is transparent: when it holds
    inverses only (which is true of an empty cache), the call returns or
    raises what inverting the view transform and mapping the rectangle
    gives, and the cache still holds inverses only. *)
Theorem mapRectFromView_cache_is_transparent (Rect : Type)
    (mapRect : QTransform -> Rect -> Rect) (vt : option QTransform)
    (cache : RectCache) (obj : Rect) :
  inverses_only cache ->
  snd (mapRectFromView mapRect vt cache obj)
  = mapRectFromView_direct mapRect vt obj
  /\ inverses_only (fst (mapRectFromView mapRect vt cache obj)).
Proof.
  intros Hc. unfold mapRectFromView, mapRectFromView_direct.
  destruct vt as [vt|]; [|split; [reflexivity|exact Hc]].
  cbv zeta.
  destruct (@LRUExtra.getitem_stored _ _ RectKey_eq_dec _ cache (rect_key vt) Hc)
    as [Hc1 Hv].
  assert (Hk : forall e, snd (LRU.__getitem__ RectKey_eq_dec cache (rect_key vt))
                         = Raise e -> e = KeyError).
  { unfold LRU.__getitem__.
    destruct (LRU.dict_get RectKey_eq_dec (rect_key vt) (LRU._dict cache));
      cbn [snd]; intros e He; [discriminate|now inversion He]. }
  destruct (LRU.__getitem__ RectKey_eq_dec cache (rect_key vt))
    as [cache1 [inv_vt|e]]; cbn [fst snd] in *.
  - specialize (Hv inv_vt eq_refl). rewrite rect_transform_key in Hv.
    rewrite Hv. split; [reflexivity|exact Hc1].
  - rewrite (Hk e eq_refl).
    destruct (invertQTransform vt) as [inv_vt|e'] eqn:Ei; cbn [fst snd].
    + split; [reflexivity|].
      apply LRUExtra.setitem_stored.
      * intros it Hi _. now apply Hc1.
      * now rewrite rect_transform_key.
    + split; [reflexivity|exact Hc1].
Qed.

Lemma mapRectFromView_cache_is_transparent_witness :
  snd (mapRectFromView (fun _ (r : nat) => r) (Some Inputs.identity)
         (LRU.mkCache 100 70 0 [] 0 0) 0%nat)
  = mapRectFromView_direct (fun _ (r : nat) => r) (Some Inputs.identity) 0%nat
  /\ inverses_only
       (fst (mapRectFromView (fun _ (r : nat) => r) (Some Inputs.identity)
               (LRU.mkCache 100 70 0 [] 0 0) 0%nat)).
Proof.
  apply (@mapRectFromView_cache_is_transparent nat (fun _ r => r)
           (Some Inputs.identity) (LRU.mkCache 100 70 0 [] 0 0) 0%nat).
  intros it [].
Defined.

End GeometryExtra.

(** * Further properties of the dispatcher *)

Module SceneExtra.

Import Geometry.
Import Scene.
Import SceneSpec.
Import SceneFacts.

Local Open Scope scene_scope.

(** ** What [sendDragEvent] leaves alone *)

Lemma same_buttons_refl (s : GraphicsScene) : same_buttons s s.
Proof. unfold same_buttons. tauto. Qed.

Lemma same_buttons_trans (s1 s2 s3 : GraphicsScene) :
  same_buttons s1 s2 -> same_buttons s2 s3 -> same_buttons s1 s3.
Proof.
  unfold same_buttons.
  intros (A1 & A2 & A3 & A4 & A5) (B1 & B2 & B3 & B4 & B5).
  repeat split; congruence.
Qed.

Lemma same_gesture_buttons (s s' : GraphicsScene) :
  same_gesture s s' -> same_buttons s s'.
Proof. unfold same_gesture, same_buttons. tauto. Qed.

Lemma sb_ret {A} (a : A) : keeps same_buttons (ret a).
Proof. apply keeps_ret, same_buttons_refl. Qed.

Lemma sb_raise {A} (e : exn) : keeps same_buttons (@raise _ A e).
Proof. apply keeps_raise, same_buttons_refl. Qed.

Lemma sb_gets {A} (f : GraphicsScene -> A) : keeps same_buttons (gets f).
Proof. apply keeps_gets, same_buttons_refl. Qed.

Lemma sb_bind {A B} (c : SM A) (k : A -> SM B) :
  keeps same_buttons c -> (forall a, keeps same_buttons (k a)) ->
  keeps same_buttons (bind c k).
Proof. apply keeps_bind, same_buttons_trans. Qed.

Lemma sb_emit (n : Notification) : keeps same_buttons (emit n).
Proof. intros s. unfold same_buttons; simpl. tauto. Qed.

Lemma sb_setFocus (item : Item) : keeps same_buttons (setFocus item).
Proof. intros s. unfold same_buttons; simpl. tauto. Qed.

Lemma sb_set_dragItem (d : option Item) :
  keeps same_buttons (modify (set_dragItem d)).
Proof. intros s. unfold same_buttons; simpl. tauto. Qed.

Lemma sb_set_lastDrag (d : option MouseDragEvent) :
  keeps same_buttons (modify (set_lastDrag d)).
Proof. intros s. unfold same_buttons; simpl. tauto. Qed.

Create HintDb buttons.
#[local] Hint Resolve sb_ret sb_raise sb_gets sb_emit sb_setFocus
  sb_set_dragItem sb_set_lastDrag : buttons.

Lemma sb_itemsNearEvent (point : QPointF) (hoverable : bool) :
  keeps same_buttons (itemsNearEvent point hoverable).
Proof.
  unfold itemsNearEvent. apply sb_bind; auto with buttons.
  intros views. destruct (negb views); auto with buttons.
  apply sb_bind; auto with buttons.
Qed.

Lemma sb_deliver_drag (item : Item) (event : MouseDragEvent) :
  keeps same_buttons (deliver_drag item event).
Proof.
  unfold deliver_drag. destruct (mouseDragEvent item); auto with buttons.
  apply sb_bind; auto with buttons.
Qed.

Lemma sb_try_print {A} (c : SM (A * option exn)) :
  keeps same_buttons c -> keeps same_buttons (try_print c).
Proof.
  intros Hc. unfold try_print. apply sb_bind; [exact Hc|].
  intros [a [e|]]; simpl; auto with buttons.
  apply sb_bind; auto with buttons.
Qed.

Lemma sb_propagate {A} (c : SM (A * option exn)) :
  keeps same_buttons c -> keeps same_buttons (propagate c).
Proof.
  apply keeps_propagate; [apply same_buttons_refl|apply same_buttons_trans].
Qed.

Lemma sb_drag_candidates (items : list Item) :
  forall event, keeps same_buttons (drag_candidates items event).
Proof.
  induction items as [|item rest IH]; intros event; simpl.
  - auto with buttons.
  - destruct (negb (isVisible item) || negb (isEnabled item)); [apply IH|].
    destruct (mouseDragEvent item); [|apply IH].
    apply sb_bind.
    + apply sb_try_print, sb_deliver_drag.
    + intros e. destruct (dev_accepted e); [|apply IH].
      apply sb_bind; auto with buttons. intros _.
      apply sb_bind; auto with buttons.
      destruct (isFocusable item); auto with buttons.
Qed.

Lemma sb_sendDragEvent (ev : QEvent) (init final : bool) :
  keeps same_buttons (sendDragEvent ev init final).
Proof.
  unfold sendDragEvent. apply sb_bind; auto with buttons.
  intros [|pressEvent cevs]; auto with buttons.
  apply sb_bind; auto with buttons. intros last.
  apply sb_bind; auto with buttons. intros current.
  apply sb_bind.
  - destruct (init && _).
    + apply sb_bind; auto with buttons. intros lastHover.
      match goal with
      | |- keeps _ (match ?x with _ => _ end) => destruct x
      end.
      * apply sb_bind; auto with buttons. intros _.
        apply sb_try_print, sb_deliver_drag.
      * apply sb_bind; [apply sb_itemsNearEvent|].
        intros items. apply sb_drag_candidates.
    + destruct current; auto with buttons.
      apply sb_propagate, sb_deliver_drag.
  - intros e. apply sb_bind; auto with buttons.
Qed.

(** ** The drag event that [sendDragEvent] records *)

Lemma same_flags_refl (e : MouseDragEvent) : same_flags e e.
Proof. unfold same_flags. tauto. Qed.

Lemma same_flags_set (e : MouseDragEvent) (a : bool) (c : option Item) :
  same_flags e (set_drag e a c).
Proof. unfold same_flags; simpl. tauto. Qed.

Lemma same_flags_trans (e1 e2 e3 : MouseDragEvent) :
  same_flags e1 e2 -> same_flags e2 e3 -> same_flags e1 e3.
Proof.
  unfold same_flags. intros (A1 & A2 & A3) (B1 & B2 & B3).
  repeat split; congruence.
Qed.

(** A handler call under [try] always returns. *)
Lemma try_print_deliver_returns (item : Item) (event : MouseDragEvent)
    (s : GraphicsScene) :
  exists s1 e', try_print (deliver_drag item event) s = (s1, Return e')
                /\ same_flags event e'.
Proof.
  unfold try_print, deliver_drag, bind, emit, modify, ret.
  destruct (mouseDragEvent item) as [h|]; simpl.
  - destruct (reply_raises (h (drag_info event))); simpl;
      do 2 eexists; (split; [reflexivity|apply same_flags_set]).
  - do 2 eexists; split; [reflexivity|apply same_flags_refl].
Qed.

Lemma drag_candidates_returns (items : list Item) :
  forall (event : MouseDragEvent) (s : GraphicsScene),
  exists s1 e', drag_candidates items event s = (s1, Return e')
                /\ same_flags event e'.
Proof.
  induction items as [|item rest IH]; intros event s; simpl.
  - do 2 eexists; split; [reflexivity|apply same_flags_refl].
  - destruct (negb (isVisible item) || negb (isEnabled item)); [apply IH|].
    destruct (mouseDragEvent item) as [h|] eqn:Eh; [|apply IH].
    destruct (try_print_deliver_returns item
                (set_drag event (dev_accepted event) (Some item)) s)
      as (s1 & e1 & H1 & F1).
    unfold bind at 1. rewrite H1.
    assert (F : same_flags event e1).
    { eapply same_flags_trans; [apply same_flags_set|exact F1]. }
    destruct (dev_accepted e1).
    + unfold bind, modify, ret. destruct (isFocusable item); simpl;
        do 2 eexists; (split; [reflexivity|exact F]).
    + destruct (IH e1 s1) as (s2 & e2 & H2 & F2).
      exists s2, e2. split; [exact H2|].
      eapply same_flags_trans; eassumption.
Qed.

(** X9.  The first drag event of a gesture never fails because of an
    item: when [sendDragEvent] is called with [init] true, no drag item
    yet, a pending click and a view on the scene, it returns whatever the
    handlers of the items do, having recorded as the last drag event an
    event with [start] true for the button of the first pending click. *)
Theorem first_drag_event_always_returns (ev : QEvent) (final : bool)
    (s : GraphicsScene) (pressEvent : MouseClickEvent)
    (others : list MouseClickEvent) :
  clickEvents s = pressEvent :: others ->
  dragItem s = None ->
  has_views s = true ->
  exists s' e,
    sendDragEvent ev true final s = (s', Return (dev_accepted e))
    /\ lastDrag s' = Some e
    /\ dev_start e = true /\ dev_finish e = final
    /\ dev_button e = cev_button pressEvent.
Proof.
  intros Hc Hd Hv. unfold sendDragEvent.
  unfold bind at 1, gets. rewrite Hc.
  unfold bind at 1, gets. unfold bind at 1, gets. rewrite Hd. simpl.
  set (event := new_MouseDragEvent ev pressEvent (lastDrag s) true final).
  assert (Hfinish : forall s1 e1,
             same_flags event e1 ->
             exists s' e,
               (modify (set_lastDrag (Some e1)) ;;; ret (dev_accepted e1)) s1
               = (s', Return (dev_accepted e))
               /\ lastDrag s' = Some e /\ dev_start e = true
               /\ dev_finish e = final
               /\ dev_button e = cev_button pressEvent).
  { intros s1 e1 (F1 & F2 & F3). exists (set_lastDrag (Some e1) s1), e1.
    unfold bind, modify, ret. simpl. repeat split; auto. }
  unfold bind at 1. unfold bind at 1, gets.
  match goal with
  | |- context [match ?x with Some a => _ | None => _ end] =>
      match x with
      | match _ with _ => _ end => destruct x as [a|] eqn:Ea
      end
  end.
  - unfold bind at 1, modify.
    destruct (try_print_deliver_returns a
                (set_drag event false (Some a))
                (set_dragItem (Some a) s)) as (s1 & e1 & H1 & F1).
    rewrite H1. apply Hfinish.
    eapply same_flags_trans; [apply (same_flags_set event false (Some a))|exact F1].
  - unfold itemsNearEvent. unfold bind at 1. unfold bind at 1, gets.
    rewrite Hv. simpl. unfold bind at 1, gets. unfold ret at 1.
    match goal with
    | |- context [drag_candidates ?items event s] =>
        destruct (drag_candidates_returns items event s)
          as (s1 & e1 & H1 & F1)
    end.
    rewrite H1. now apply Hfinish.
Qed.

Lemma first_drag_event_always_returns_witness :
  clickEvents Inputs.faulty_scene = [Inputs.click_left]
  /\ dragItem Inputs.faulty_scene = None
  /\ has_views Inputs.faulty_scene = true
  /\ exists s' e,
       sendDragEvent (Inputs.move_left Inputs.origin) true false
         Inputs.faulty_scene = (s', Return (dev_accepted e))
       /\ lastDrag s' = Some e
       /\ dev_start e = true /\ dev_finish e = false
       /\ dev_button e = cev_button Inputs.click_left.
Proof.
  repeat (split; [reflexivity|]).
  apply (@first_drag_event_always_returns (Inputs.move_left Inputs.origin)
           false Inputs.faulty_scene Inputs.click_left []); reflexivity.
Defined.

Lemma propagate_deliver_drag_flags (item : Item) (event e' : MouseDragEvent)
    (s s' : GraphicsScene) :
  propagate (deliver_drag item event) s = (s', Return e') ->
  same_flags event e'.
Proof.
  unfold propagate, deliver_drag, bind, emit, modify, ret, raise.
  destruct (mouseDragEvent item) as [h|]; simpl; [|discriminate].
  destruct (reply_raises (h (drag_info event))); simpl; [discriminate|].
  intros H. inversion H. apply same_flags_set.
Qed.

(** When [sendDragEvent] returns, the event it has recorded. *)
Lemma sendDragEvent_record (ev : QEvent) (init final : bool)
    (s s' : GraphicsScene) (a : bool) :
  sendDragEvent ev init final s = (s', Return a) ->
  exists e pressEvent,
    hd_error (clickEvents s) = Some pressEvent
    /\ lastDrag s' = Some e
    /\ dev_start e = init /\ dev_finish e = final
    /\ dev_button e = cev_button pressEvent
    /\ dev_accepted e = a.
Proof.
  intros H. unfold sendDragEvent in H.
  apply bind_Return in H as (s1 & cevs & Hg & H).
  unfold gets in Hg. inversion Hg; subst s1 cevs. clear Hg.
  destruct (clickEvents s) as [|pressEvent others] eqn:Hc; [discriminate|].
  apply bind_Return in H as (s1 & last & Hg & H).
  unfold gets in Hg. inversion Hg; subst s1 last. clear Hg.
  apply bind_Return in H as (s1 & current & Hg & H).
  unfold gets in Hg. inversion Hg; subst s1 current. clear Hg.
  apply bind_Return in H as (s2 & e & Hblock & H).
  apply bind_Return in H as (s3 & [] & Hm & H).
  unfold modify in Hm. inversion Hm; subst s3. clear Hm.
  unfold ret in H. inversion H; subst s' a. clear H.
  set (event := new_MouseDragEvent ev pressEvent (lastDrag s) init final) in *.
  assert (F : same_flags event e).
  { destruct (init && _).
    - apply bind_Return in Hblock as (s1 & lastHover & Hg & Hblock).
      unfold gets in Hg. inversion Hg; subst s1 lastHover. clear Hg.
      match type of Hblock with
      | (match ?x with _ => _ end) _ = _ => destruct x as [acc|]
      end.
      + apply bind_Return in Hblock as (s1 & [] & Hm & Hblock).
        destruct (try_print_deliver_returns acc
                    (set_drag event (dev_accepted event) (Some acc)) s1)
          as (s1' & e1 & H1 & F1).
        rewrite H1 in Hblock. inversion Hblock; subst.
        eapply same_flags_trans; [apply same_flags_set|exact F1].
      + apply bind_Return in Hblock as (s1 & items & Hi & Hblock).
        destruct (drag_candidates_returns items event s1)
          as (s1' & e1 & H1 & F1).
        rewrite H1 in Hblock. inversion Hblock; subst. exact F1.
    - destruct (dragItem s) as [d|].
      + apply propagate_deliver_drag_flags in Hblock.
        eapply same_flags_trans; [apply same_flags_set|exact Hblock].
      + unfold ret in Hblock. inversion Hblock. apply same_flags_refl. }
  destruct F as (F1 & F2 & F3).
  exists e, pressEvent. simpl. repeat split; auto.
Qed.

(** X10.  [sendDragEvent] never changes the pending clicks, the dragging
    buttons or the thresholds, whether it returns or raises; without a
    pending click it raises [IndexError] and changes nothing; and when it
    returns, the last drag event of the scene is an event whose start and
    finish flags are the arguments [init] and [final], whose button is
    that of the first pending click, and whose accepted flag is the value
    returned. *)
Theorem drag_event_is_recorded (ev : QEvent) (init final : bool)
    (s : GraphicsScene) :
  same_buttons s (fst (sendDragEvent ev init final s))
  /\ (clickEvents s = [] ->
      sendDragEvent ev init final s = (s, Raise IndexError))
  /\ (forall s' a,
        sendDragEvent ev init final s = (s', Return a) ->
        exists e pressEvent,
          hd_error (clickEvents s) = Some pressEvent
          /\ lastDrag s' = Some e
          /\ dev_start e = init /\ dev_finish e = final
          /\ dev_button e = cev_button pressEvent
          /\ dev_accepted e = a).
Proof.
  split; [apply sb_sendDragEvent|]. split.
  - intros Hc. unfold sendDragEvent, bind at 1, gets. now rewrite Hc.
  - intros s' a H. now apply sendDragEvent_record in H.
Qed.

(** X11.  A hover pass, whether it returns or raises, never changes the
    gesture: the pending clicks, the dragging buttons, the drag item and
    the last drag event are as before, and so are the thresholds. *)
Theorem hover_pass_leaves_gesture (ev : QEvent) (exitOnly : bool)
    (s : GraphicsScene) :
  same_gesture s (fst (sendHoverEvents ev exitOnly s)).
Proof. apply keeps_sendHoverEvents. Qed.

(** ** Drag promotion in [mouseMoveEvent] *)

Lemma button_in_In (b : MouseButton) (l : list MouseButton) :
  button_in b l = true <-> In b l.
Proof.
  unfold button_in. rewrite existsb_exists. split.
  - intros (x & Hx & E). unfold button_eqb in E.
    destruct (MouseButton_eq_dec b x); [now subst|discriminate].
  - intros H. exists b. split; [exact H|apply button_eqb_refl].
Qed.

Lemma set_dragButtons_self (s : GraphicsScene) :
  s = set_dragButtons (dragButtons s) s.
Proof. destruct s; reflexivity. Qed.

(** The loop over the three buttons of [mouseMoveEvent]: it changes
    nothing but the dragging buttons, to which it appends the buttons
    that the move promotes, and [init] is set when the first dragging
    button is among them. *)
Lemma three_rounds (ev : QEvent) (clock : R) (s : GraphicsScene) :
  exists s4 init,
    (forall B (k : bool -> SM B),
        (i <- track_button ev clock false LeftButton ;;
         i <- track_button ev clock i MiddleButton ;;
         i <- track_button ev clock i RightButton ;;
         k i) s
        = k init s4)
    /\ s4 = set_dragButtons (dragButtons s4) s
    /\ dragButtons s4
       = dragButtons s
         ++ filter (promotes ev clock s)
              [LeftButton; MiddleButton; RightButton]
    /\ (dragButtons s = [] -> dragButtons s4 <> [] -> init = true).
Proof.
  unfold bind.
  rewrite (track_button_eq ev clock false LeftButton s).
  destruct (promotes ev clock s LeftButton) eqn:EL;
    match goal with
    | |- context [track_button ev clock ?i MiddleButton ?t] =>
        rewrite (track_button_eq ev clock i MiddleButton t);
        destruct (promotes ev clock t MiddleButton) eqn:EM
    end;
    match goal with
    | |- context [track_button ev clock ?i RightButton ?t] =>
        rewrite (track_button_eq ev clock i RightButton t);
        destruct (promotes ev clock t RightButton) eqn:ER
    end;
    rewrite ?promotes_after_other in EM by discriminate;
    rewrite ?promotes_after_other in ER by discriminate;
    (do 2 eexists; split; [intros B k; reflexivity|]);
    (split; [destruct s; reflexivity|]);
    (split;
     [ cbn [dragButtons set_dragButtons filter];
       rewrite ?EL, ?EM, ?ER, <- ?app_assoc, ?app_nil_r; reflexivity
     | intros Hd Hne; cbn [dragButtons set_dragButtons] in *;
       rewrite ?Hd in *; try reflexivity; exfalso; apply Hne; reflexivity ]).
Qed.

Lemma button_in_promoted (ev : QEvent) (clock : R) (s : GraphicsScene)
    (b : MouseButton) :
  b = LeftButton \/ b = MiddleButton \/ b = RightButton ->
  button_in b (filter (promotes ev clock s)
                 [LeftButton; MiddleButton; RightButton])
  = promotes ev clock s b.
Proof.
  intros [-> | [-> | ->]]; simpl;
    destruct (promotes ev clock s LeftButton),
             (promotes ev clock s MiddleButton),
             (promotes ev clock s RightButton); reflexivity.
Qed.

(** [mouseMoveEvent] once the hover pass has returned, for a move with a
    button held that Qt has not grabbed. *)
Lemma mouseMoveEvent_after_hover (ev : QEvent) (clock : R)
    (s s1 : GraphicsScene) :
  sendHoverEvents ev false (set_log (log s ++ [MouseMovedSignal]) s)
  = (s1, Return tt) ->
  no_buttons ev = false ->
  ev_grabbed ev = false ->
  exists s4 init,
    mouseMoveEvent ev clock s
    = match dragButtons s4 with
      | [] => (s4, Return false)
      | _ :: _ => sendDragEvent ev init false s4
      end
    /\ s4 = set_dragButtons (dragButtons s4) s1
    /\ dragButtons s4
       = dragButtons s1
         ++ filter (promotes ev clock s1)
              [LeftButton; MiddleButton; RightButton]
    /\ (dragButtons s1 = [] -> dragButtons s4 <> [] -> init = true).
Proof.
  intros Hh Hn Hg.
  destruct (three_rounds ev clock s1) as (s4 & init & Hr & H1 & H2 & H3).
  exists s4, init. split; [|now repeat split].
  unfold mouseMoveEvent. unfold bind at 1, emit, modify.
  unfold bind at 1. rewrite Hh, Hn, Hg.
  rewrite (Hr _ (fun i => dragging <- gets dragButtons ;;
                          match dragging with
                          | [] => ret false
                          | _ :: _ => sendDragEvent ev i false
                          end)).
  unfold bind, gets. destruct (dragButtons s4); reflexivity.
Qed.

(** X12.  The drag test of [mouseMoveEvent].  A button among left, middle
    and right is held, is not dragging yet and has a pending click; the
    move event is not grabbed by Qt and is handled to the end.  Then the
    button is dragging afterwards if and only if the pointer is at a
    distance [d <> 0] from the press and [d >= moveDistance] or the time
    since the press is at least [minDragTime]; the pending clicks are
    untouched; and when the button becomes the first dragging button the
    scene has recorded a drag event with [start] true. *)
Theorem move_promotes_button (s s' : GraphicsScene) (ev : QEvent) (clock : R)
    (btn : MouseButton) (cev : MouseClickEvent) (rest : list MouseClickEvent)
    (accepted : bool) :
  btn = LeftButton \/ btn = MiddleButton \/ btn = RightButton ->
  ev_grabbed ev = false ->
  button_in btn (ev_buttons ev) = true ->
  button_in btn (dragButtons s) = false ->
  clicks_of btn (clickEvents s) = cev :: rest ->
  mouseMoveEvent ev clock s = (s', Return accepted) ->
  (button_in btn (dragButtons s') = true
   <-> (travelled ev cev <> 0
        /\ (_moveDistance s <= travelled ev cev
            \/ minDragTime s <= elapsed clock cev))%R)
  /\ clickEvents s' = clickEvents s
  /\ (dragButtons s = [] -> button_in btn (dragButtons s') = true ->
      exists e, lastDrag s' = Some e /\ dev_start e = true
                /\ dev_finish e = false).
Proof.
  intros Hb Hg Hheld Hnot Hc H.
  assert (Hn : no_buttons ev = false).
  { unfold no_buttons. destruct (ev_buttons ev); [discriminate|reflexivity]. }
  destruct (sendHoverEvents ev false (set_log (log s ++ [MouseMovedSignal]) s))
    as [s1 [[]|e]] eqn:Hh.
  2:{ unfold mouseMoveEvent, bind at 1, emit, modify in H.
      unfold bind at 1 in H. rewrite Hh in H. discriminate. }
  pose proof (keeps_sendHoverEvents ev false
                (set_log (log s ++ [MouseMovedSignal]) s)) as Hk.
  rewrite Hh in Hk. cbn [fst] in Hk.
  destruct Hk as (K1 & K2 & K3 & K4 & K5 & K6 & K7 & K8).
  cbn [clickEvents dragButtons dragItem lastDrag _moveDistance minDragTime
       set_log] in K1, K2, K3, K4, K5, K6.
  destruct (@mouseMoveEvent_after_hover ev clock s s1 Hh Hn Hg)
    as (s4 & init & Hm & H1 & H2 & H3).
  rewrite Hm in H.
  assert (Hp : promotes ev clock s1 btn
               = negb (stays_click (travelled ev cev) (_moveDistance s)
                         (elapsed clock cev) (minDragTime s))).
  { unfold promotes. now rewrite Hheld, K2, Hnot, K1, Hc, K5, K6. }
  assert (Hin4 : button_in btn (dragButtons s4) = promotes ev clock s1 btn).
  { rewrite H2. unfold button_in at 1. rewrite existsb_app.
    fold (button_in btn (dragButtons s1)).
    fold (button_in btn (filter (promotes ev clock s1)
                           [LeftButton; MiddleButton; RightButton])).
    now rewrite K2, Hnot, button_in_promoted. }
  assert (Hc4 : clickEvents s4 = clickEvents s).
  { rewrite H1. cbn. exact K1. }
  assert (Hsame : dragButtons s' = dragButtons s4
                  /\ clickEvents s' = clickEvents s4).
  { destruct (dragButtons s4) eqn:Ed.
    - inversion H; subst s'. now rewrite Ed.
    - pose proof (sb_sendDragEvent ev init false s4) as Hsb.
      rewrite H in Hsb. destruct Hsb as (B1 & B2 & _).
      cbn [fst] in B1, B2. rewrite Ed in B2. now split. }
  destruct Hsame as [Hd' Hc'].
  split; [|split].
  - rewrite Hd', Hin4, Hp. rewrite negb_true_iff. apply stays_click_false.
  - congruence.
  - intros Hempty Hdrag. rewrite Hd' in Hdrag.
    destruct (dragButtons s4) eqn:Ed; [discriminate|].
    assert (Hi : init = true).
    { apply H3; [now rewrite K2|discriminate]. }
    subst init. apply sendDragEvent_record in H
      as (e & p & _ & He & Hs & Hf & _).
    exists e. now repeat split.
Qed.

Lemma move_promotes_button_witness :
  let ev := Inputs.move_left (mkPoint 3 4) in
  let s' := fst (mouseMoveEvent ev 0 Inputs.healthy_scene) in
  (button_in LeftButton (dragButtons s') = true
   <-> (travelled ev Inputs.click_left <> 0
        /\ (_moveDistance Inputs.healthy_scene <= travelled ev Inputs.click_left
            \/ minDragTime Inputs.healthy_scene
               <= elapsed 0 Inputs.click_left))%R)
  /\ clickEvents s' = clickEvents Inputs.healthy_scene
  /\ (dragButtons Inputs.healthy_scene = [] ->
      button_in LeftButton (dragButtons s') = true ->
      exists e, lastDrag s' = Some e /\ dev_start e = true
                /\ dev_finish e = false).
Proof.
  intros ev s'.
  assert (Hd : travelled ev Inputs.click_left = 5%R).
  { unfold travelled, point_length, psub. cbn.
    replace ((3 - 0) * (3 - 0) + (4 - 0) * (4 - 0))%R with (5 * 5)%R by lra.
    apply sqrt_square. lra. }
  assert (E : snd (mouseMoveEvent ev 0 Inputs.healthy_scene) = Return true).
  { set (s0 := set_log (log Inputs.healthy_scene ++ [MouseMovedSignal])
                 Inputs.healthy_scene).
    assert (Hs : snd (sendHoverEvents ev false s0) = Return tt)
      by (vm_compute; reflexivity).
    pose proof (surjective_pairing (sendHoverEvents ev false s0)) as Hh.
    rewrite Hs in Hh.
    destruct (@mouseMoveEvent_after_hover ev 0%R Inputs.healthy_scene _ Hh
                eq_refl eq_refl) as (s4 & init & Hm & H1 & H2 & H3).
    assert (PL : promotes ev 0 (fst (sendHoverEvents ev false s0)) LeftButton
                 = true).
    { assert (Hp : promotes ev 0 (fst (sendHoverEvents ev false s0)) LeftButton
                   = negb (stays_click (travelled ev Inputs.click_left) 5
                             (elapsed 0 Inputs.click_left) (1 / 2)))
        by (vm_compute; reflexivity).
      rewrite Hp. apply negb_true_iff, stays_click_false. rewrite Hd.
      split; [lra|left; lra]. }
    assert (PM : promotes ev 0 (fst (sendHoverEvents ev false s0)) MiddleButton
                 = false) by (vm_compute; reflexivity).
    assert (PR : promotes ev 0 (fst (sendHoverEvents ev false s0)) RightButton
                 = false) by (vm_compute; reflexivity).
    assert (D1 : dragButtons (fst (sendHoverEvents ev false s0)) = [])
      by (vm_compute; reflexivity).
    cbn [filter] in H2. rewrite PL, PM, PR, D1 in H2. cbn [app] in H2.
    rewrite H2 in Hm, H1, H3.
    rewrite (H3 D1) in Hm by discriminate.
    rewrite Hm, H1. vm_compute. reflexivity. }
  subst s'.
  destruct (mouseMoveEvent ev 0 Inputs.healthy_scene) as [s' r] eqn:Hmove.
  cbn [snd] in E. subst r. cbn [fst].
  apply (@move_promotes_button Inputs.healthy_scene s' ev 0%R LeftButton
           Inputs.click_left [] true);
    [left; reflexivity|reflexivity|reflexivity|reflexivity|reflexivity
    |exact Hmove].
Defined.

(** ** The items near an event *)

Lemma insert_by_z_perm (it : Item) (l : list Item) :
  Permutation (insert_by_z it l) (it :: l).
Proof.
  induction l as [|a l IH]; simpl; [reflexivity|].
  destruct (Qle_bool (absZValue a) (absZValue it)); [reflexivity|].
  rewrite IH. apply perm_swap.
Qed.

Lemma sort_by_z_perm (l : list Item) : Permutation (sort_by_z l) l.
Proof.
  induction l as [|a l IH]; simpl; [reflexivity|].
  rewrite insert_by_z_perm. now constructor.
Qed.

Lemma insert_by_z_descending (it : Item) (l : list Item) :
  descending l -> descending (insert_by_z it l).
Proof.
  induction l as [|a l IH]; simpl; intros Hd.
  - split; [intros b []|exact I].
  - destruct Hd as [Ha Hl].
    destruct (Qle_bool (absZValue a) (absZValue it)) eqn:E.
    + apply Qle_bool_iff in E. split; [|split; assumption].
      intros b [<-|Hb]; [exact E|].
      apply Qle_trans with (absZValue a); [now apply Ha|exact E].
    + assert (Hlt : (absZValue it < absZValue a)%Q).
      { apply Qnot_le_lt. intros Hle. apply Qle_bool_iff in Hle. congruence. }
      split; [|now apply IH].
      intros b Hb.
      apply (Permutation_in _ (insert_by_z_perm it l)) in Hb.
      destruct Hb as [<-|Hb]; [now apply Qlt_le_weak|now apply Ha].
Qed.

Lemma sort_by_z_descending (l : list Item) : descending (sort_by_z l).
Proof.
  induction l as [|a l IH]; simpl; [exact I|].
  now apply insert_by_z_descending.
Qed.

(** X17.  [itemsNearEvent] never changes the scene.  Without a view it
    raises [IndexError].  With a view it returns, top-most first (by
    descending absolute z value), exactly the items that Qt reports at the
    point and that belong to this scene and have a shape containing the
    point (and a hover handler, when [hoverable] is set). *)
Theorem items_near_event_top_first (point : QPointF) (hoverable : bool)
    (s : GraphicsScene) :
  (has_views s = false ->
   itemsNearEvent point hoverable s = (s, Raise IndexError))
  /\ (has_views s = true ->
      exists l,
        itemsNearEvent point hoverable s = (s, Return l)
        /\ Permutation l
             (filter (near_keep point hoverable) (qt_items s point))
        /\ descending l
        /\ (forall i, In i l ->
              In i (qt_items s point)
              /\ in_scene i = true
              /\ (exists contains, shape i = Some contains
                                   /\ contains point = true)
              /\ (hoverable = true -> hoverEvent i <> None))).
Proof.
  unfold itemsNearEvent, bind, gets, raise, ret. split; intros Hv; rewrite Hv.
  - reflexivity.
  - cbn [negb]. eexists. split; [reflexivity|].
    split; [apply sort_by_z_perm|]. split; [apply sort_by_z_descending|].
    intros i Hi. apply (Permutation_in _ (sort_by_z_perm _)) in Hi.
    apply filter_In in Hi as [Hq Hk]. split; [exact Hq|].
    unfold near_keep in Hk.
    destruct hoverable, (hoverEvent i) as [h|], (in_scene i),
      (shape i) as [contains|]; cbn in Hk; try discriminate;
      (split; [reflexivity|]); (split; [now exists contains|]);
      intros; discriminate.
Qed.

End SceneExtra.

(** * The hover pass *)

Module HoverFacts.

Import Geometry.
Import Scene.
Import SceneSpec.
Import SceneFacts.

(** ** Items and their identity *)

Lemma same_item_iff (a b : Item) : same_item a b = true <-> item_id a = item_id b.
Proof. unfold same_item. apply Nat.eqb_eq. Qed.

Lemma same_item_sym (a b : Item) : same_item a b = same_item b a.
Proof. unfold same_item. apply Nat.eqb_sym. Qed.

Lemma item_in_ids (a : Item) (l : list Item) :
  item_in a l = true <-> In (item_id a) (map item_id l).
Proof.
  unfold item_in. rewrite existsb_exists, in_map_iff. split.
  - intros (b & Hb & E). exists b. apply same_item_iff in E. now split.
  - intros (b & E & Hb). exists b. split; [exact Hb|]. now apply same_item_iff.
Qed.

Lemma item_in_In (a : Item) (l : list Item) : In a l -> item_in a l = true.
Proof. intros H. apply item_in_ids. now apply in_map. Qed.

Lemma item_in_app (a : Item) (l1 l2 : list Item) :
  item_in a (l1 ++ l2) = item_in a l1 || item_in a l2.
Proof. unfold item_in. apply existsb_app. Qed.

Lemma item_in_same (a b : Item) (l : list Item) :
  same_item a b = true -> item_in a l = item_in b l.
Proof.
  intros E. apply same_item_iff in E. unfold item_in, same_item.
  now rewrite E.
Qed.

(** Membership in a filtered list, for a filter that looks at the identity
    only. *)
Lemma item_in_filter (f : Item -> bool) (i : Item) (l : list Item) :
  (forall a b, same_item a b = true -> f a = f b) ->
  item_in i (filter f l) = item_in i l && f i.
Proof.
  intros Hf. induction l as [|a l IH]; [reflexivity|]. cbn [filter].
  destruct (f a) eqn:Ea.
  - unfold item_in in *. cbn [existsb]. rewrite IH.
    destruct (same_item i a) eqn:Es; cbn [orb].
    + now rewrite (Hf i a Es), Ea.
    + reflexivity.
  - rewrite IH. unfold item_in. cbn [existsb].
    destruct (same_item i a) eqn:Es; cbn [orb]; [|reflexivity].
    rewrite (Hf i a Es), Ea. now rewrite andb_false_r.
Qed.

Lemma filter_all_true {A} (f : A -> bool) (l : list A) :
  (forall a, In a l -> f a = true) -> filter f l = l.
Proof.
  induction l as [|a l IH]; intros H; [reflexivity|]. cbn [filter].
  rewrite (H a (or_introl eq_refl)). f_equal. apply IH.
  intros b Hb. apply H. now right.
Qed.

Lemma filter_filter {A} (f g : A -> bool) (l : list A) :
  filter f (filter g l) = filter (fun a => g a && f a) l.
Proof.
  induction l as [|a l IH]; [reflexivity|]. cbn [filter].
  destruct (g a); cbn [andb filter]; [|exact IH].
  destruct (f a); now rewrite IH.
Qed.

Lemma NoDup_ids_filter (f : Item -> bool) (l : list Item) :
  NoDup (map item_id l) -> NoDup (map item_id (filter f l)).
Proof.
  induction l as [|a l IH]; cbn [map filter]; intros H; [constructor|].
  inversion H as [|? ? Hn Hl]; subst.
  destruct (f a); cbn [map]; [|now apply IH].
  constructor; [|now apply IH].
  intros Hin. apply Hn. apply in_map_iff in Hin as (b & E & Hb).
  apply filter_In in Hb as [Hb _]. apply in_map_iff. now exists b.
Qed.

(** [list.remove] on a list without duplicates drops the item. *)
Lemma list_remove_filter (a : Item) (l r : list Item) :
  NoDup (map item_id l) ->
  list_remove same_item a l = Some r ->
  r = filter (fun p => negb (same_item a p)) l.
Proof.
  revert r. induction l as [|b l IH]; cbn [list_remove map filter];
    intros r Hn H; [discriminate|].
  inversion Hn as [|? ? Hb Hl]; subst.
  destruct (same_item a b) eqn:E; cbn [negb].
  - inversion H; subst r. symmetry. apply filter_all_true.
    intros p Hp. apply negb_true_iff.
    destruct (same_item a p) eqn:Ep; [|reflexivity].
    exfalso. apply Hb. apply same_item_iff in E, Ep.
    rewrite <- E, Ep. now apply in_map.
  - destruct (list_remove same_item a l) as [r'|]; [|discriminate].
    inversion H; subst r. f_equal. now apply IH.
Qed.

Lemma list_remove_found (a : Item) (l : list Item) :
  item_in a l = true -> exists r, list_remove same_item a l = Some r.
Proof.
  induction l as [|b l IH]; cbn; [discriminate|].
  destruct (same_item a b); cbn; [intros _; eauto|].
  intros H. destruct (IH H) as [r Hr]. rewrite Hr. eauto.
Qed.

(** ** Delivering a hover event *)

Lemma apply_requests_flags (rs : list HoverRequest) :
  forall e, hev_enter (fold_left apply_request rs e) = hev_enter e
            /\ hev_exit (fold_left apply_request rs e) = hev_exit e.
Proof.
  induction rs as [|r rs IH]; intros e; [now split|]. cbn [fold_left].
  destruct (IH (apply_request e r)) as [H1 H2]. rewrite H1, H2.
  destruct r as [b|b]; cbn [apply_request]; unfold acceptClicks, acceptDrags;
    destruct (hev_currentItem e); try (now split);
    match goal with
    | |- context [dict_get ?b ?d] => destruct (dict_get b d)
    end; try (now split);
    destruct (hev_acceptable e); now split.
Qed.

Lemma deliver_hover_returns (item : Item) (event event' : HoverEvent)
    (s s' : GraphicsScene) :
  propagate (deliver_hover item event) s = (s', Return event') ->
  s' = set_log (log s ++ [HoverNote (item_id item) (hev_enter event)
                            (hev_exit event)]) s
  /\ hev_enter event' = hev_enter event
  /\ hev_exit event' = hev_exit event.
Proof.
  unfold propagate, deliver_hover.
  destruct (hoverEvent item) as [h|];
    unfold bind, emit, modify, ret, raise; cbn [fst snd].
  - destruct (reply_raises (h (hover_info event))); intros H; [discriminate|].
    inversion H; subst. split; [reflexivity|]. apply apply_requests_flags.
  - discriminate.
Qed.

(** ** The two loops *)

(** The first loop adds the candidates that were not hovered, takes the
    candidates out of the list of the items to leave, and notifies every
    candidate. *)
Lemma hover_candidates_spec (items : list Item) :
  forall (event event' : HoverEvent) (prev prev' : list Item)
         (s s' : GraphicsScene),
    NoDup (map item_id items) ->
    NoDup (map item_id prev) ->
    (forall i, In i items -> hoverEvent i <> None) ->
    (forall i, In i items -> item_in i (hoverItems s) = true ->
               item_in i prev = true) ->
    (forall p, In p prev -> item_in p (hoverItems s) = true) ->
    hover_candidates items event prev s = (s', Return (event', prev')) ->
    hoverItems s'
    = hoverItems s ++ filter (fun i => negb (item_in i (hoverItems s))) items
    /\ prev' = filter (fun p => negb (item_in p items)) prev
    /\ log s'
       = log s ++ map (fun i => HoverNote (item_id i)
                                  (negb (item_in i (hoverItems s)))
                                  (hev_exit event)) items
    /\ hev_exit event' = hev_exit event.
Proof.
  induction items as [|item rest IH];
    intros event event' prev prev' s s' Hni Hnp Hh Hin Hsub H.
  - cbn in H. inversion H; subst. cbn [filter map].
    rewrite !app_nil_r. repeat split. symmetry. now apply filter_all_true.
  - cbn [hover_candidates] in H.
    destruct (hoverEvent item) as [h|] eqn:Eh;
      [|exfalso; apply (Hh item (or_introl eq_refl)); exact Eh].
    inversion Hni as [|? ? Hfresh Hnr]; subst.
    assert (Hother : forall i, In i rest -> same_item i item = false).
    { intros i Hi. destruct (same_item i item) eqn:E; [|reflexivity].
      exfalso. apply Hfresh. apply same_item_iff in E. rewrite <- E.
      now apply in_map. }
    apply bind_Return in H as (s0 & hs & Hg & H).
    unfold gets in Hg. inversion Hg; subst s0 hs; clear Hg.
    apply bind_Return in H as (s1 & st & Hst & H).
    apply bind_Return in H as (s2 & event2 & Hd & H).
    apply deliver_hover_returns in Hd as (Hs2 & _ & Hx2).
    destruct (item_in item (hoverItems s)) eqn:Ein.
    + (* the item was hovered already *)
      pose proof (Hin item (or_introl eq_refl) Ein) as Hp.
      destruct (list_remove_found item prev Hp) as [prev1 Hr].
      rewrite Hr in Hst. unfold ret in Hst. inversion Hst; subst s1 st; clear Hst.
      cbn [fst snd set_hover_flags hev_enter hev_exit] in *.
      apply list_remove_filter in Hr; [|exact Hnp].
      assert (Hh2 : hoverItems s2 = hoverItems s) by (now rewrite Hs2).
      assert (Hl2 : log s2 = log s ++ [HoverNote (item_id item) false
                                         (hev_exit event)])
        by (now rewrite Hs2).
      apply IH in H as (R1 & R2 & R3 & R4); try assumption.
      * rewrite Hh2 in R1, R3. rewrite Hl2 in R3. rewrite Hx2 in R3, R4.
        cbn [filter map]. rewrite Ein. cbn [negb].
        split; [exact R1|]. split.
        { rewrite R2, Hr, filter_filter. apply filter_ext. intros p.
          unfold item_in. cbn [existsb]. rewrite (same_item_sym p item).
          now rewrite negb_orb. }
        split; [|exact R4].
        rewrite R3, <- app_assoc. reflexivity.
      * rewrite Hr. now apply NoDup_ids_filter.
      * intros i Hi. apply Hh. now right.
      * intros i Hi Hhi. rewrite Hh2 in Hhi. rewrite Hr.
        rewrite item_in_filter.
        -- rewrite (Hin i (or_intror Hi) Hhi). cbn [andb].
           rewrite same_item_sym, (Hother i Hi). reflexivity.
        -- intros a b E. apply same_item_iff in E. unfold same_item.
           now rewrite E.
      * intros p Hp1. rewrite Hh2. rewrite Hr in Hp1.
        apply filter_In in Hp1 as [Hp1 _]. now apply Hsub.
    + (* the item is entered *)
      unfold bind, modify, ret in Hst. inversion Hst; subst s1 st; clear Hst.
      cbn [fst snd set_hover_flags hev_enter hev_exit] in *.
      assert (Hh2 : hoverItems s2 = hoverItems s ++ [item])
        by (rewrite Hs2; destruct s; reflexivity).
      assert (Hl2 : log s2 = log s ++ [HoverNote (item_id item) true
                                         (hev_exit event)])
        by (rewrite Hs2; destruct s; reflexivity).
      assert (Hsame : forall i, In i rest ->
                item_in i (hoverItems s ++ [item]) = item_in i (hoverItems s)).
      { intros i Hi. rewrite item_in_app. unfold item_in at 2.
        cbn [existsb]. rewrite (Hother i Hi). now rewrite !orb_false_r. }
      apply IH in H as (R1 & R2 & R3 & R4); try assumption.
      * rewrite Hh2 in R1, R3. rewrite Hl2 in R3. rewrite Hx2 in R3, R4.
        cbn [filter map]. rewrite Ein. cbn [negb].
        split.
        { rewrite R1, <- app_assoc. cbn [app]. do 2 f_equal.
          apply filter_ext_in. intros i Hi. now rewrite Hsame. }
        split.
        { rewrite R2. apply filter_ext_in. intros p Hp1.
          unfold item_in at 2. cbn [existsb].
          destruct (same_item p item) eqn:E; [|reflexivity].
          exfalso. pose proof (Hsub p Hp1) as Hp2.
          rewrite (@item_in_same p item (hoverItems s) E) in Hp2. congruence. }
        split; [|exact R4].
        rewrite R3, <- app_assoc. cbn [app]. do 2 f_equal.
        apply map_ext_in. intros i Hi. now rewrite Hsame.
      * intros i Hi. apply Hh. now right.
      * intros i Hi Hhi. rewrite Hh2, (Hsame i Hi) in Hhi.
        apply Hin; [now right|exact Hhi].
      * intros p Hp1. rewrite Hh2, item_in_app, (Hsub p Hp1). reflexivity.
Qed.

(** The second loop notifies the items to leave that still belong to the
    scene, and takes all of them out of the hover set. *)
Lemma hover_exits_spec (prev : list Item) :
  forall (event event' : HoverEvent) (s s' : GraphicsScene),
    hover_exits prev event s = (s', Return event') ->
    hoverItems s' = filter (fun h => negb (item_in h prev)) (hoverItems s)
    /\ log s'
       = log s ++ map (fun i => HoverNote (item_id i) (hev_enter event)
                                  (hev_exit event)) (filter in_scene prev).
Proof.
  induction prev as [|item rest IH]; intros event event' s s' H.
  - cbn in H. inversion H; subst. cbn [filter map]. rewrite app_nil_r.
    split; [|reflexivity]. symmetry. now apply filter_all_true.
  - cbn [hover_exits] in H.
    apply bind_Return in H as (s1 & event1 & Hd & H).
    apply bind_Return in H as (s2 & [] & Hm & H).
    unfold modify in Hm. inversion Hm; subst s2; clear Hm.
    assert (Hstep : hoverItems s1 = hoverItems s
                    /\ log s1 = log s ++ (if in_scene item
                                          then [HoverNote (item_id item)
                                                  (hev_enter event)
                                                  (hev_exit event)]
                                          else [])
                    /\ hev_enter event1 = hev_enter event
                    /\ hev_exit event1 = hev_exit event).
    { destruct (in_scene item).
      - apply deliver_hover_returns in Hd as (Hs1 & He & Hx).
        cbn [set_hover_flags hev_enter hev_exit] in *.
        rewrite Hs1. destruct s; cbn. repeat split; assumption.
      - unfold ret in Hd. inversion Hd; subst.
        cbn [set_hover_flags hev_enter hev_exit]. rewrite app_nil_r.
        repeat split. }
    destruct Hstep as (Hh1 & Hl1 & He1 & Hx1).
    apply IH in H as (R1 & R2). split.
    + rewrite R1. unfold del_hoverItem.
      replace (hoverItems (set_hoverItems
                 (filter (fun i => negb (same_item item i)) (hoverItems s1)) s1))
        with (filter (fun i => negb (same_item item i)) (hoverItems s1))
        by (destruct s1; reflexivity).
      rewrite Hh1, filter_filter. apply filter_ext. intros p.
      unfold item_in. cbn [existsb]. rewrite (same_item_sym p item).
      now rewrite negb_orb.
    + rewrite R2. unfold del_hoverItem.
      replace (log (set_hoverItems
                 (filter (fun i => negb (same_item item i)) (hoverItems s1)) s1))
        with (log s1) by (destruct s1; reflexivity).
      rewrite Hl1, He1, Hx1, <- app_assoc. f_equal. cbn [filter].
      destruct (in_scene item); reflexivity.
Qed.

(** ** The pass *)

Lemma itemsNearEvent_returns (point : QPointF) (hoverable : bool)
    (s s' : GraphicsScene) (l : list Item) :
  itemsNearEvent point hoverable s = (s', Return l) ->
  s' = s /\ l = candidates s point hoverable.
Proof.
  unfold itemsNearEvent, bind, gets, raise, ret.
  destruct (has_views s); cbn [negb]; intros H; inversion H. now split.
Qed.

Lemma candidates_NoDup (s : GraphicsScene) (point : QPointF) (hoverable : bool) :
  NoDup (map item_id (qt_items s point)) ->
  NoDup (map item_id (candidates s point hoverable)).
Proof.
  intros H. unfold candidates.
  apply (Permutation_NoDup
           (l := map item_id (filter (near_keep point hoverable)
                                (qt_items s point)))).
  - apply Permutation_map, Permutation_sym, SceneExtra.sort_by_z_perm.
  - now apply NoDup_ids_filter.
Qed.

Lemma candidates_hoverable (s : GraphicsScene) (point : QPointF) (i : Item) :
  In i (candidates s point true) -> hoverEvent i <> None.
Proof.
  unfold candidates. intros Hi.
  apply (Permutation_in _ (SceneExtra.sort_by_z_perm _)) in Hi.
  apply filter_In in Hi as [_ Hk]. unfold near_keep in Hk.
  destruct (hoverEvent i); [discriminate|]. cbn in Hk. discriminate.
Qed.

(** The end of [sendHoverEvents] touches neither the hover set nor the
    log. *)
Lemma last_hover_update (ev : QEvent) (event : HoverEvent)
    (s s' : GraphicsScene) (u : unit) :
  match ev_type ev with
  | GraphicsSceneMousePress => modify (set_lastHoverEvent (Some event))
  | GraphicsSceneMouseMove =>
      if no_buttons ev then modify (set_lastHoverEvent (Some event))
      else ret tt
  | _ => ret tt
  end s = (s', Return u) ->
  hoverItems s' = hoverItems s /\ log s' = log s.
Proof.
  destruct (ev_type ev); try destruct (no_buttons ev);
    unfold modify, ret; intros H; injection H as <- _;
    destruct s; split; reflexivity.
Qed.

Lemma NoDup_ids_app (l1 l2 : list Item) :
  NoDup (map item_id l1) -> NoDup (map item_id l2) ->
  (forall i, In i l2 -> item_in i l1 = false) ->
  NoDup (map item_id (l1 ++ l2)).
Proof.
  intros H1 H2 Hd. induction l1 as [|a l1 IH]; [exact H2|].
  cbn [map app]. inversion H1 as [|? ? Ha Hl]; subst.
  constructor.
  - rewrite map_app, in_app_iff. intros [Hin|Hin]; [now apply Ha|].
    apply in_map_iff in Hin as (b & E & Hb).
    specialize (Hd b Hb). unfold item_in in Hd. cbn [existsb] in Hd.
    apply orb_false_iff in Hd as [Hd _]. unfold same_item in Hd.
    rewrite E, Nat.eqb_refl in Hd. discriminate.
  - apply IH; [exact Hl|]. intros i Hi. specialize (Hd i Hi).
    unfold item_in in Hd. cbn [existsb] in Hd.
    now apply orb_false_iff in Hd as [_ Hd].
Qed.

Lemma item_in_invariant (l : list Item) (a b : Item) :
  same_item a b = true -> negb (item_in a l) = negb (item_in b l).
Proof. intros E. now rewrite (@item_in_same a b l E). Qed.

(** X18.  Hover membership.  The hover set and the items that Qt reports
    at the pointer hold no item twice, and a hover pass is handled to the
    end.  Then the hover set is afterwards the set of the candidates (the
    hoverable items near the pointer); the pass has announced the
    candidates, notified every candidate once, with [enter] set exactly
    for those that were not hovered before, and then notified once, with
    [exit] set, every item that was hovered, is no candidate any more and
    still belongs to the scene. *)
Theorem hover_pass_exchanges_membership (ev : QEvent) (s s' : GraphicsScene) :
  NoDup (map item_id (hoverItems s)) ->
  NoDup (map item_id (qt_items s (ev_scenePos ev))) ->
  sendHoverEvents ev false s = (s', Return tt) ->
  let items := candidates s (ev_scenePos ev) true in
  let left := filter (fun p => negb (item_in p items)) (hoverItems s) in
  (forall i, item_in i (hoverItems s') = item_in i items)
  /\ NoDup (map item_id (hoverItems s'))
  /\ log s'
     = log s
       ++ MouseHoverSignal (map item_id items)
          :: map (fun i => HoverNote (item_id i)
                             (negb (item_in i (hoverItems s))) false) items
          ++ map (fun i => HoverNote (item_id i) false true)
               (filter in_scene left).
Proof.
  intros Hnh Hnq H items left.
  unfold sendHoverEvents in H.
  apply bind_Return in H as (s0 & st & Hst & H).
  apply bind_Return in Hst as (s00 & its & Hnear & Hst).
  apply itemsNearEvent_returns in Hnear as [-> ->]. fold items in Hst.
  apply bind_Return in Hst as (s01 & [] & Hemit & Hst).
  unfold emit, modify in Hemit. inversion Hemit; subst s01; clear Hemit.
  unfold ret in Hst. inversion Hst; subst s0 st; clear Hst.
  cbn [fst snd] in H.
  apply bind_Return in H as (s1 & prevItems & Hg & H).
  unfold gets in Hg. inversion Hg; subst s1 prevItems; clear Hg.
  apply bind_Return in H as (s2 & [event1 prev1] & Hc & H).
  apply bind_Return in H as (s3 & event3 & Hx & H).
  apply last_hover_update in H as [F1 F2].
  set (s0 := set_log (log s ++ [MouseHoverSignal (map item_id items)]) s) in *.
  assert (H0 : hoverItems s0 = hoverItems s) by (destruct s; reflexivity).
  assert (L0 : log s0 = log s ++ [MouseHoverSignal (map item_id items)])
    by (destruct s; reflexivity).
  apply hover_candidates_spec in Hc as (R1 & R2 & R3 & _).
  2:{ now apply candidates_NoDup. }
  2:{ exact Hnh. }
  2:{ intros i Hi. now apply (@candidates_hoverable s (ev_scenePos ev)). }
  2:{ intros i _ Hi. now rewrite H0 in Hi. }
  2:{ intros p Hp. rewrite H0. now apply item_in_In. }
  cbn [fst snd] in Hx.
  apply hover_exits_spec in Hx as (X1 & X2).
  cbn [set_hover_flags hev_enter hev_exit new_HoverEvent] in R3, X2.
  rewrite H0 in R1, R3. rewrite L0 in R3. fold left in R2.
  rewrite F1, F2, X1, X2, R1, R3, R2. clear F1 F2 X1 X2 R1 R3.
  split; [|split].
  - intros i.
    rewrite item_in_filter by (intros a b; apply item_in_invariant).
    rewrite item_in_app.
    rewrite item_in_filter by (intros a b; apply item_in_invariant).
    unfold left.
    rewrite item_in_filter by (intros a b; apply item_in_invariant).
    destruct (item_in i (hoverItems s)), (item_in i items); reflexivity.
  - apply NoDup_ids_filter. apply NoDup_ids_app; [exact Hnh| |].
    + apply NoDup_ids_filter. now apply candidates_NoDup.
    + intros i Hi. apply filter_In in Hi as [_ Hi].
      now apply negb_true_iff in Hi.
  - rewrite <- !app_assoc. reflexivity.
Qed.

(** The pointer moves from the upper item to the claimant: the claimant
    is entered, then the upper item is left. *)
Lemma hover_pass_exchanges_membership_witness :
  let s' := fst (sendHoverEvents Inputs.move_free false Inputs.pointer_moved_on) in
  log s' = [MouseHoverSignal [4]; HoverNote 4 true false; HoverNote 3 false true]
  /\ map item_id (hoverItems s') = [4].
Proof.
  intros s'.
  assert (E : snd (sendHoverEvents Inputs.move_free false Inputs.pointer_moved_on)
              = Return tt) by (vm_compute; reflexivity).
  pose proof (surjective_pairing
                (sendHoverEvents Inputs.move_free false Inputs.pointer_moved_on))
    as Hp.
  rewrite E in Hp. fold s' in Hp.
  assert (N1 : NoDup (map item_id (hoverItems Inputs.pointer_moved_on))).
  { cbn. constructor; [intros []|constructor]. }
  assert (N2 : NoDup (map item_id (qt_items Inputs.pointer_moved_on
                                     (ev_scenePos Inputs.move_free)))).
  { cbn. constructor; [intros []|constructor]. }
  destruct (@hover_pass_exchanges_membership Inputs.move_free
              Inputs.pointer_moved_on s' N1 N2 Hp) as (_ & _ & Hlog).
  split; [rewrite Hlog; vm_compute; reflexivity|vm_compute; reflexivity].
Defined.

(** ** Leaving the view *)

Lemma filter_all_false {A} (f : A -> bool) (l : list A) :
  (forall a, In a l -> f a = false) -> filter f l = [].
Proof.
  induction l as [|a l IH]; intros H; [reflexivity|]. cbn [filter].
  rewrite (H a (or_introl eq_refl)). apply IH. intros b Hb. apply H. now right.
Qed.

(** X19.  [leaveEvent] does nothing while a button is dragging.
    Otherwise, when it is handled to the end, the hover set is empty
    afterwards, every item that was hovered and still belongs to the scene
    has been notified once with [exit] set, in the order of the hover set,
    nothing else has been notified, and the gesture is untouched.  No view
    is needed for it. *)
Theorem leave_empties_hover_set (ev : QEvent) (s : GraphicsScene) :
  (dragButtons s <> [] -> leaveEvent ev s = (s, Return tt))
  /\ (dragButtons s = [] ->
      forall s', leaveEvent ev s = (s', Return tt) ->
                 hoverItems s' = []
                 /\ log s'
                    = log s ++ map (fun i => HoverNote (item_id i) false true)
                                 (filter in_scene (hoverItems s))
                 /\ same_gesture s s').
Proof.
  split; intros Hd.
  - unfold leaveEvent, bind at 1, gets.
    destruct (dragButtons s); [contradiction|reflexivity].
  - intros s' H. unfold leaveEvent, bind at 1, gets in H. rewrite Hd in H.
    pose proof (keeps_sendHoverEvents ev true s) as Hk. rewrite H in Hk.
    cbn [fst] in Hk.
    unfold sendHoverEvents in H. unfold bind at 1, ret in H. cbn [fst snd] in H.
    unfold bind at 1, gets in H. cbn [hover_candidates] in H.
    unfold bind at 1, ret in H. cbn [fst snd] in H.
    apply bind_Return in H as (s3 & event3 & Hx & H).
    apply last_hover_update in H as [F1 F2].
    apply hover_exits_spec in Hx as (X1 & X2).
    cbn [set_hover_flags hev_enter hev_exit] in X2.
    rewrite F1, F2, X1, X2. split; [|split; [reflexivity|exact Hk]].
    apply filter_all_false. intros a Ha. apply negb_false_iff.
    now apply item_in_In.
Qed.

End HoverFacts.

(** * Press and release *)

Module ReleaseFacts.

Import Geometry.
Import Scene.
Import SceneSpec.
Import SceneFacts.

(** ** What the click and hover dispatch leave alone

    A relation that tolerates a notification other than the delivery of
    a drag event, and a change of the hover set, of the last hover event
    or of the focus, holds across [sendClickEvent] and
    [sendHoverEvents], whether they return or raise. *)

Section Frame.

Variable P : GraphicsScene -> GraphicsScene -> Prop.
Hypothesis P_refl : forall s, P s s.
Hypothesis P_trans : forall s1 s2 s3, P s1 s2 -> P s2 s3 -> P s1 s3.
Hypothesis P_note :
  forall n s, is_drag_note n = false -> P s (set_log (log s ++ [n]) s).
Hypothesis P_hover : forall l s, P s (set_hoverItems l s).
Hypothesis P_last : forall h s, P s (set_lastHoverEvent h s).
Hypothesis P_focus : forall f s, P s (set_focusItem f s).

Lemma fr_ret {A} (a : A) : keeps P (ret a).
Proof. now apply keeps_ret. Qed.

Lemma fr_raise {A} (e : exn) : keeps P (@raise _ A e).
Proof. now apply keeps_raise. Qed.

Lemma fr_gets {A} (f : GraphicsScene -> A) : keeps P (gets f).
Proof. now apply keeps_gets. Qed.

Lemma fr_bind {A B} (c : SM A) (k : A -> SM B) :
  keeps P c -> (forall a, keeps P (k a)) -> keeps P (bind c k).
Proof. now apply keeps_bind. Qed.

Lemma fr_propagate {A} (c : SM (A * option exn)) :
  keeps P c -> keeps P (propagate c).
Proof. now apply keeps_propagate. Qed.

Lemma fr_emit (n : Notification) : is_drag_note n = false -> keeps P (emit n).
Proof. intros H s. now apply P_note. Qed.

Lemma fr_setFocus (item : Item) : keeps P (setFocus item).
Proof. intros s. apply P_focus. Qed.

Lemma fr_deliver_hover (item : Item) (event : HoverEvent) :
  keeps P (deliver_hover item event).
Proof.
  unfold deliver_hover. destruct (hoverEvent item); [|apply fr_ret].
  apply fr_bind; [now apply fr_emit|]. intros _. apply fr_ret.
Qed.

Lemma fr_deliver_click (item : Item) (ev : MouseClickEvent) :
  keeps P (deliver_click item ev).
Proof.
  unfold deliver_click. destruct (mouseClickEvent item); [|apply fr_ret].
  apply fr_bind; [now apply fr_emit|]. intros _. apply fr_ret.
Qed.

Lemma fr_itemsNearEvent (point : QPointF) (hoverable : bool) :
  keeps P (itemsNearEvent point hoverable).
Proof.
  unfold itemsNearEvent. apply fr_bind; [apply fr_gets|].
  intros views. destruct (negb views); [apply fr_raise|].
  apply fr_bind; [apply fr_gets|]. intros items. apply fr_ret.
Qed.

Lemma fr_hover_candidates (items : list Item) :
  forall event prevItems, keeps P (hover_candidates items event prevItems).
Proof.
  induction items as [|item rest IH]; intros event prevItems; simpl.
  - apply fr_ret.
  - destruct (hoverEvent item); [|apply IH].
    apply fr_bind; [apply fr_gets|]. intros hs.
    apply fr_bind.
    + destruct (item_in item hs).
      * destruct (list_remove same_item item prevItems);
          [apply fr_ret|apply fr_raise].
      * apply fr_bind; [|intros _; apply fr_ret].
        intros s. apply P_hover.
    + intros st. apply fr_bind; [|intros e; apply IH].
      apply fr_propagate, fr_deliver_hover.
Qed.

Lemma fr_hover_exits (prevItems : list Item) :
  forall event, keeps P (hover_exits prevItems event).
Proof.
  induction prevItems as [|item rest IH]; intros event; simpl.
  - apply fr_ret.
  - apply fr_bind.
    + destruct (in_scene item); [|apply fr_ret].
      apply fr_propagate, fr_deliver_hover.
    + intros event'. apply fr_bind; [|intros _; apply IH].
      intros s. apply P_hover.
Qed.

Lemma fr_sendHoverEvents (ev : QEvent) (exitOnly : bool) :
  keeps P (sendHoverEvents ev exitOnly).
Proof.
  unfold sendHoverEvents. apply fr_bind.
  - destruct exitOnly; [apply fr_ret|].
    apply fr_bind; [apply fr_itemsNearEvent|]. intros items.
    apply fr_bind; [now apply fr_emit|]. intros _. apply fr_ret.
  - intros st. apply fr_bind; [apply fr_gets|]. intros prevItems.
    apply fr_bind; [apply fr_hover_candidates|]. intros r.
    apply fr_bind; [apply fr_hover_exits|]. intros event.
    destruct (ev_type ev); try apply fr_ret;
      try destruct (no_buttons ev); try apply fr_ret;
      intros s; apply P_last.
Qed.

Lemma fr_click_candidates (items : list Item) :
  forall ev, keeps P (click_candidates items ev).
Proof.
  induction items as [|item rest IH]; intros ev; simpl.
  - apply fr_ret.
  - destruct (negb (isVisible item) || negb (isEnabled item)); [apply IH|].
    destruct (mouseClickEvent item) eqn:Eh; [|apply IH].
    apply fr_bind; [apply fr_propagate, fr_deliver_click|]. intros ev'.
    destruct (cev_accepted ev'); [|apply IH].
    apply fr_bind; [|intros _; apply fr_ret].
    destruct (isFocusable item); [apply fr_setFocus|apply fr_ret].
Qed.

Lemma fr_click_search (ev : MouseClickEvent) : keeps P (click_search ev).
Proof.
  unfold click_search. apply fr_bind; [apply fr_gets|]. intros lastHover.
  destruct (match lastHover with
            | Some h => dict_get (cev_button ev) (clickItems h)
            | None => None
            end).
  - apply fr_propagate, fr_deliver_click.
  - apply fr_bind; [apply fr_itemsNearEvent|]. intros items.
    apply fr_click_candidates.
Qed.

(** The delivery of the click in [sendClickEvent], before the signal. *)
Lemma fr_click_block (current : option Item) (ev : MouseClickEvent) :
  keeps P (match current with
           | Some d =>
               if has_MouseDragEvent d then
                 propagate (deliver_click d
                              (set_click ev (cev_accepted ev) (Some d)))
               else click_search ev
           | None => click_search ev
           end).
Proof.
  destruct current as [d|]; [|apply fr_click_search].
  destruct (has_MouseDragEvent d); [|apply fr_click_search].
  apply fr_propagate, fr_deliver_click.
Qed.

End Frame.

(** ** The two relations *)

Lemma no_drag_sent_refl (s : GraphicsScene) : no_drag_sent s s.
Proof. exists []. now rewrite app_nil_r. Qed.

Lemma no_drag_sent_trans (s1 s2 s3 : GraphicsScene) :
  no_drag_sent s1 s2 -> no_drag_sent s2 s3 -> no_drag_sent s1 s3.
Proof.
  intros (l1 & E1 & F1) (l2 & E2 & F2). exists (l1 ++ l2). split.
  - now rewrite E2, E1, app_assoc.
  - apply Forall_app. now split.
Qed.

Lemma no_drag_sent_same_log (s s' : GraphicsScene) :
  log s' = log s -> no_drag_sent s s'.
Proof. intros E. exists []. now rewrite app_nil_r. Qed.

Lemma no_drag_sent_note (n : Notification) (s : GraphicsScene) :
  is_drag_note n = false -> no_drag_sent s (set_log (log s ++ [n]) s).
Proof.
  intros H. exists [n]. split; [destruct s; reflexivity|].
  constructor; [exact H|constructor].
Qed.

Lemma quiet_click_block (current : option Item) (ev : MouseClickEvent) :
  keeps no_drag_sent
    (match current with
     | Some d =>
         if has_MouseDragEvent d then
           propagate (deliver_click d (set_click ev (cev_accepted ev) (Some d)))
         else click_search ev
     | None => click_search ev
     end).
Proof.
  apply fr_click_block;
    [ apply no_drag_sent_refl | apply no_drag_sent_trans
    | apply no_drag_sent_note
    | intros f s; apply no_drag_sent_same_log; destruct s; reflexivity ].
Qed.

Lemma quiet_sendHoverEvents (ev : QEvent) (exitOnly : bool) :
  keeps no_drag_sent (sendHoverEvents ev exitOnly).
Proof.
  apply fr_sendHoverEvents;
    [ apply no_drag_sent_refl | apply no_drag_sent_trans
    | apply no_drag_sent_note
    | intros l s; apply no_drag_sent_same_log; destruct s; reflexivity
    | intros h s; apply no_drag_sent_same_log; destruct s; reflexivity ].
Qed.

Lemma gesture_click_block (current : option Item) (ev : MouseClickEvent) :
  keeps same_gesture
    (match current with
     | Some d =>
         if has_MouseDragEvent d then
           propagate (deliver_click d (set_click ev (cev_accepted ev) (Some d)))
         else click_search ev
     | None => click_search ev
     end).
Proof.
  apply fr_click_block;
    [ apply same_gesture_refl | apply same_gesture_trans
    | intros n s _; apply (keeps_emit n s)
    | intros f s; unfold same_gesture; destruct s; cbn; tauto ].
Qed.

(** ** The button of a click event never changes *)

Lemma deliver_click_button (item : Item) (ev ev' : MouseClickEvent)
    (s s' : GraphicsScene) :
  propagate (deliver_click item ev) s = (s', Return ev') ->
  cev_button ev' = cev_button ev.
Proof.
  destruct (mouseClickEvent item) as [h|] eqn:Eh.
  - rewrite (propagate_deliver_click _ _ _ Eh).
    destruct (reply_raises _); intros H; inversion H. reflexivity.
  - unfold propagate, deliver_click, bind, ret, raise. rewrite Eh. cbn.
    discriminate.
Qed.

Lemma click_candidates_button (items : list Item) (ev ev' : MouseClickEvent)
    (s s' : GraphicsScene) :
  click_candidates items ev s = (s', Return ev') ->
  cev_button ev' = cev_button ev.
Proof.
  intros H. destruct (click_candidates_walk items ev s) as [_ Hr].
  rewrite H in Hr. cbn [snd] in Hr.
  destruct (snd (click_walk items ev)); [discriminate|].
  inversion Hr. apply click_walk_button.
Qed.

Lemma click_search_button (ev ev' : MouseClickEvent) (s s' : GraphicsScene) :
  click_search ev s = (s', Return ev') -> cev_button ev' = cev_button ev.
Proof.
  unfold click_search. intros H.
  apply bind_Return in H as (s0 & lastHover & Hg & H).
  destruct (match lastHover with
            | Some h => dict_get (cev_button ev) (clickItems h)
            | None => None
            end).
  - now apply deliver_click_button in H.
  - apply bind_Return in H as (s1 & items & _ & H).
    now apply click_candidates_button in H.
Qed.

(** [sendClickEvent], when it returns, has sent no drag event, has left
    the gesture alone and has emitted the signal of the click last. *)
Lemma sendClickEvent_returns (ev : MouseClickEvent) (s s' : GraphicsScene)
    (a : bool) :
  sendClickEvent ev s = (s', Return a) ->
  same_gesture s s'
  /\ exists l, log s' = log s ++ l ++ [MouseClickedSignal (cev_button ev)]
               /\ Forall (fun n => is_drag_note n = false) l.
Proof.
  unfold sendClickEvent. intros H.
  apply bind_Return in H as (s0 & current & Hg & H).
  unfold gets in Hg. inversion Hg; subst s0 current; clear Hg.
  apply bind_Return in H as (s1 & ev' & Hb & H).
  pose proof (f_equal fst Hb) as E1. cbn [fst] in E1.
  assert (Hq : no_drag_sent s s1)
    by (rewrite <- E1; exact (quiet_click_block (dragItem s) ev s)).
  assert (Hs : same_gesture s s1)
    by (rewrite <- E1; exact (gesture_click_block (dragItem s) ev s)).
  clear E1.
  assert (Hbtn : cev_button ev' = cev_button ev).
  { destruct (dragItem s) as [d|]; [destruct (has_MouseDragEvent d)|].
    - now apply deliver_click_button in Hb.
    - now apply click_search_button in Hb.
    - now apply click_search_button in Hb. }
  unfold bind, emit, modify, ret in H. inversion H; subst s' a; clear H.
  rewrite Hbtn. split.
  - eapply same_gesture_trans; [exact Hs|].
    apply (keeps_emit (MouseClickedSignal (cev_button ev)) s1).
  - destruct Hq as (l & El & Fl). exists l. split; [|exact Fl].
    replace (log (set_log (log s1 ++ [MouseClickedSignal (cev_button ev)]) s1))
      with (log s1 ++ [MouseClickedSignal (cev_button ev)])
      by (destruct s1; reflexivity).
    now rewrite El, <- app_assoc.
Qed.

Lemma clicks_of_button (btn : MouseButton) (l rest : list MouseClickEvent)
    (cev : MouseClickEvent) :
  clicks_of btn l = cev :: rest -> cev_button cev = btn.
Proof.
  intros H.
  assert (Hin : In cev (clicks_of btn l)) by (rewrite H; now left).
  apply filter_In in Hin as [_ Hb]. unfold button_eqb in Hb.
  destruct (MouseButton_eq_dec (cev_button cev) btn); [assumption|discriminate].
Qed.

(** ** Release *)

(** X20.  A click is delivered on release.  The released button is not
    dragging and has a pending click, Qt has not grabbed the event and
    the release is handled to the end.  Then the scene has emitted the
    click signal for the button, and has delivered no drag event, neither
    before nor after it; and when another button is still held, the
    pending click of the released button is gone from the pending clicks
    and the rest of the gesture state is as before. *)
Theorem release_delivers_pending_click (ev : QEvent) (s s' : GraphicsScene)
    (cev : MouseClickEvent) (rest : list MouseClickEvent) (accepted : bool) :
  ev_grabbed ev = false ->
  button_in (ev_button ev) (dragButtons s) = false ->
  clicks_of (ev_button ev) (clickEvents s) = cev :: rest ->
  mouseReleaseEvent ev s = (s', Return accepted) ->
  (exists before after,
      log s' = log s ++ before ++ MouseClickedSignal (ev_button ev) :: after
      /\ Forall (fun n => is_drag_note n = false) (before ++ after))
  /\ (ev_buttons ev <> [] ->
      clickEvents s' = remove_click (ev_button ev) (clickEvents s)
      /\ dragButtons s' = dragButtons s
      /\ dragItem s' = dragItem s
      /\ lastDrag s' = lastDrag s).
Proof.
  intros Hg Hnot Hc H. unfold mouseReleaseEvent in H. rewrite Hg in H.
  apply bind_Return in H as (s2 & a1 & Hblock & H).
  unfold bind at 1, gets in Hblock. rewrite Hnot in Hblock.
  unfold bind at 1, gets in Hblock. rewrite Hc in Hblock.
  apply bind_Return in Hblock as (s1 & a & Hclick & Hblock).
  apply bind_Return in Hblock as (s1' & [] & Hm & Hr).
  unfold modify in Hm. inversion Hm; subst s1'; clear Hm.
  unfold ret in Hr. inversion Hr; subst s2 a1; clear Hr.
  apply bind_Return in H as (s3 & [] & Hreset & H).
  apply bind_Return in H as (s4 & [] & Hhover & H).
  unfold ret in H. inversion H; subst s4 accepted; clear H.
  apply sendClickEvent_returns in Hclick
    as ((G1 & G2 & G3 & G4 & _) & l & El & Fl).
  rewrite (clicks_of_button _ _ Hc) in El.
  pose proof (quiet_sendHoverEvents ev false s3) as (l2 & El2 & Fl2).
  pose proof (keeps_sendHoverEvents ev false s3) as (K1 & K2 & K3 & K4 & _).
  rewrite Hhover in El2, K1, K2, K3, K4. cbn [fst] in *.
  set (s2 := set_clickEvents (remove_click (ev_button ev) (clickEvents s1)) s1)
    in *.
  assert (L3 : log s3 = log s1).
  { destruct (no_buttons ev); unfold modify, ret in Hreset;
      inversion Hreset; subst s3; unfold s2; destruct s1; reflexivity. }
  split.
  - exists l, l2. split.
    + rewrite El2, L3, El, <- !app_assoc. reflexivity.
    + apply Forall_app. now split.
  - intros Hb. unfold no_buttons in Hreset.
    destruct (ev_buttons ev); [contradiction|].
    unfold ret in Hreset. inversion Hreset; subst s3; clear Hreset.
    rewrite K1, K2, K3, K4. unfold s2. rewrite <- G1, <- G2, <- G3, <- G4.
    destruct s1; repeat split.
Qed.

Lemma release_delivers_pending_click_witness :
  let s' := fst (mouseReleaseEvent (Inputs.release_left Inputs.origin)
                   Inputs.healthy_scene) in
  exists before after,
    log s' = log Inputs.healthy_scene
             ++ before ++ MouseClickedSignal LeftButton :: after
    /\ Forall (fun n => is_drag_note n = false) (before ++ after).
Proof.
  intros s'.
  assert (E : snd (mouseReleaseEvent (Inputs.release_left Inputs.origin)
                     Inputs.healthy_scene) = Return true)
    by (vm_compute; reflexivity).
  pose proof (surjective_pairing
                (mouseReleaseEvent (Inputs.release_left Inputs.origin)
                   Inputs.healthy_scene)) as Hp.
  rewrite E in Hp. fold s' in Hp.
  exact (proj1 (@release_delivers_pending_click
                  (Inputs.release_left Inputs.origin) Inputs.healthy_scene s'
                  Inputs.click_left [] true eq_refl eq_refl eq_refl Hp)).
Defined.

(** X21.  The release of a dragging button ends its drag.  Qt has not
    grabbed the event, the released button is dragging, another button is
    still held and the release is handled to the end.  Then the button is
    no longer dragging, the last drag event of the scene has [finish] set
    and [start] unset and its accepted flag is the value returned, and the
    pending clicks are as before: the click of a dragged button is never
    delivered. *)
Theorem release_ends_drag (ev : QEvent) (s s' : GraphicsScene)
    (accepted : bool) :
  ev_grabbed ev = false ->
  button_in (ev_button ev) (dragButtons s) = true ->
  ev_buttons ev <> [] ->
  mouseReleaseEvent ev s = (s', Return accepted) ->
  dragButtons s' = remove_button (ev_button ev) (dragButtons s)
  /\ clickEvents s' = clickEvents s
  /\ exists e, lastDrag s' = Some e
               /\ dev_start e = false /\ dev_finish e = true
               /\ dev_accepted e = accepted.
Proof.
  intros Hg Hdrag Hb H. unfold mouseReleaseEvent in H. rewrite Hg in H.
  apply bind_Return in H as (s2 & a1 & Hblock & H).
  unfold bind at 1, gets in Hblock. rewrite Hdrag in Hblock.
  apply bind_Return in Hblock as (s1 & a & Hsend & Hblock).
  apply bind_Return in Hblock as (s1' & [] & Hm & Hr).
  unfold modify in Hm. inversion Hm; subst s1'; clear Hm.
  unfold ret in Hr. inversion Hr; subst s2 a1; clear Hr.
  apply bind_Return in H as (s3 & [] & Hreset & H).
  apply bind_Return in H as (s4 & [] & Hhover & H).
  unfold ret in H. inversion H; subst s4 accepted; clear H.
  unfold no_buttons in Hreset. destruct (ev_buttons ev); [contradiction|].
  unfold ret in Hreset. inversion Hreset; subst s3; clear Hreset.
  pose proof (SceneExtra.sb_sendDragEvent ev false true s) as (B1 & B2 & _).
  rewrite Hsend in B1, B2. cbn [fst] in B1, B2.
  apply SceneExtra.sendDragEvent_record in Hsend
    as (e & p & _ & He & Hs & Hf & _ & Ha).
  match type of Hhover with
  | sendHoverEvents _ _ ?t = _ =>
      pose proof (keeps_sendHoverEvents ev false t) as (K1 & K2 & _ & K4 & _)
  end.
  rewrite Hhover in K1, K2, K4. cbn [fst] in K1, K2, K4.
  rewrite K1, K2, K4. rewrite <- B1, <- B2.
  split; [destruct s1; reflexivity|]. split; [destruct s1; reflexivity|].
  exists e. split; [destruct s1; cbn in *; exact He|]. now repeat split.
Qed.

Lemma release_ends_drag_witness :
  let s' := fst (mouseReleaseEvent Inputs.release_left_holding_right
                   Inputs.healthy_drag) in
  dragButtons s' = remove_button LeftButton (dragButtons Inputs.healthy_drag)
  /\ clickEvents s' = clickEvents Inputs.healthy_drag
  /\ exists e, lastDrag s' = Some e
               /\ dev_start e = false /\ dev_finish e = true
               /\ dev_accepted e = true.
Proof.
  intros s'.
  assert (E : snd (mouseReleaseEvent Inputs.release_left_holding_right
                     Inputs.healthy_drag) = Return true)
    by (vm_compute; reflexivity).
  pose proof (surjective_pairing
                (mouseReleaseEvent Inputs.release_left_holding_right
                   Inputs.healthy_drag)) as Hp.
  rewrite E in Hp. fold s' in Hp.
  apply (@release_ends_drag Inputs.release_left_holding_right
           Inputs.healthy_drag s' true eq_refl eq_refl);
    [discriminate|exact Hp].
Defined.

(** ** Press *)

Lemma focus_first_eq (items : list Item) (s : GraphicsScene) :
  focus_first items s
  = (match find (fun i => isEnabled i && isVisible i && isFocusable i) items with
     | Some i => set_focusItem (Some (item_id i)) s
     | None => s
     end, Return tt).
Proof.
  induction items as [|i rest IH]; [reflexivity|]. cbn [focus_first find].
  destruct (isEnabled i && isVisible i && isFocusable i); [reflexivity|exact IH].
Qed.

Lemma focus_sendHoverEvents (ev : QEvent) (exitOnly : bool) :
  keeps (fun s s' => focusItem s' = focusItem s /\ qt_items s' = qt_items s)
    (sendHoverEvents ev exitOnly).
Proof.
  apply fr_sendHoverEvents.
  - now split.
  - intros s1 s2 s3 [A1 A2] [B1 B2]. split; congruence.
  - intros n s _. destruct s; now split.
  - intros l s. destruct s; now split.
  - intros h s. destruct s; now split.
Qed.

(** X22.  A press is recorded.  [mousePressEvent] first lets the base
    class of Qt handle the press, which decides the focus item and the
    mouse grabber.  When an item has grabbed the mouse, the scene does
    nothing more: the focus is where Qt left it and the rest of the state
    is untouched.  Otherwise, when the press is handled to the end, the
    pending clicks have grown by one click event, which carries the button,
    the position and the time of the press and is not accepted; the
    dragging buttons, the drag item and the last drag event are as before;
    no drag event was delivered; and the focus is on the first item under
    the pointer, in the order of Qt, that is enabled, visible and
    focusable, if there is one, and otherwise where Qt left it. *)
Theorem press_records_click (qt_focus : option nat)
    (point_ne : QPointF -> QPointF -> bool) (ev : QEvent) (clock : R)
    (s : GraphicsScene) :
  (ev_grabbed ev = true ->
   mousePressEvent qt_focus point_ne ev clock s
   = (set_focusItem qt_focus s, Return tt))
  /\ (ev_grabbed ev = false ->
      forall s',
        mousePressEvent qt_focus point_ne ev clock s = (s', Return tt) ->
        clickEvents s'
        = clickEvents s
          ++ [mkClickEvent (ev_button ev) (ev_scenePos ev) clock false false None]
        /\ dragButtons s' = dragButtons s
        /\ dragItem s' = dragItem s
        /\ lastDrag s' = lastDrag s
        /\ no_drag_sent s s'
        /\ focusItem s'
           = match find (fun i => isEnabled i && isVisible i && isFocusable i)
                     (qt_items s (ev_scenePos ev)) with
             | Some i => Some (item_id i)
             | None => qt_focus
             end).
Proof.
  split; intros Hg; unfold mousePressEvent; unfold bind at 1, modify;
    rewrite Hg; [reflexivity|].
  intros s' H.
  set (s0 := set_focusItem qt_focus s) in *.
  assert (A : clickEvents s0 = clickEvents s /\ dragButtons s0 = dragButtons s
              /\ dragItem s0 = dragItem s /\ lastDrag s0 = lastDrag s
              /\ qt_items s0 = qt_items s /\ log s0 = log s
              /\ focusItem s0 = qt_focus).
  { unfold s0. destruct s. cbn. repeat split. }
  destruct A as (A1 & A2 & A3 & A4 & A5 & A6 & A7).
  apply bind_Return in H as (s0' & lastHover & Hl & H).
  unfold gets in Hl. inversion Hl; subst s0' lastHover; clear Hl.
  apply bind_Return in H as (s1 & u & Hpre & H).
  assert (Hcase : s1 = s0 \/ s1 = fst (sendHoverEvents ev false s0)).
  { destruct (lastHoverEvent s) as [h|].
    - destruct (match hev_scenePos h with
                | Some p => point_ne (ev_scenePos ev) p
                | None => true
                end).
      + right. now rewrite Hpre.
      + left. unfold ret in Hpre. now inversion Hpre.
    - left. unfold ret in Hpre. now inversion Hpre. }
  assert (Hfr : same_gesture s0 s1 /\ no_drag_sent s0 s1
                /\ focusItem s1 = focusItem s0).
  { destruct Hcase as [->| ->].
    - split; [apply same_gesture_refl|].
      split; [apply no_drag_sent_refl|reflexivity].
    - split; [apply keeps_sendHoverEvents|].
      split; [apply quiet_sendHoverEvents|].
      apply (focus_sendHoverEvents ev false s0). }
  destruct Hfr as ((G1 & G2 & G3 & G4 & _ & _ & _ & G8) & (l & El & Fl) & Gf).
  clear Hpre Hcase.
  apply bind_Return in H as (s2 & [] & Hm & H).
  unfold modify in Hm. inversion Hm; subst s2; clear Hm.
  apply bind_Return in H as (s3 & items & Hi & H).
  unfold gets in Hi. inversion Hi; subst s3 items; clear Hi.
  rewrite focus_first_eq in H. inversion H; subst s'; clear H.
  cbn [qt_items set_clickEvents]. rewrite G8, A5.
  rewrite A6 in El. rewrite A7 in Gf.
  rewrite <- A1, <- A2, <- A3, <- A4, <- G1, <- G2, <- G3, <- G4, <- Gf.
  destruct (find (fun i => isEnabled i && isVisible i && isFocusable i)
              (qt_items s (ev_scenePos ev))) as [i|].
  - split; [destruct s1; reflexivity|]. split; [destruct s1; reflexivity|].
    split; [destruct s1; reflexivity|]. split; [destruct s1; reflexivity|].
    split; [|destruct s1; reflexivity].
    exists l. split; [|exact Fl]. rewrite <- El. destruct s1; reflexivity.
  - split; [destruct s1; reflexivity|]. split; [destruct s1; reflexivity|].
    split; [destruct s1; reflexivity|]. split; [destruct s1; reflexivity|].
    split; [|destruct s1; reflexivity].
    exists l. split; [|exact Fl]. rewrite <- El. destruct s1; reflexivity.
Qed.

End ReleaseFacts.
